(** * A recursive multigrid solver for the 1-D Poisson problem

    Shallow embedding of the multigrid notebook (functions [jacobi],
    [residual], [prolong], [restrict], [vcycle], [fmg_vcycle], [solve]).

    - A numpy 1-D array of float64 is a [list T], for a carrier [T] with
      the scalar operations the source uses (class [Num]).  Three carriers
      are provided: IEEE binary64 ([PrimFloat], the arithmetic the notebook
      runs on), the canonical rationals [Qc] (exact arithmetic that
      evaluates) and the real numbers [R] (exact arithmetic with an order,
      for bounds on errors).
    - numpy's shape rules are part of the model: an elementwise operation on
      arrays of different lengths broadcasts a length-1 operand and raises
      [ValueError] otherwise, indexing an empty array raises [IndexError].
      A function returns [Ok v] or [Raise e].
    - The recursive functions take a recursion budget; the public entry
      points pass the array length, which is shown to be always enough.

    Results that only follow the data flow (lengths, which entry is computed
    from which, the recursion) are proved for every carrier, binary64
    included.  Results that state an algebraic identity between values, a
    bound on an error, or the full list of the exceptions of a function
    that squares the spacing (see [sq]) are proved for exact arithmetic
    (class [ExactArith]); rounding and overflow are outside those
    statements, and each of them says so.  Where rounding or overflow
    decides a statement, the binary64 carrier is evaluated: the two end
    entries of a Field are kept by the Smoother in exact arithmetic and
    moved by it in binary64; a constant Field of entries [1e308] is not
    kept by Restriction and Prolongation. *)

From Stdlib Require Import List Arith PeanoNat ZArith Lia Bool.
From Stdlib Require Import Ring Ring_theory.
From Stdlib Require Import QArith Qcanon.
From Stdlib Require Import PrimFloat Uint63.
From Stdlib Require Import Reals Lra Psatz.
Import ListNotations.

Close Scope Qc_scope.
Close Scope Q_scope.
Open Scope nat_scope.

(** ** Exceptions and results *)

(** The Python exceptions the code can raise, and [OutOfFuel] for a
    recursion budget that was too small (never returned by the entry points,
    see [vcycle_outcome] and [fmg_vcycle_outcome]). *)
Inductive exn : Type :=
| ValueError
| IndexError
| ZeroDivisionError
| OutOfFuel.

Inductive result (A : Type) : Type :=
| Ok (a : A)
| Raise (e : exn).

Arguments Ok {A} a.
Arguments Raise {A} e.

Definition bind {A B : Type} (r : result A) (k : A -> result B) : result B :=
  match r with
  | Ok a => k a
  | Raise e => Raise e
  end.

Declare Scope result_scope.
Delimit Scope result_scope with result.
Notation "x <- c ;; k" := (bind c (fun x => k))
  (at level 61, c at next level, right associativity) : result_scope.
Open Scope result_scope.

Definition is_ok {A : Type} (r : result A) : bool :=
  match r with Ok _ => true | Raise _ => false end.

(** [for _ in range(n): s = body(s)] *)
Fixpoint for_range {S : Type} (n : nat) (body : S -> result S) (s : S)
  : result S :=
  match n with
  | O => Ok s
  | S n' => s' <- body s ;; for_range n' body s'
  end.

(** ** Scalars *)

(** The scalar operations of the source: [+], [-], [*], [/] on floats, the
    literals [0.5] and [0.25], and the conversion of a Python integer
    ([2], [1], [n]) to a float ([of_int]). *)
Class Num (T : Type) : Type := {
  zero : T;
  one : T;
  add : T -> T -> T;
  sub : T -> T -> T;
  mul : T -> T -> T;
  div : T -> T -> T;
  opp : T -> T;
  of_int : Z -> T;
  half : T;
  quarter : T
}.

(** Exact arithmetic: a commutative ring in which the literals mean what
    they say. *)
Class ExactArith (T : Type) {N : Num T} : Prop := {
  exact_ring : ring_theory zero one add mul sub opp (@eq T);
  of_int_0 : of_int 0 = zero;
  of_int_1 : of_int 1 = one;
  of_int_add : forall a b : Z, of_int (a + b) = add (of_int a) (of_int b);
  half_spec : mul (of_int 2) half = one;
  quarter_spec : quarter = mul half half
}.

(** ** numpy arrays *)

(** A 1-D array of scalars. *)
Abbreviation ndarray := list (only parsing).

Section Numpy.
Context {T : Type} {N : Num T}.

(** [np.zeros(n)], [np.zeros_like(a)] *)
Definition zeros (n : nat) : ndarray T := repeat zero n.
Definition zeros_like (a : ndarray T) : ndarray T := zeros (length a).

(** [np.empty(n)]: a negative size is a [ValueError].  The content of the
    new array is unspecified; the model fills it with zeros ([prolong], its
    only user, overwrites every entry). *)
Definition empty (n : Z) : result (ndarray T) :=
  if (n <? 0)%Z then Raise ValueError else Ok (zeros (Z.to_nat n)).

(** [a[lo:]] is [slice lo 0 a], [a[lo:-hi]] is [slice lo hi a] (hi >= 1). *)
Definition slice (lo hi : nat) (a : ndarray T) : ndarray T :=
  firstn (length a - hi - lo) (skipn lo a).

(** [a[::2]] *)
Fixpoint stride2 (a : ndarray T) : ndarray T :=
  match a with
  | [] => []
  | x :: [] => [x]
  | x :: _ :: rest => x :: stride2 rest
  end.

(** [np.roll(a, shift)]: entry [i] moves to [(i + shift) mod len]. *)
Definition roll (a : ndarray T) (shift : Z) : ndarray T :=
  match a with
  | [] => []
  | _ =>
      let s := Z.to_nat (shift mod Z.of_nat (length a)) in
      skipn (length a - s) a ++ firstn (length a - s) a
  end.

(** [a[0]] and [a[-1]] *)
Definition get_first (a : ndarray T) : result T :=
  match a with
  | [] => Raise IndexError
  | x :: _ => Ok x
  end.

Definition get_last (a : ndarray T) : result T :=
  match a with
  | [] => Raise IndexError
  | _ => Ok (last a zero)
  end.

(** [a[0] = v] and [a[-1] = v] *)
Definition set_first (a : ndarray T) (v : T) : result (ndarray T) :=
  match a with
  | [] => Raise IndexError
  | _ :: rest => Ok (v :: rest)
  end.

Definition set_last (a : ndarray T) (v : T) : result (ndarray T) :=
  match a with
  | [] => Raise IndexError
  | _ => Ok (removelast a ++ [v])
  end.

(** Broadcasting of a right-hand side to [n] entries: same length, or one
    entry repeated; anything else is a [ValueError]. *)
Definition broadcast_to (n : nat) (rhs : ndarray T) : result (ndarray T) :=
  if length rhs =? n then Ok rhs
  else match rhs with
       | [r] => Ok (repeat r n)
       | _ => Raise ValueError
       end.

(** [a[lo:-hi] = rhs] *)
Definition set_slice (lo hi : nat) (a rhs : ndarray T) : result (ndarray T) :=
  let n := length (slice lo hi a) in
  r <- broadcast_to n rhs ;;
  Ok (firstn lo a ++ r ++ skipn (lo + n) a).

(** Writes [rhs] to the entries 0, 2, 4, ... of [a]. *)
Fixpoint write_stride2 (a rhs : ndarray T) : ndarray T :=
  match a, rhs with
  | _ :: a1 :: rest, r :: rs => r :: a1 :: write_stride2 rest rs
  | _ :: [], r :: _ => [r]
  | _, _ => a
  end.

(** [a[lo::2] = rhs] *)
Definition set_stride2 (lo : nat) (a rhs : ndarray T) : result (ndarray T) :=
  let n := length (stride2 (skipn lo a)) in
  r <- broadcast_to n rhs ;;
  Ok (firstn lo a ++ write_stride2 (skipn lo a) r).

(** Elementwise binary operation with broadcasting. *)
Fixpoint zip_with (f : T -> T -> T) (a b : ndarray T) : ndarray T :=
  match a, b with
  | x :: a', y :: b' => f x y :: zip_with f a' b'
  | _, _ => []
  end.

Definition elementwise (f : T -> T -> T) (a b : ndarray T) : result (ndarray T) :=
  if length a =? length b then Ok (zip_with f a b)
  else match a, b with
       | [x], _ => Ok (map (f x) b)
       | _, [y] => Ok (map (fun x => f x y) a)
       | _, _ => Raise ValueError
       end.

Definition np_add : ndarray T -> ndarray T -> result (ndarray T) := elementwise add.
Definition np_sub : ndarray T -> ndarray T -> result (ndarray T) := elementwise sub.

(** [a += b]: [b] is broadcast to the shape of [a]. *)
Definition iadd (a b : ndarray T) : result (ndarray T) :=
  r <- broadcast_to (length a) b ;;
  Ok (zip_with add a r).

(** scalar-array operations: [c * a], [-a], [a / c] *)
Definition scale (c : T) (a : ndarray T) : ndarray T := map (mul c) a.
Definition negate (a : ndarray T) : ndarray T := map opp a.
Definition divide (a : ndarray T) (c : T) : ndarray T := map (fun x => div x c) a.

End Numpy.

(** ** The solver *)

Section Multigrid.
Context {T : Type} {N : Num T}.

(** The default damping weight, [w=2./3.] *)
Definition w_default : T := div (of_int 2) (of_int 3).

(** [h**2], taken as the product [h*h].  On a Python float [h**2] is the
    C function [pow]: it raises [OverflowError] when the square is too large
    for a float (a spacing above about [1.34e154] in size), and its value is
    within one unit in the last place of the rounded product.  The model
    has neither: it describes the code for spacings whose square is finite,
    and on the binary64 carrier an entry that depends on [h**2] is the
    code's entry where [pow] returns the rounded product (it does wherever
    the product is itself a binary64 number, as for [h = 1] and the powers
    of two: the next float is a whole unit in the last place away).  The
    spacings of [solve] on [n = 2^k] intervals, [1/n, 2/n, ..., 1/2], are
    such powers of two. *)
Definition sq (h : T) : T := mul h h.

(** One pass of the loop body of [jacobi]; the state is [(phi, phistar)]:
[[
        phistar[1:-1] = 0.5*(phi[:-2]+phi[2:]+h**2*F[1:-1])
        phi = (1-w)*phi + w*phistar
]] *)
Definition jacobi_body (F : ndarray T) (h w : T) (st : ndarray T * ndarray T)
  : result (ndarray T * ndarray T) :=
  let '(phi, phistar) := st in
  s <- np_add (slice 0 2 phi) (slice 2 0 phi) ;;
  s <- np_add s (scale (sq h) (slice 1 1 F)) ;;
  phistar <- set_slice 1 1 phistar (scale half s) ;;
  phi <- np_add (scale (sub one w) phi) (scale w phistar) ;;
  Ok (phi, phistar).

(** [def jacobi(phi,F,h,Niter=5,w=2./3.)] *)
Definition jacobi (phi F : ndarray T) (h : T) (Niter : nat) (w : T)
  : result (ndarray T) :=
  let phistar := phi in
  st <- for_range Niter (jacobi_body F h w) (phi, phistar) ;;
  Ok (fst st).

(** [def residual(phi,F,h)]:
[[
    d2phi = np.zeros_like(phi)
    d2phi[1:-1]=-phi[:-2]-phi[2:]+2*phi[1:-1]
    return(h**2*F-d2phi)
]] *)
Definition residual (phi F : ndarray T) (h : T) : result (ndarray T) :=
  let d2phi := zeros_like phi in
  s <- np_sub (negate (slice 0 2 phi)) (slice 2 0 phi) ;;
  s <- np_add s (scale (of_int 2) (slice 1 1 phi)) ;;
  d2phi <- set_slice 1 1 d2phi s ;;
  np_sub (scale (sq h) F) d2phi.

(** [def prolong(v2h)]:
[[
    v1h = np.empty( 2*v2h.size-1 )
    v1h[::2] = v2h[:]
    v1h[1::2]= 0.5*(v2h[:-1]+v2h[1:])
    v1h[0],v1h[-1]=v2h[0],v2h[-1]
    return(v1h)
]] *)
Definition prolong (v2h : ndarray T) : result (ndarray T) :=
  v1h <- empty (2 * Z.of_nat (length v2h) - 1) ;;
  v1h <- set_stride2 0 v1h v2h ;;
  s <- np_add (slice 0 1 v2h) (slice 1 0 v2h) ;;
  v1h <- set_stride2 1 v1h (scale half s) ;;
  x0 <- get_first v2h ;;
  xn <- get_last v2h ;;
  v1h <- set_first v1h x0 ;;
  set_last v1h xn.

(** [def restrict(v1h)]:
[[
    t1  = np.roll(v1h,-1)[::2]
    t2  = np.roll(v1h, 0)[::2]
    t3  = np.roll(v1h,+1)[::2]
    v2h = 0.25*(t1+2*t2+t3)
    v2h[0],v2h[-1]=v1h[0],v1h[-1]
    return(v2h)
]] *)
Definition restrict (v1h : ndarray T) : result (ndarray T) :=
  let t1 := stride2 (roll v1h (-1)) in
  let t2 := stride2 (roll v1h 0) in
  let t3 := stride2 (roll v1h 1) in
  s <- np_add t1 (scale (of_int 2) t2) ;;
  s <- np_add s t3 ;;
  let v2h := scale quarter s in
  x0 <- get_first v1h ;;
  xn <- get_last v1h ;;
  v2h <- set_first v2h x0 ;;
  set_last v2h xn.

(** [def vcycle(phi,F,h,Niter=50)], with a budget for the nested calls:
[[
    phi1 = jacobi(phi,F,h,Niter=Niter)
    F1   = F.copy()
    if len(phi1)>3:
        F2   = restrict(residual(phi1,F1,h))
        z2   = np.zeros_like(F2)
        v2   = vcycle(z2,F2/h**2,2*h,Niter=Niter)
        phi1+= prolong(v2)
    phi1 = jacobi(phi1,F1,h,Niter=Niter)
    return(phi1)
]] *)
Fixpoint vcycle_rec (fuel : nat) (phi F : ndarray T) (h : T) (Niter : nat)
  : result (ndarray T) :=
  phi1 <- jacobi phi F h Niter w_default ;;
  let F1 := F in
  phi1 <- (if 3 <? length phi1 then
             match fuel with
             | O => Raise OutOfFuel
             | S fuel' =>
                 r <- residual phi1 F1 h ;;
                 F2 <- restrict r ;;
                 let z2 := zeros_like F2 in
                 v2 <- vcycle_rec fuel' z2 (divide F2 (sq h))
                         (mul (of_int 2) h) Niter ;;
                 p <- prolong v2 ;;
                 iadd phi1 p
             end
           else Ok phi1) ;;
  jacobi phi1 F1 h Niter w_default.

Definition vcycle (phi F : ndarray T) (h : T) (Niter : nat) : result (ndarray T) :=
  vcycle_rec (length phi) phi F h Niter.

(** The default of [vcycle]'s [Niter], used by every call in [fmg_vcycle]. *)
Definition vcycle_Niter_default : nat := 50.

(** The default of [fmg_vcycle]'s [Niter]. *)
Definition fmg_Niter_default : nat := 5.

(** [def fmg_vcycle(F,h,bndry,Niter=5)], with a budget for the nested calls:
[[
    if len(F)>3:
        f2h = restrict(F)
        v2h = fmg_vcycle(f2h,2*h,bndry)
        v1h = prolong(v2h)
    else:
        v1h = np.zeros_like(F)
        v1h[0],v1h[-1]=bndry[0],bndry[1]
    for iter in range(Niter):
        v1h = vcycle(v1h,F,h)
    return(v1h)
]] *)
Fixpoint fmg_vcycle_rec (fuel : nat) (F : ndarray T) (h : T) (bndry : T * T)
  (Niter : nat) : result (ndarray T) :=
  v1h <- (if 3 <? length F then
            match fuel with
            | O => Raise OutOfFuel
            | S fuel' =>
                f2h <- restrict F ;;
                v2h <- fmg_vcycle_rec fuel' f2h (mul (of_int 2) h) bndry
                         fmg_Niter_default ;;
                prolong v2h
            end
          else
            let v1h := zeros_like F in
            v1h <- set_first v1h (fst bndry) ;;
            set_last v1h (snd bndry)) ;;
  for_range Niter (fun v1h => vcycle v1h F h vcycle_Niter_default) v1h.

Definition fmg_vcycle (F : ndarray T) (h : T) (bndry : T * T) (Niter : nat)
  : result (ndarray T) :=
  fmg_vcycle_rec (length F) F h bndry Niter.

End Multigrid.

(** ** The driver *)

Section Driver.
Context {T : Type} {N : Num T}.

(** [a[i]] for [0 <= i] *)
Definition getitem (a : ndarray T) (i : nat) : result T :=
  match nth_error a i with
  | Some x => Ok x
  | None => Raise IndexError
  end.

(** [np.linspace(start, stop, num)] for [num >= 0]: the samples
    [i*step + start] with [step = (stop-start)/(num-1)], the last one set to
    [stop]; no sample for [num = 0]. *)
Definition linspace (start stop : T) (num : nat) : ndarray T :=
  let delta := sub stop start in
  let step := div delta (of_int (Z.of_nat (num - 1))) in
  let y := map (fun i => add (mul (of_int (Z.of_nat i)) step) start) (seq 0 num) in
  match num with
  | O | S O => map (fun i => add (mul (of_int (Z.of_nat i)) delta) start) (seq 0 num)
  | _ => removelast y ++ [stop]
  end.

(** The literal [1e-10] *)
Definition tiny : T := div one (of_int 10000000000).

(** One printed row: index, approximation, exact value, error in percent. *)
Definition row : Type := (nat * T * T * T)%type.

Fixpoint for_each (idx : list nat) (f : nat -> result row) : result (list row) :=
  match idx with
  | [] => Ok []
  | i :: rest => r <- f i ;; rs <- for_each rest f ;; Ok (r :: rs)
  end.

(** [def solve(bndry=[1,0],n=16,Niter=50)]: the rows it prints, for a
    Python integer [n] of either sign.
[[
    xx      = np.linspace(0,1,n+1)
    F       = np.zeros(n+1)
    phi = fmg_vcycle(F,1.0/n,bndry)
    exact = bndry[0] + (bndry[1]-bndry[0])*xx
    for i in range(n+1):
        print(i,phi[i],exact[i],100.*(phi[i]-exact[i])/(exact[i]+1e-10))
]]
    [np.linspace] refuses a negative number of samples with [ValueError];
    with [n + 1 >= 0] the two arrays have [n + 1] entries.  [1.0/n] raises
    [ZeroDivisionError] for [n = 0].  [Niter] is not used by the body. *)
Definition solve (bndry : T * T) (n : Z) (Niter : nat) : result (list row) :=
  if (n + 1 <? 0)%Z then Raise ValueError else
  let num := Z.to_nat (n + 1) in
  let xx := linspace zero one num in
  let F := zeros num in
  h <- (if (n =? 0)%Z then Raise ZeroDivisionError
        else Ok (div one (of_int n))) ;;
  phi <- fmg_vcycle F h bndry fmg_Niter_default ;;
  let exact :=
    map (add (fst bndry)) (scale (sub (snd bndry) (fst bndry)) xx) in
  for_each (seq 0 num) (fun i =>
    p <- getitem phi i ;;
    e <- getitem exact i ;;
    Ok (i, p, e, div (mul (of_int 100) (sub p e)) (add e tiny))).

End Driver.

(** ** Carriers *)

(** IEEE binary64, the arithmetic of numpy's float64.  [of_int] converts an
    integer below [2^63] in size, with one rounding. *)
#[export] Instance Num_binary64 : Num float := {|
  zero := 0%float;
  one := 1%float;
  add := PrimFloat.add;
  sub := PrimFloat.sub;
  mul := PrimFloat.mul;
  div := PrimFloat.div;
  opp := PrimFloat.opp;
  of_int := fun z =>
    if (z <? 0)%Z then PrimFloat.opp (PrimFloat.of_uint63 (Uint63.of_Z (- z)))
    else PrimFloat.of_uint63 (Uint63.of_Z z);
  half := 0.5%float;
  quarter := 0.25%float
|}.

(** Exact rational arithmetic (every finite binary64 value is a rational). *)
#[export] Instance Num_Qc : Num Qc := {|
  zero := 0%Qc;
  one := 1%Qc;
  add := Qcplus;
  sub := Qcminus;
  mul := Qcmult;
  div := Qcdiv;
  opp := Qcopp;
  of_int := fun z => Q2Qc (inject_Z z);
  half := Q2Qc (1 # 2);
  quarter := Q2Qc (1 # 4)
|}.

(** * Properties *)

(** ** The result monad *)

Lemma bind_Ok {A B : Type} (a : A) (k : A -> result B) :
  bind (Ok a) k = k a.
Proof. reflexivity. Qed.

Lemma bind_inv {A B : Type} (r : result A) (k : A -> result B) (b : B) :
  bind r k = Ok b -> exists a, r = Ok a /\ k a = Ok b.
Proof.
  destruct r as [a | e]; simpl; intros H.
  - exists a. split; [reflexivity | exact H].
  - discriminate H.
Qed.

Lemma for_range_plus {S : Type} (body : S -> result S) (n m : nat) (s : S) :
  for_range (n + m) body s = bind (for_range n body s) (for_range m body).
Proof.
  revert s. induction n as [| n IH]; intros s; simpl.
  - reflexivity.
  - destruct (body s) as [s' | e]; simpl; [apply IH | reflexivity].
Qed.

(** A loop whose body keeps an invariant and never raises returns a state
    that satisfies the invariant. *)
Lemma for_range_invariant {S : Type} (P : S -> Prop) (body : S -> result S) :
  (forall s, P s -> exists s', body s = Ok s' /\ P s') ->
  forall n s, P s -> exists s', for_range n body s = Ok s' /\ P s'.
Proof.
  intros Hbody n. induction n as [| n IH]; intros s Hs; simpl.
  - exists s. split; [reflexivity | exact Hs].
  - destruct (Hbody s Hs) as (s1 & -> & Hs1). simpl. apply IH. exact Hs1.
Qed.

(** ** numpy primitives *)

Section NumpyFacts.
Context {T : Type} {N : Num T}.

Implicit Types a b rhs : ndarray T.

Lemma zeros_length n : length (@zeros T N n) = n.
Proof. apply repeat_length. Qed.

Lemma zeros_nth n i : nth i (@zeros T N n) zero = zero.
Proof.
  unfold zeros. revert i. induction n as [| n IH]; intros [| i]; simpl; auto.
Qed.

Lemma zip_with_length f a b :
  length (zip_with f a b) = Nat.min (length a) (length b).
Proof.
  revert b. induction a as [| x a IH]; intros [| y b]; simpl; auto.
Qed.

Lemma zip_with_nth f a b i d :
  i < length a -> i < length b ->
  nth i (zip_with f a b) d = f (nth i a d) (nth i b d).
Proof.
  revert b i. induction a as [| x a IH]; intros [| y b] [| i]; simpl;
    intros Ha Hb; try lia; auto.
  apply IH; lia.
Qed.

Lemma elementwise_same f a b :
  length a = length b -> elementwise f a b = Ok (zip_with f a b).
Proof.
  intros H. unfold elementwise. rewrite H, Nat.eqb_refl. reflexivity.
Qed.

Lemma scale_length c a : length (scale c a) = length a.
Proof. apply length_map. Qed.

Lemma scale_nth c a i : i < length a -> nth i (scale c a) zero = mul c (nth i a zero).
Proof.
  intros H. unfold scale.
  rewrite (nth_indep _ zero (mul c zero)) by (rewrite length_map; exact H).
  apply map_nth.
Qed.

Lemma negate_length a : length (negate a) = length a.
Proof. apply length_map. Qed.

Lemma negate_nth a i : i < length a -> nth i (negate a) zero = opp (nth i a zero).
Proof.
  intros H. unfold negate.
  rewrite (nth_indep _ zero (opp zero)) by (rewrite length_map; exact H).
  apply map_nth.
Qed.

Lemma divide_length a c : length (divide a c) = length a.
Proof. apply length_map. Qed.

Lemma slice_length lo hi a : length (slice lo hi a) = length a - hi - lo.
Proof.
  unfold slice. rewrite length_firstn, length_skipn. lia.
Qed.

Lemma slice_nth lo hi a i d :
  i < length a - hi - lo -> nth i (slice lo hi a) d = nth (lo + i) a d.
Proof.
  intros H. unfold slice.
  rewrite nth_firstn.
  destruct (Nat.ltb_spec i (length a - hi - lo)) as [_ | Hge]; [| lia].
  rewrite nth_skipn. reflexivity.
Qed.

Lemma broadcast_to_same n rhs : length rhs = n -> broadcast_to n rhs = Ok rhs.
Proof.
  intros H. unfold broadcast_to. rewrite H, Nat.eqb_refl. reflexivity.
Qed.

Lemma nth_cons_S (x : T) (l : list T) i d : nth (S i) (x :: l) d = nth i l d.
Proof. reflexivity. Qed.

Lemma set_slice_interior a rhs :
  length rhs = length a - 2 ->
  exists r, set_slice 1 1 a rhs = Ok r /\
    length r = length a /\
    nth 0 r zero = nth 0 a zero /\
    nth (length a - 1) r zero = nth (length a - 1) a zero /\
    forall i, i < length rhs -> nth (S i) r zero = nth i rhs zero.
Proof.
  intros Hlen. unfold set_slice.
  rewrite slice_length.
  replace (length a - 1 - 1) with (length a - 2) by lia.
  rewrite (broadcast_to_same _ _ Hlen). simpl bind.
  eexists. split; [reflexivity |].
  destruct a as [| x [| y rest]].
  - destruct rhs; [| discriminate Hlen]. simpl. repeat split; auto; intros; lia.
  - destruct rhs; [| discriminate Hlen]. simpl. repeat split; auto; intros; lia.
  - cbn [length] in *.
    replace (S (S (length rest)) - 2) with (length rest) in * by lia.
    replace (S (S (length rest)) - 1) with (S (length rest)) by lia.
    cbn [firstn skipn Nat.add app].
    repeat split.
    + cbn [length]. rewrite length_app, length_skipn. cbn [length]. lia.
    + rewrite !nth_cons_S. rewrite app_nth2 by lia.
      rewrite Hlen, Nat.sub_diag.
      rewrite nth_skipn. f_equal. lia.
    + intros i Hi. cbn [nth]. apply app_nth1. exact Hi.
Qed.

Lemma stride2_length a : length (stride2 a) = (length a + 1) / 2.
Proof.
  assert (H : forall n a, length a <= n -> length (stride2 a) = (length a + 1) / 2).
  { intros n. induction n as [| n IH]; intros l Hl.
    - destruct l; [reflexivity | simpl in Hl; lia].
    - destruct l as [| x [| y rest]]; try reflexivity.
      cbn [stride2 length]. rewrite IH by (simpl in Hl; lia).
      replace (S (S (length rest)) + 1) with (length rest + 1 + 1 * 2) by lia.
      rewrite Nat.div_add by lia. lia. }
  apply (H (length a)). lia.
Qed.

Lemma stride2_nth a i d : nth i (stride2 a) d = nth (2 * i) a d.
Proof.
  assert (H : forall n a i, length a <= n -> nth i (stride2 a) d = nth (2 * i) a d).
  { intros n. induction n as [| n IH]; intros l j Hl.
    - destruct l; [destruct j; reflexivity | simpl in Hl; lia].
    - destruct l as [| x [| y rest]].
      + destruct j; reflexivity.
      + destruct j as [| j]; [reflexivity |].
        cbn [stride2]. replace (2 * S j) with (S (S (2 * j))) by lia.
        rewrite !nth_cons_S. destruct j; reflexivity.
      + destruct j as [| j]; [reflexivity |].
        cbn [stride2]. replace (2 * S j) with (S (S (2 * j))) by lia.
        cbn [nth]. apply IH. simpl in Hl. lia. }
  apply (H (length a)). lia.
Qed.

Lemma roll_0 a : roll a 0 = a.
Proof.
  destruct a as [| x rest]; [reflexivity |].
  unfold roll. rewrite Z.mod_0_l by (simpl length; lia).
  simpl Z.to_nat. rewrite Nat.sub_0_r, skipn_all, firstn_all. reflexivity.
Qed.

Lemma roll_minus_1 (x : T) (rest : ndarray T) :
  roll (x :: rest) (-1) = rest ++ [x].
Proof.
  unfold roll.
  assert (Hm : ((-1) mod Z.of_nat (length (x :: rest)) = Z.of_nat (length rest))%Z).
  { symmetry. apply (Z.mod_unique _ _ (-1)%Z).
    - left. simpl length. lia.
    - simpl length. lia. }
  rewrite Hm, Nat2Z.id.
  replace (length (x :: rest) - length rest) with 1 by (cbn [length]; lia).
  reflexivity.
Qed.

Lemma skipn_pred_length a d :
  a <> [] -> skipn (length a - 1) a = [last a d].
Proof.
  intros Hne.
  rewrite (app_removelast_last d Hne) at 2.
  assert (Hl : length (removelast a) = length a - 1).
  { rewrite (app_removelast_last d Hne) at 2. rewrite length_app. simpl. lia. }
  rewrite <- Hl. rewrite skipn_app, skipn_all, Nat.sub_diag. reflexivity.
Qed.

Lemma roll_plus_1 a d : a <> [] -> roll a 1 = last a d :: removelast a.
Proof.
  intros Hne. destruct a as [| x rest]; [contradiction |].
  unfold roll.
  destruct rest as [| y rest].
  - reflexivity.
  - rewrite Z.mod_1_l by (simpl length; lia).
    change (Z.to_nat 1) with 1.
    rewrite (skipn_pred_length _ d Hne).
    rewrite removelast_firstn_len. reflexivity.
Qed.

Lemma removelast_length a : length (removelast a) = length a - 1.
Proof.
  rewrite removelast_firstn_len, length_firstn. lia.
Qed.

Lemma removelast_nth a i d : i < length a - 1 -> nth i (removelast a) d = nth i a d.
Proof.
  intros H. rewrite removelast_firstn_len, nth_firstn.
  destruct (Nat.ltb_spec i (Nat.pred (length a))); [reflexivity | lia].
Qed.

Lemma last_nth a d : last a d = nth (length a - 1) a d.
Proof.
  induction a as [| x [| y rest] IH]; try reflexivity.
  change (last (x :: y :: rest) d) with (last (y :: rest) d).
  rewrite IH. simpl. rewrite Nat.sub_0_r. reflexivity.
Qed.

Lemma write_stride2_length a rhs : length (write_stride2 a rhs) = length a.
Proof.
  assert (H : forall n a rhs, length a <= n ->
                length (write_stride2 a rhs) = length a).
  { intros n. induction n as [| n IH]; intros l r Hl.
    - destruct l; [destruct r; reflexivity | simpl in Hl; lia].
    - destruct l as [| x [| y rest]]; destruct r as [| r0 rs]; try reflexivity.
      cbn [write_stride2 length]. rewrite IH by (simpl in Hl; lia). reflexivity. }
  apply (H (length a)). lia.
Qed.

Lemma write_stride2_even a rhs i d :
  i < length rhs -> 2 * i < length a ->
  nth (2 * i) (write_stride2 a rhs) d = nth i rhs d.
Proof.
  assert (H : forall n a rhs i, length a <= n -> i < length rhs ->
                2 * i < length a ->
                nth (2 * i) (write_stride2 a rhs) d = nth i rhs d).
  { intros n. induction n as [| n IH]; intros l r j Hl Hj Hj2.
    - destruct l; simpl in *; lia.
    - destruct l as [| x [| y rest]]; destruct r as [| r0 rs];
        cbn [length] in *; try lia.
      + destruct j; [reflexivity | lia].
      + destruct j as [| j]; [reflexivity |].
        cbn [write_stride2]. replace (2 * S j) with (S (S (2 * j))) by lia.
        rewrite !nth_cons_S. apply IH; lia. }
  apply (H (length a)). lia.
Qed.

Lemma write_stride2_odd a rhs i d :
  nth (2 * i + 1) (write_stride2 a rhs) d = nth (2 * i + 1) a d.
Proof.
  assert (H : forall n a rhs i, length a <= n ->
                nth (2 * i + 1) (write_stride2 a rhs) d = nth (2 * i + 1) a d).
  { intros n. induction n as [| n IH]; intros l r j Hl.
    - destruct l; [destruct r; reflexivity | simpl in Hl; lia].
    - destruct l as [| x [| y rest]]; destruct r as [| r0 rs]; try reflexivity.
      + replace (2 * j + 1) with (S (2 * j)) by lia. cbn [write_stride2].
        rewrite !nth_cons_S. destruct (2 * j); reflexivity.
      + cbn [write_stride2]. destruct j as [| j]; [reflexivity |].
        replace (2 * S j + 1) with (S (S (2 * j + 1))) by lia.
        rewrite !nth_cons_S. apply IH. simpl in Hl. lia. }
  apply (H (length a)). lia.
Qed.

Lemma set_stride2_0 a rhs :
  length rhs = (length a + 1) / 2 ->
  set_stride2 0 a rhs = Ok (write_stride2 a rhs).
Proof.
  intros H. unfold set_stride2. cbn [skipn firstn app].
  rewrite stride2_length, (broadcast_to_same _ _ H). reflexivity.
Qed.

Lemma set_stride2_1 (x : T) a rhs :
  length rhs = (length a + 1) / 2 ->
  set_stride2 1 (x :: a) rhs = Ok (x :: write_stride2 a rhs).
Proof.
  intros H. unfold set_stride2. cbn [skipn firstn app].
  rewrite stride2_length, (broadcast_to_same _ _ H). reflexivity.
Qed.

Lemma get_first_nth a : a <> [] -> get_first a = Ok (nth 0 a zero).
Proof. destruct a; [contradiction | reflexivity]. Qed.

Lemma get_last_nth a : a <> [] -> get_last a = Ok (nth (length a - 1) a zero).
Proof.
  destruct a as [| x rest]; [contradiction |]. intros _.
  unfold get_last. rewrite last_nth. reflexivity.
Qed.

Lemma set_first_spec a v :
  a <> [] ->
  exists r, set_first a v = Ok r /\ length r = length a /\
    nth 0 r zero = v /\ forall i, nth (S i) r zero = nth (S i) a zero.
Proof.
  destruct a as [| x rest]; [contradiction |]. intros _.
  exists (v :: rest). repeat split.
Qed.

Lemma set_last_spec a v :
  a <> [] ->
  exists r, set_last a v = Ok r /\ length r = length a /\
    nth (length a - 1) r zero = v /\
    forall i, i < length a - 1 -> nth i r zero = nth i a zero.
Proof.
  intros Hne.
  exists (removelast a ++ [v]).
  assert (Hl : length (removelast a) = length a - 1) by apply removelast_length.
  assert (Hpos : 0 < length a) by (destruct a; [contradiction | simpl; lia]).
  repeat split.
  - destruct a; [contradiction | reflexivity].
  - rewrite length_app, Hl. simpl. lia.
  - rewrite app_nth2 by lia. rewrite Hl, Nat.sub_diag. reflexivity.
  - intros i Hi. rewrite app_nth1 by lia. apply removelast_nth. exact Hi.
Qed.

Lemma nonempty_length a : 0 < length a -> a <> [].
Proof. destruct a; simpl; [lia | discriminate]. Qed.

Lemma roll_length a z : length (roll a z) = length a.
Proof.
  destruct a as [| x rest]; [reflexivity |].
  unfold roll. rewrite length_app, length_skipn, length_firstn.
  set (L := length (x :: rest)).
  assert (Hs : Z.to_nat (z mod Z.of_nat L) < L).
  { assert (0 <= z mod Z.of_nat L < Z.of_nat L)%Z
      by (apply Z.mod_pos_bound; subst L; simpl length; lia).
    lia. }
  lia.
Qed.

End NumpyFacts.

Create Rewrite HintDb np_len.
#[export] Hint Rewrite @zeros_length @zip_with_length @scale_length
  @negate_length @divide_length @slice_length @stride2_length @roll_length
  @write_stride2_length @removelast_length : np_len.

Ltac np_len := autorewrite with np_len; try lia.

(** ** The smoother and the residual, entry by entry *)

Section KernelFacts.
Context {T : Type} {N : Num T}.

Implicit Types phi phistar F : ndarray T.

(** The entry the loop body of [jacobi] writes to [phistar] at an interior
    index [j]. *)
Definition trial (F : ndarray T) (h : T) (phi : ndarray T) (j : nat) : T :=
  mul half (add (add (nth (j - 1) phi zero) (nth (j + 1) phi zero))
                (mul (sq h) (nth j F zero))).

Definition blend (w x y : T) : T := add (mul (sub one w) x) (mul w y).

Lemma jacobi_body_spec F h w phi phistar :
  length phi = length F -> length phistar = length F ->
  exists phi' phistar',
    jacobi_body F h w (phi, phistar) = Ok (phi', phistar') /\
    length phi' = length F /\ length phistar' = length F /\
    nth 0 phistar' zero = nth 0 phistar zero /\
    nth (length F - 1) phistar' zero = nth (length F - 1) phistar zero /\
    (forall j, 0 < j < length F - 1 ->
       nth j phistar' zero = trial F h phi j) /\
    (forall j, j < length F ->
       nth j phi' zero = blend w (nth j phi zero) (nth j phistar' zero)).
Proof.
  intros Hphi Hstar. unfold jacobi_body, np_add.
  rewrite elementwise_same by np_len. cbn [bind].
  rewrite elementwise_same by np_len. cbn [bind].
  set (rhs := scale half _).
  assert (Hrhs : length rhs = length phistar - 2) by (subst rhs; np_len).
  destruct (set_slice_interior phistar rhs Hrhs)
    as (ps & -> & Hlen & H0 & Hn & Hin). cbn [bind].
  rewrite elementwise_same by np_len. cbn [bind].
  exists (zip_with add (scale (sub one w) phi) (scale w ps)), ps.
  split; [reflexivity |].
  split; [np_len |]. split; [lia |].
  split; [exact H0 |]. split; [rewrite <- Hstar; exact Hn |].
  split.
  - intros j Hj. destruct j as [| j]; [lia |].
    rewrite Hin by lia. subst rhs.
    rewrite scale_nth by np_len. 
    rewrite zip_with_nth by np_len.
    rewrite zip_with_nth by np_len.
    rewrite scale_nth by np_len.
    rewrite !slice_nth by lia.
    unfold trial.
    replace (S j - 1) with (0 + j) by lia.
    replace (S j + 1) with (2 + j) by lia.
    reflexivity.
  - intros j Hj.
    rewrite zip_with_nth by np_len.
    rewrite !scale_nth by lia. reflexivity.
Qed.

(** [tabulate n f] is the array [f 0, ..., f (n-1)]. *)
Definition tabulate (n : nat) (f : nat -> T) : ndarray T := map f (seq 0 n).

Lemma tabulate_length n f : length (tabulate n f) = n.
Proof. unfold tabulate. rewrite length_map, length_seq. reflexivity. Qed.

Lemma tabulate_nth n f j : j < n -> nth j (tabulate n f) zero = f j.
Proof.
  intros H. unfold tabulate.
  rewrite (nth_indep _ zero (f 0)) by (rewrite length_map, length_seq; exact H).
  rewrite map_nth, seq_nth by exact H. reflexivity.
Qed.

Lemma tabulate_ext a n f :
  length a = n -> (forall j, j < n -> nth j a zero = f j) -> a = tabulate n f.
Proof.
  intros Hlen H. apply (nth_ext _ _ zero zero).
  - rewrite tabulate_length. exact Hlen.
  - intros j Hj. rewrite tabulate_nth by lia. apply H. lia.
Qed.

Definition interior (n j : nat) : bool := (0 <? j) && (j <? n - 1).

Lemma interior_true n j : interior n j = true <-> 0 < j < n - 1.
Proof.
  unfold interior. rewrite andb_true_iff, !Nat.ltb_lt. reflexivity.
Qed.

(** What one pass of the loop body does to [phi], when the two end entries
    of [phistar] are [b0] and [bn]: every entry, the two ends included, is
    blended with the matching entry of [phistar]. *)
Definition sweep (F : ndarray T) (h w b0 bn : T) (phi : ndarray T)
  : ndarray T :=
  tabulate (length phi) (fun j =>
    blend w (nth j phi zero)
      (if interior (length phi) j then trial F h phi j
       else if j =? 0 then b0 else bn)).

Lemma sweep_length F h w b0 bn phi :
  length (sweep F h w b0 bn phi) = length phi.
Proof. apply tabulate_length. Qed.

Lemma jacobi_body_sweep F h w phi phistar :
  length phi = length F -> length phistar = length F ->
  exists phistar',
    jacobi_body F h w (phi, phistar) =
      Ok (sweep F h w (nth 0 phistar zero) (nth (length F - 1) phistar zero) phi,
          phistar') /\
    length phistar' = length F /\
    nth 0 phistar' zero = nth 0 phistar zero /\
    nth (length F - 1) phistar' zero = nth (length F - 1) phistar zero.
Proof.
  intros Hphi Hstar.
  destruct (jacobi_body_spec F h w phi phistar Hphi Hstar)
    as (phi' & ps' & Heq & Hl1 & Hl2 & H0 & Hn & Hin & Hblend).
  exists ps'. rewrite Heq. repeat split; auto.
  do 2 f_equal. unfold sweep. apply tabulate_ext; [lia |].
  intros j Hj. rewrite Hblend by lia. f_equal.
  destruct (interior (length phi) j) eqn:Hint.
  - apply Hin. apply interior_true in Hint. lia.
  - destruct (Nat.eqb_spec j 0) as [-> | Hj0]; [exact H0 |].
    assert (j = length F - 1).
    { destruct (Nat.lt_ge_cases j (length phi - 1)) as [Hlt | Hge]; [| lia].
      assert (interior (length phi) j = true) by (apply interior_true; lia).
      congruence. }
    subst j. exact Hn.
Qed.

(** [jacobi] in closed form, for every carrier: [Niter] passes of [sweep],
    the ends of [phistar] being those of the input. *)
Lemma jacobi_closed_form phi F h Niter w :
  length phi = length F ->
  jacobi phi F h Niter w =
    Ok (Nat.iter Niter
          (sweep F h w (nth 0 phi zero) (nth (length F - 1) phi zero)) phi).
Proof.
  intros Hphi. unfold jacobi.
  set (b0 := nth 0 phi zero). set (bn := nth (length F - 1) phi zero).
  assert (H : forall k p ps,
    length p = length F -> length ps = length F ->
    nth 0 ps zero = b0 -> nth (length F - 1) ps zero = bn ->
    exists ps',
      for_range k (jacobi_body F h w) (p, ps) =
        Ok (Nat.iter k (sweep F h w b0 bn) p, ps')).
  { induction k as [| k IH]; intros p ps Hp Hps H0 Hn.
    - exists ps. reflexivity.
    - destruct (jacobi_body_sweep F h w p ps Hp Hps)
        as (ps' & Hb & Hl & H0' & Hn').
      rewrite H0, Hn in Hb.
      destruct (IH (sweep F h w b0 bn p) ps') as (ps'' & Hloop).
      + rewrite sweep_length. exact Hp.
      + exact Hl.
      + congruence.
      + congruence.
      + exists ps''. cbn [for_range]. rewrite Hb. cbn [bind].
        rewrite Hloop, Nat.iter_succ_r. reflexivity. }
  destruct (H Niter phi phi Hphi Hphi eq_refl eq_refl) as (ps' & ->).
  reflexivity.
Qed.

Lemma iter_sweep_length F h w b0 bn k phi :
  length (Nat.iter k (sweep F h w b0 bn) phi) = length phi.
Proof.
  induction k as [| k IH]; [reflexivity |].
  rewrite Nat.iter_succ, sweep_length. exact IH.
Qed.

(** The entry of [d2phi] in [residual]. *)
Definition d2 (phi : ndarray T) (j : nat) : T :=
  if interior (length phi) j
  then add (sub (opp (nth (j - 1) phi zero)) (nth (j + 1) phi zero))
           (mul (of_int 2) (nth j phi zero))
  else zero.

Lemma residual_closed_form phi F h :
  length phi = length F ->
  residual phi F h =
    Ok (tabulate (length F) (fun j =>
          sub (mul (sq h) (nth j F zero)) (d2 phi j))).
Proof.
  intros Hphi. unfold residual, np_sub, np_add.
  rewrite elementwise_same by np_len. cbn [bind].
  rewrite elementwise_same by np_len. cbn [bind].
  set (rhs := zip_with add _ _).
  assert (Hrhs : length rhs = length (zeros_like phi) - 2)
    by (subst rhs; unfold zeros_like; np_len).
  destruct (set_slice_interior (zeros_like phi) rhs Hrhs)
    as (d & -> & Hlen & H0 & Hn & Hin). cbn [bind].
  unfold zeros_like in Hlen, H0, Hn, Hrhs. rewrite zeros_length in Hlen, Hn, Hrhs.
  rewrite zeros_nth in H0, Hn.
  rewrite elementwise_same by np_len. f_equal.
  apply tabulate_ext; [np_len |].
  intros j Hj. rewrite zip_with_nth by np_len.
  rewrite scale_nth by lia. f_equal.
  unfold d2. destruct (interior (length phi) j) eqn:Hint.
  - apply interior_true in Hint. destruct j as [| j]; [lia |].
    assert (Hjr : j < length rhs) by lia.
    rewrite (Hin j Hjr). subst rhs.
    rewrite zip_with_nth by np_len.
    rewrite zip_with_nth by np_len.
    rewrite negate_nth by np_len.
    rewrite scale_nth by np_len.
    rewrite !slice_nth by lia.
    replace (S j - 1) with (0 + j) by lia.
    replace (S j + 1) with (2 + j) by lia.
    reflexivity.
  - destruct (Nat.eqb_spec j 0) as [-> | Hj0]; [exact H0 |].
    assert (j = length phi - 1).
    { destruct (Nat.lt_ge_cases j (length phi - 1)) as [Hlt | Hge]; [| lia].
      assert (interior (length phi) j = true) by (apply interior_true; lia).
      congruence. }
    subst j. exact Hn.
Qed.

End KernelFacts.

(** ** The grid transfers, entry by entry *)

Section TransferFacts.
Context {T : Type} {N : Num T}.

Implicit Types v : ndarray T.

(** Entry [i] of [prolong v]. *)
Definition prolong_entry (v : ndarray T) (i : nat) : T :=
  if i mod 2 =? 0 then nth (i / 2) v zero
  else mul half (add (nth (i / 2) v zero) (nth (i / 2 + 1) v zero)).

(** Entry [j] of [restrict v]; the last entry is written last. *)
Definition restrict_entry (v : ndarray T) (j : nat) : T :=
  if j =? (length v + 1) / 2 - 1 then nth (length v - 1) v zero
  else if j =? 0 then nth 0 v zero
  else mul quarter
         (add (add (nth (2 * j + 1) v zero)
                   (mul (of_int 2) (nth (2 * j) v zero)))
              (nth (2 * j - 1) v zero)).

Lemma prolong_closed_form v :
  v <> [] ->
  prolong v = Ok (tabulate (2 * length v - 1) (prolong_entry v)).
Proof.
  intros Hne.
  assert (Hpos : 0 < length v) by (destruct v; [contradiction | simpl; lia]).
  unfold prolong, empty.
  destruct (Z.ltb_spec (2 * Z.of_nat (length v) - 1) 0) as [Hneg | _]; [lia |].
  replace (Z.to_nat (2 * Z.of_nat (length v) - 1)) with (2 * length v - 1) by lia.
  cbn [bind].
  rewrite set_stride2_0 by (rewrite zeros_length;
    replace (2 * length v - 1 + 1) with (length v * 2) by lia;
    rewrite Nat.div_mul; lia).
  cbn [bind]. unfold np_add.
  rewrite elementwise_same by np_len. cbn [bind].
  set (w1 := write_stride2 (zeros (2 * length v - 1)) v).
  set (mids := scale half (zip_with add (slice 0 1 v) (slice 1 0 v))).
  assert (Hw1 : length w1 = 2 * length v - 1) by (subst w1; np_len).
  assert (Hmids : length mids = length v - 1) by (subst mids; np_len).
  destruct w1 as [| y w1'] eqn:Ew1; [simpl in Hw1; lia |].
  cbn [length] in Hw1.
  rewrite set_stride2_1 by
    (rewrite Hmids; replace (length w1' + 1) with (1 + (length v - 1) * 2) by lia;
     rewrite Nat.div_add by lia; reflexivity).
  cbn [bind].
  rewrite (get_first_nth _ Hne), (get_last_nth _ Hne). cbn [bind].
  cbn [set_first bind].
  set (r1 := nth 0 v zero :: write_stride2 w1' mids).
  assert (Hr1 : length r1 = 2 * length v - 1).
  { subst r1. cbn [length]. rewrite write_stride2_length. lia. }
  destruct (set_last_spec r1 (nth (length v - 1) v zero))
    as (r & Hr & Hlen & Hlast & Hkeep).
  { subst r1. discriminate. }
  rewrite Hr. f_equal.
  apply tabulate_ext; [lia |].
  intros i Hi. unfold prolong_entry.
  pose proof (Nat.div_mod_eq i 2) as Hdm.
  pose proof (Nat.mod_upper_bound i 2 ltac:(lia)) as Hmod.
  destruct (Nat.eq_dec i (length r1 - 1)) as [-> | Hnl].
  - rewrite Hlast, Hr1.
    replace ((2 * length v - 1 - 1) mod 2) with 0.
    2:{ replace (2 * length v - 1 - 1) with ((length v - 1) * 2) by lia.
        rewrite Nat.Div0.mod_mul. reflexivity. }
    cbn [Nat.eqb]. f_equal.
    replace (2 * length v - 1 - 1) with ((length v - 1) * 2) by lia.
    rewrite Nat.div_mul by lia. reflexivity.
  - rewrite Hkeep by lia. subst r1.
    destruct i as [| i'].
    + reflexivity.
    + rewrite nth_cons_S.
      destruct (Nat.eqb_spec (S i' mod 2) 0) as [Hev | Hod].
      * (* even index 2k, k >= 1 *)
        replace i' with (2 * (S i' / 2 - 1) + 1) at 1 by lia.
        rewrite write_stride2_odd.
        replace (2 * (S i' / 2 - 1) + 1) with i' by lia.
        rewrite <- (nth_cons_S y w1' i' zero), <- Ew1.
        replace (S i') with (2 * (S i' / 2)) at 1 by lia.
        subst w1. apply write_stride2_even; np_len.
      * (* odd index 2k+1 *)
        replace i' with (2 * (S i' / 2)) at 1 by lia.
        rewrite write_stride2_even by lia.
        subst mids. rewrite scale_nth by np_len.
        rewrite zip_with_nth by np_len.
        rewrite !slice_nth by lia.
        replace (1 + S i' / 2) with (S i' / 2 + 1) by lia. reflexivity.
Qed.

Lemma restrict_closed_form v :
  v <> [] ->
  restrict v = Ok (tabulate ((length v + 1) / 2) (restrict_entry v)).
Proof.
  intros Hne.
  assert (Hpos : 0 < length v) by (destruct v; [contradiction | simpl; lia]).
  unfold restrict, np_add.
  rewrite elementwise_same by np_len. cbn [bind].
  rewrite elementwise_same by np_len. cbn [bind].
  rewrite (get_first_nth _ Hne), (get_last_nth _ Hne). cbn [bind].
  set (s := scale quarter _).
  assert (Hs : length s = (length v + 1) / 2) by (subst s; np_len).
  assert (HM : 0 < (length v + 1) / 2).
  { apply Nat.div_str_pos. lia. }
  destruct (set_first_spec s (nth 0 v zero)) as (r1 & Hr1 & Hl1 & H10 & H1S).
  { apply nonempty_length. lia. }
  rewrite Hr1. cbn [bind].
  destruct (set_last_spec r1 (nth (length v - 1) v zero))
    as (r & Hr & Hlen & Hlast & Hkeep).
  { apply nonempty_length. lia. }
  rewrite Hr. f_equal.
  apply tabulate_ext; [lia |].
  intros j Hj. unfold restrict_entry.
  destruct (Nat.eqb_spec j ((length v + 1) / 2 - 1)) as [-> | Hnl].
  - rewrite <- Hs, <- Hl1. exact Hlast.
  - rewrite Hkeep by lia.
    destruct j as [| j']; [exact H10 |].
    cbn [Nat.eqb]. rewrite H1S. subst s.
    pose proof (Nat.div_mod_eq (length v + 1) 2) as Hdm.
    pose proof (Nat.mod_upper_bound (length v + 1) 2 ltac:(lia)) as Hmod.
    rewrite scale_nth by np_len.
    rewrite zip_with_nth by np_len.
    rewrite zip_with_nth by np_len.
    rewrite scale_nth by np_len.
    rewrite !stride2_nth, roll_0.
    destruct v as [| x rest]; [contradiction |].
    rewrite roll_minus_1, (roll_plus_1 _ zero Hne).
    cbn [length] in *.
    rewrite app_nth1 by lia.
    replace (2 * S j') with (S (2 * S j' - 1)) at 3 by lia.
    rewrite nth_cons_S, removelast_nth by (cbn [length]; lia).
    replace (2 * S j' + 1) with (S (2 * S j')) by lia.
    rewrite nth_cons_S. reflexivity.
Qed.

Lemma prolong_length v r : prolong v = Ok r -> length r = 2 * length v - 1.
Proof.
  destruct v as [| x rest] eqn:E; [discriminate |].
  rewrite prolong_closed_form by discriminate.
  intros H. injection H as <-. apply tabulate_length.
Qed.

Lemma restrict_length v r : restrict v = Ok r -> length r = (length v + 1) / 2.
Proof.
  destruct v as [| x rest] eqn:E; [discriminate |].
  rewrite restrict_closed_form by discriminate.
  intros H. injection H as <-. apply tabulate_length.
Qed.

End TransferFacts.

(** ** Closed forms on grids of [2^k + 1] points *)

(** The functions return [Ok] on every grid whose length is [2^k + 1] with
    [k >= 1], and the value is given by the following total functions.  The
    index [l] counts the coarser levels below the grid: a grid of
    [2^(l+1) + 1] points has [l] of them. *)

Section ClosedForms.
Context {T : Type} {N : Num T}.

Definition jacobi_cf (phi F : ndarray T) (h : T) (Niter : nat) (w : T)
  : ndarray T :=
  Nat.iter Niter
    (sweep F h w (nth 0 phi zero) (nth (length F - 1) phi zero)) phi.

Definition residual_cf (phi F : ndarray T) (h : T) : ndarray T :=
  tabulate (length F) (fun j => sub (mul (sq h) (nth j F zero)) (d2 phi j)).

Definition prolong_cf (v : ndarray T) : ndarray T :=
  tabulate (2 * length v - 1) (prolong_entry v).

Definition restrict_cf (v : ndarray T) : ndarray T :=
  tabulate ((length v + 1) / 2) (restrict_entry v).

Fixpoint vcycle_cf (l : nat) (phi F : ndarray T) (h : T) (Niter : nat)
  : ndarray T :=
  let phi1 := jacobi_cf phi F h Niter w_default in
  let phi1 :=
    match l with
    | O => phi1
    | S l' =>
        let F2 := restrict_cf (residual_cf phi1 F h) in
        let v2 := vcycle_cf l' (zeros_like F2) (divide F2 (sq h))
                    (mul (of_int 2) h) Niter in
        zip_with add phi1 (prolong_cf v2)
    end in
  jacobi_cf phi1 F h Niter w_default.

(** The start of the coarsest level: zero, except at the two ends. *)
Definition fmg_init (F : ndarray T) (bndry : T * T) : ndarray T :=
  tabulate (length F) (fun j =>
    if j =? length F - 1 then snd bndry
    else if j =? 0 then fst bndry else zero).

Fixpoint fmg_cf (l : nat) (F : ndarray T) (h : T) (bndry : T * T)
  (Niter : nat) : ndarray T :=
  let v1h :=
    match l with
    | O => fmg_init F bndry
    | S l' =>
        prolong_cf (fmg_cf l' (restrict_cf F) (mul (of_int 2) h) bndry
                      fmg_Niter_default)
    end in
  Nat.iter Niter (fun v => vcycle_cf l v F h vcycle_Niter_default) v1h.

Lemma jacobi_cf_length phi F h k w :
  length (jacobi_cf phi F h k w) = length phi.
Proof. apply iter_sweep_length. Qed.

Lemma residual_cf_length phi F h : length (residual_cf phi F h) = length F.
Proof. apply tabulate_length. Qed.

Lemma prolong_cf_length v : length (prolong_cf v) = 2 * length v - 1.
Proof. apply tabulate_length. Qed.

Lemma restrict_cf_length v : length (restrict_cf v) = (length v + 1) / 2.
Proof. apply tabulate_length. Qed.

Lemma pow2_pos k : 0 < 2 ^ k.
Proof. induction k; simpl; lia. Qed.

Lemma half_grid l : (2 ^ S (S l) + 1 + 1) / 2 = 2 ^ S l + 1.
Proof.
  replace (2 ^ S (S l) + 1 + 1) with ((2 ^ S l + 1) * 2)
    by (rewrite (Nat.pow_succ_r' 2 (S l)); lia).
  apply Nat.div_mul. lia.
Qed.

Lemma vcycle_cf_length l : forall phi F h Niter,
  length phi = 2 ^ S l + 1 -> length F = 2 ^ S l + 1 ->
  length (vcycle_cf l phi F h Niter) = 2 ^ S l + 1.
Proof.
  induction l as [| l IH]; intros phi F h Niter Hphi HF; cbn [vcycle_cf].
  - rewrite !jacobi_cf_length. exact Hphi.
  - rewrite jacobi_cf_length, zip_with_length, jacobi_cf_length,
      prolong_cf_length.
    rewrite IH.
    + rewrite Hphi. pose proof (pow2_pos (S l)).
      rewrite (Nat.pow_succ_r' 2 (S l)). lia.
    + unfold zeros_like. rewrite zeros_length, restrict_cf_length,
        residual_cf_length, HF. apply half_grid.
    + rewrite divide_length, restrict_cf_length, residual_cf_length, HF.
      apply half_grid.
Qed.

Lemma iadd_same (a b : ndarray T) :
  length b = length a -> iadd a b = Ok (zip_with add a b).
Proof.
  intros H. unfold iadd. rewrite (broadcast_to_same _ _ H). reflexivity.
Qed.

(** On a grid of [2^(l+1) + 1] points [vcycle] nests [l] calls and returns
    [vcycle_cf]. *)
Lemma vcycle_rec_cf l : forall fuel phi F h Niter,
  length phi = 2 ^ S l + 1 -> length F = 2 ^ S l + 1 -> l <= fuel ->
  vcycle_rec fuel phi F h Niter = Ok (vcycle_cf l phi F h Niter).
Proof.
  induction l as [| l IH]; intros fuel phi F h Niter Hphi HF Hfuel.
  - assert (Hb : (3 <? length (jacobi_cf phi F h Niter w_default)) = false).
    { rewrite jacobi_cf_length, Hphi. reflexivity. }
    destruct fuel; cbn [vcycle_rec vcycle_cf];
      rewrite jacobi_closed_form by lia; cbn [bind];
      fold (jacobi_cf phi F h Niter w_default); rewrite Hb; cbn [bind];
      rewrite jacobi_closed_form by (rewrite jacobi_cf_length; lia);
      reflexivity.
  - destruct fuel as [| fuel]; [lia |].
    cbn [vcycle_rec vcycle_cf].
    rewrite jacobi_closed_form by lia. cbn [bind].
    fold (jacobi_cf phi F h Niter w_default).
    set (phi1 := jacobi_cf phi F h Niter w_default).
    assert (Hphi1 : length phi1 = 2 ^ S (S l) + 1)
      by (subst phi1; rewrite jacobi_cf_length; exact Hphi).
    assert (Hb : (3 <? length phi1) = true).
    { rewrite Hphi1. apply Nat.ltb_lt. pose proof (pow2_pos l).
      rewrite (Nat.pow_succ_r' 2 (S l)), (Nat.pow_succ_r' 2 l). lia. }
    rewrite Hb.
    rewrite residual_closed_form by lia. cbn [bind].
    fold (residual_cf phi1 F h).
    rewrite restrict_closed_form
      by (apply nonempty_length; rewrite residual_cf_length; lia).
    cbn [bind]. fold (restrict_cf (residual_cf phi1 F h)).
    set (F2 := restrict_cf (residual_cf phi1 F h)).
    assert (HF2 : length F2 = 2 ^ S l + 1).
    { subst F2. rewrite restrict_cf_length, residual_cf_length, HF.
      apply half_grid. }
    rewrite IH; [| unfold zeros_like; rewrite zeros_length; exact HF2
                 | rewrite divide_length; exact HF2 | lia ].
    cbn [bind].
    set (v2 := vcycle_cf l _ _ _ _).
    assert (Hv2 : length v2 = 2 ^ S l + 1).
    { subst v2. apply vcycle_cf_length.
      - unfold zeros_like. rewrite zeros_length. exact HF2.
      - rewrite divide_length. exact HF2. }
    rewrite prolong_closed_form by (apply nonempty_length; lia).
    cbn [bind]. fold (prolong_cf v2).
    rewrite iadd_same
      by (rewrite prolong_cf_length, Hv2, Hphi1;
          rewrite (Nat.pow_succ_r' 2 (S l)); lia).
    cbn [bind].
    rewrite jacobi_closed_form; [reflexivity |].
    rewrite zip_with_length, prolong_cf_length, Hv2, Hphi1, HF.
    rewrite (Nat.pow_succ_r' 2 (S l)). lia.
Qed.

Lemma for_range_pure {S : Type} (P : S -> Prop) (body : S -> result S)
  (f : S -> S) :
  (forall s, P s -> body s = Ok (f s) /\ P (f s)) ->
  forall n s, P s -> for_range n body s = Ok (Nat.iter n f s) /\
                     P (Nat.iter n f s).
Proof.
  intros Hbody n. induction n as [| n IH]; intros s Hs.
  - split; [reflexivity | exact Hs].
  - destruct (Hbody s Hs) as [Hb HP]. cbn [for_range]. rewrite Hb. cbn [bind].
    rewrite Nat.iter_succ_r. apply IH. exact HP.
Qed.

Lemma fmg_init_ok (F : ndarray T) (bndry : T * T) :
  F <> [] ->
  (v1h <- set_first (zeros_like F) (fst bndry) ;; set_last v1h (snd bndry))
  = Ok (fmg_init F bndry).
Proof.
  intros Hne.
  assert (Hpos : 0 < length F) by (destruct F; [contradiction | simpl; lia]).
  destruct (set_first_spec (zeros_like F) (fst bndry))
    as (r1 & Hr1 & Hl1 & H10 & H1S).
  { apply nonempty_length. unfold zeros_like. rewrite zeros_length. exact Hpos. }
  unfold zeros_like in Hl1. rewrite zeros_length in Hl1.
  destruct (set_last_spec r1 (snd bndry)) as (r & Hr & Hlen & Hlast & Hkeep).
  { apply nonempty_length. lia. }
  rewrite Hr1. cbn [bind]. rewrite Hr. f_equal.
  apply tabulate_ext; [lia |].
  intros j Hj.
  destruct (Nat.eqb_spec j (length F - 1)) as [-> | Hnl].
  - rewrite <- Hl1. exact Hlast.
  - rewrite Hkeep by lia.
    destruct j as [| j]; [exact H10 |].
    cbn [Nat.eqb]. rewrite H1S. unfold zeros_like. apply zeros_nth.
Qed.

Lemma pow2_ge k : k < 2 ^ k.
Proof. apply Nat.pow_gt_lin_r. lia. Qed.

Lemma vcycle_cf_ok l v F h Niter :
  length v = 2 ^ S l + 1 -> length F = 2 ^ S l + 1 ->
  vcycle v F h Niter = Ok (vcycle_cf l v F h Niter).
Proof.
  intros Hv HF. unfold vcycle. apply vcycle_rec_cf; try assumption.
  rewrite Hv. pose proof (pow2_ge (S l)). lia.
Qed.

Lemma iter_vcycle_cf_length l F h Niter k v :
  length v = 2 ^ S l + 1 -> length F = 2 ^ S l + 1 ->
  length (Nat.iter k (fun v => vcycle_cf l v F h Niter) v) = 2 ^ S l + 1.
Proof.
  intros Hv HF. induction k as [| k IH]; [exact Hv |].
  rewrite Nat.iter_succ. apply vcycle_cf_length; assumption.
Qed.

Lemma fmg_cf_length l : forall F h bndry Niter,
  length F = 2 ^ S l + 1 -> length (fmg_cf l F h bndry Niter) = 2 ^ S l + 1.
Proof.
  induction l as [| l IH]; intros F h bndry Niter HF; cbn [fmg_cf];
    apply iter_vcycle_cf_length; try exact HF.
  - unfold fmg_init. rewrite tabulate_length. exact HF.
  - rewrite prolong_cf_length, IH.
    + rewrite (Nat.pow_succ_r' 2 (S l)). lia.
    + rewrite restrict_cf_length, HF. apply half_grid.
Qed.

(** On a grid of [2^(l+1) + 1] points [fmg_vcycle] nests [l] calls and
    returns [fmg_cf]. *)
Lemma fmg_vcycle_rec_cf l : forall fuel F h bndry Niter,
  length F = 2 ^ S l + 1 -> l <= fuel ->
  fmg_vcycle_rec fuel F h bndry Niter = Ok (fmg_cf l F h bndry Niter).
Proof.
  assert (Hloop : forall l F h k v,
    length F = 2 ^ S l + 1 -> length v = 2 ^ S l + 1 ->
    for_range k (fun v1h => vcycle v1h F h vcycle_Niter_default) v
    = Ok (Nat.iter k (fun v => vcycle_cf l v F h vcycle_Niter_default) v)).
  { intros l0 F h k v HF Hv.
    apply (for_range_pure (fun v => length v = 2 ^ S l0 + 1)); [| exact Hv].
    intros s Hs. split.
    - apply vcycle_cf_ok; assumption.
    - apply vcycle_cf_length; assumption. }
  induction l as [| l IH]; intros fuel F h bndry Niter HF Hfuel.
  - assert (Hb : (3 <? length F) = false) by (rewrite HF; reflexivity).
    assert (Hne : F <> []) by (apply nonempty_length; rewrite HF; simpl; lia).
    destruct fuel; cbn [fmg_vcycle_rec fmg_cf]; rewrite Hb;
      rewrite (fmg_init_ok F bndry Hne); cbn [bind];
      apply Hloop; try exact HF;
      unfold fmg_init; rewrite tabulate_length; exact HF.
  - destruct fuel as [| fuel]; [lia |].
    cbn [fmg_vcycle_rec fmg_cf].
    assert (Hb : (3 <? length F) = true).
    { rewrite HF. apply Nat.ltb_lt. pose proof (pow2_pos l).
      rewrite (Nat.pow_succ_r' 2 (S l)), (Nat.pow_succ_r' 2 l). lia. }
    rewrite Hb.
    rewrite restrict_closed_form by (apply nonempty_length; lia).
    cbn [bind]. fold (restrict_cf F).
    assert (HF2 : length (restrict_cf F) = 2 ^ S l + 1)
      by (rewrite restrict_cf_length, HF; apply half_grid).
    rewrite IH by (try exact HF2; lia). cbn [bind].
    set (v2h := fmg_cf l _ _ _ _).
    assert (Hv2 : length v2h = 2 ^ S l + 1)
      by (subst v2h; apply fmg_cf_length; exact HF2).
    rewrite prolong_closed_form by (apply nonempty_length; lia).
    cbn [bind]. fold (prolong_cf v2h).
    apply Hloop; [exact HF |].
    rewrite prolong_cf_length, Hv2, (Nat.pow_succ_r' 2 (S l)). lia.
Qed.

Lemma fmg_cf_ok l F h bndry Niter :
  length F = 2 ^ S l + 1 ->
  fmg_vcycle F h bndry Niter = Ok (fmg_cf l F h bndry Niter).
Proof.
  intros HF. unfold fmg_vcycle. apply fmg_vcycle_rec_cf; [exact HF |].
  rewrite HF. pose proof (pow2_ge (S l)). lia.
Qed.

End ClosedForms.

(** ** Exact arithmetic *)

Lemma ExactArith_Qc : ExactArith Qc.
Proof.
  constructor.
  - exact Qcrt.
  - reflexivity.
  - reflexivity.
  - intros a b. cbn [of_int add Num_Qc]. unfold Qcplus.
    apply Q2Qc_eq_iff. cbn [this Q2Qc].
    rewrite !Qred_correct, inject_Z_plus. apply Qeq_refl.
  - apply Qc_is_canon. reflexivity.
  - apply Qc_is_canon. reflexivity.
Qed.

#[export] Existing Instance ExactArith_Qc.

Section Algebra.
Context {T : Type} {N : Num T} {E : ExactArith T}.

Add Ring exact_arith_ring : exact_ring.

Lemma of_int_2 : of_int 2 = add one one.
Proof.
  change 2%Z with (1 + 1)%Z. rewrite of_int_add, of_int_1. reflexivity.
Qed.

Lemma sub_zero x : sub x zero = x.
Proof. ring. Qed.

Lemma add_zero_r x : add x zero = x.
Proof. ring. Qed.

Lemma blend_same w x : blend w x x = x.
Proof. unfold blend. ring. Qed.

Lemma half_sum x : mul half (add x x) = x.
Proof.
  transitivity (mul (mul (of_int 2) half) x).
  - rewrite of_int_2. ring.
  - rewrite half_spec. ring.
Qed.

Lemma quarter_sum x :
  mul quarter (add (add x (mul (of_int 2) x)) x) = x.
Proof.
  rewrite quarter_spec.
  transitivity (mul (mul (mul (of_int 2) half) (mul (of_int 2) half)) x).
  - rewrite of_int_2. ring.
  - rewrite half_spec. ring.
Qed.

End Algebra.

(** ** The residual (claim C1) *)

Section ResidualClaim.
Context {T : Type} {N : Num T} {E : ExactArith T}.

Add Ring exact_arith_ring_residual : exact_ring.


End ResidualClaim.

(** Rational arrays are written with integer entries. *)
Definition qarray (l : list Z) : ndarray Qc := map of_int l.



(** ** The end entries of a Field in exact arithmetic *)

(** A grid the solver is meant for: [n + 1] points with [n = 2^k], [k >= 1]. *)
Definition valid_grid (len : nat) : Prop :=
  exists k, 1 <= k /\ len = 2 ^ k + 1.

Lemma valid_grid_levels len :
  valid_grid len -> exists l, len = 2 ^ S l + 1.
Proof.
  intros (k & Hk & ->). exists (k - 1).
  replace (S (k - 1)) with k by lia. reflexivity.
Qed.

Section Ends.
Context {T : Type} {N : Num T}.

(** [r] has the length and the two end entries of [phi]. *)
Definition same_ends (phi r : ndarray T) : Prop :=
  length r = length phi /\
  nth 0 r zero = nth 0 phi zero /\
  nth (length phi - 1) r zero = nth (length phi - 1) phi zero.

(** One pass of the Smoother as the specification words it: the trial value
    [phi*_j = 0.5*(phi_(j-1) + phi_(j+1) + h^2*F_j)] at every interior point,
    then [phi_j <- (1-w)*phi_j + w*phi*_j]; the two end points are left as
    they are. *)
Definition smoother_pass (F : ndarray T) (h w : T) (phi : ndarray T)
  : ndarray T :=
  tabulate (length phi) (fun j =>
    if interior (length phi) j then
      let phistar_j :=
        mul half (add (add (nth (j - 1) phi zero) (nth (j + 1) phi zero))
                      (mul (mul h h) (nth j F zero))) in
      add (mul (sub one w) (nth j phi zero)) (mul w phistar_j)
    else nth j phi zero).

(** The Smoother of the specification: [k] passes. *)
Definition smoother_spec (phi F : ndarray T) (h : T) (k : nat) (w : T)
  : ndarray T :=
  Nat.iter k (smoother_pass F h w) phi.

(** Any number of Smoother and V-Cycle calls, each with a Source of the
    length of the Field it is given. *)
Inductive calls : ndarray T -> ndarray T -> Prop :=
| calls_done phi : calls phi phi
| calls_jacobi phi F h Niter w r out :
    length F = length phi -> jacobi phi F h Niter w = Ok r ->
    calls r out -> calls phi out
| calls_vcycle phi F h Niter r out :
    length F = length phi -> vcycle phi F h Niter = Ok r ->
    calls r out -> calls phi out.

Context {E : ExactArith T}.

Add Ring exact_arith_ring_ends : exact_ring.

Lemma not_interior_end len j :
  j < len -> interior len j = false -> j <> 0 -> j = len - 1.
Proof.
  intros Hj Hint Hj0.
  destruct (Nat.lt_ge_cases j (len - 1)) as [Hlt | Hge]; [| lia].
  assert (interior len j = true) by (apply interior_true; lia). congruence.
Qed.

(** With exact arithmetic the blend of an end entry with itself is that
    entry, so a pass of the loop body is a pass of the specification. *)
Lemma sweep_smoother_pass F h w phi :
  sweep F h w (nth 0 phi zero) (nth (length phi - 1) phi zero) phi
  = smoother_pass F h w phi.
Proof.
  unfold sweep, smoother_pass.
  apply tabulate_ext; [apply tabulate_length |].
  intros j Hj. rewrite tabulate_nth by exact Hj.
  destruct (interior (length phi) j) eqn:Hint.
  - reflexivity.
  - destruct (Nat.eqb_spec j 0) as [-> | Hj0]; [apply blend_same |].
    rewrite <- (not_interior_end _ _ Hj Hint Hj0). apply blend_same.
Qed.

Lemma smoother_pass_same_ends F h w phi :
  same_ends phi (smoother_pass F h w phi).
Proof.
  unfold same_ends, smoother_pass. rewrite tabulate_length.
  split; [reflexivity |].
  destruct phi as [| x rest]; [repeat split |].
  split; rewrite tabulate_nth by (cbn [length]; lia).
  - reflexivity.
  - replace (interior (length (x :: rest)) (length (x :: rest) - 1)) with false.
    + reflexivity.
    + unfold interior. rewrite Nat.ltb_irrefl. symmetry. apply andb_false_r.
Qed.

Lemma same_ends_refl phi : same_ends phi phi.
Proof. repeat split. Qed.

Lemma same_ends_trans a b c : same_ends a b -> same_ends b c -> same_ends a c.
Proof.
  unfold same_ends. intros (Hl1 & H0 & Hn) (Hl2 & H0' & Hn').
  rewrite Hl1 in *. repeat split; congruence.
Qed.

Lemma smoother_spec_same_ends F h w k phi :
  same_ends phi (smoother_spec phi F h k w).
Proof.
  unfold smoother_spec. induction k as [| k IH].
  - apply same_ends_refl.
  - rewrite Nat.iter_succ.
    eapply same_ends_trans; [exact IH | apply smoother_pass_same_ends].
Qed.

Lemma jacobi_cf_smoother_spec phi F h k w :
  length phi = length F ->
  jacobi_cf phi F h k w = smoother_spec phi F h k w.
Proof.
  intros Hlen. unfold jacobi_cf, smoother_spec.
  induction k as [| k IH]; [reflexivity |].
  rewrite !Nat.iter_succ, IH.
  destruct (smoother_spec_same_ends F h w k phi) as (Hl & H0 & Hn).
  unfold smoother_spec in Hl, H0, Hn.
  rewrite <- H0. rewrite <- Hlen, <- Hn, <- Hl.
  apply sweep_smoother_pass.
Qed.

Lemma jacobi_cf_same_ends phi F h k w :
  length phi = length F -> same_ends phi (jacobi_cf phi F h k w).
Proof.
  intros Hlen. rewrite jacobi_cf_smoother_spec by exact Hlen.
  apply smoother_spec_same_ends.
Qed.

Lemma prolong_cf_ends (v : ndarray T) :
  v <> [] ->
  nth 0 (prolong_cf v) zero = nth 0 v zero /\
  nth (2 * length v - 1 - 1) (prolong_cf v) zero = nth (length v - 1) v zero.
Proof.
  intros Hne.
  assert (Hpos : 0 < length v) by (destruct v; [contradiction | simpl; lia]).
  unfold prolong_cf. split; rewrite tabulate_nth by lia; unfold prolong_entry.
  - reflexivity.
  - replace (2 * length v - 1 - 1) with ((length v - 1) * 2) by lia.
    rewrite Nat.Div0.mod_mul, Nat.div_mul by lia. reflexivity.
Qed.

Lemma fmg_init_ends (F : ndarray T) (a b : T) :
  2 <= length F ->
  length (fmg_init F (a, b)) = length F /\
  nth 0 (fmg_init F (a, b)) zero = a /\
  nth (length F - 1) (fmg_init F (a, b)) zero = b.
Proof.
  intros HF. unfold fmg_init. rewrite tabulate_length.
  split; [reflexivity |].
  split; rewrite tabulate_nth by lia; cbn [fst snd].
  - destruct (Nat.eqb_spec 0 (length F - 1)); [lia | reflexivity].
  - rewrite Nat.eqb_refl. reflexivity.
Qed.

Lemma vcycle_cf_same_ends l : forall phi F h Niter,
  length phi = 2 ^ S l + 1 -> length F = 2 ^ S l + 1 ->
  same_ends phi (vcycle_cf l phi F h Niter).
Proof.
  induction l as [| l IH]; intros phi F h Niter Hphi HF; cbn [vcycle_cf].
  - eapply same_ends_trans; apply jacobi_cf_same_ends;
      rewrite ?jacobi_cf_length; lia.
  - set (phi1 := jacobi_cf phi F h Niter w_default).
    assert (H1 : same_ends phi phi1)
      by (apply jacobi_cf_same_ends; lia).
    set (F2 := restrict_cf (residual_cf phi1 F h)).
    assert (HF2 : length F2 = 2 ^ S l + 1).
    { subst F2. rewrite restrict_cf_length, residual_cf_length, HF.
      apply half_grid. }
    set (v2 := vcycle_cf l _ _ _ _).
    assert (Hz : length (zeros_like F2) = 2 ^ S l + 1)
      by (unfold zeros_like; rewrite zeros_length; exact HF2).
    destruct (IH (zeros_like F2) (divide F2 (sq h)) (mul (of_int 2) h) Niter)
      as (Hv2 & Hv0 & Hvn); [exact Hz | rewrite divide_length; exact HF2 |].
    fold v2 in Hv2, Hv0, Hvn. rewrite Hz in Hv2, Hvn.
    unfold zeros_like in Hv0, Hvn. rewrite zeros_nth in Hv0, Hvn.
    destruct (prolong_cf_ends v2) as (Hp0 & Hpn).
    { apply nonempty_length. lia. }
    rewrite Hv0 in Hp0. rewrite Hv2 in Hpn.
    replace (2 ^ S l + 1 - 1) with (2 ^ S l) in Hvn, Hpn by lia.
    rewrite Hvn in Hpn.
    replace (2 * (2 ^ S l + 1) - 1 - 1) with (2 ^ S (S l)) in Hpn
      by (rewrite (Nat.pow_succ_r' 2 (S l)); lia).
    destruct H1 as (Hl1 & H10 & H1n).
    assert (Hpl : length (prolong_cf v2) = 2 ^ S (S l) + 1).
    { rewrite prolong_cf_length, Hv2, (Nat.pow_succ_r' 2 (S l)). lia. }
    assert (H2 : same_ends phi (zip_with add phi1 (prolong_cf v2))).
    { unfold same_ends. rewrite zip_with_length, Hpl, Hl1, Hphi.
      split; [lia |].
      rewrite !zip_with_nth by lia.
      replace (2 ^ S (S l) + 1 - 1) with (2 ^ S (S l)) in * by lia.
      rewrite Hp0, Hpn, H10. rewrite Hphi in H1n.
      replace (2 ^ S (S l) + 1 - 1) with (2 ^ S (S l)) in H1n by lia.
      rewrite H1n. split; ring. }
    eapply same_ends_trans; [exact H2 |].
    apply jacobi_cf_same_ends.
    destruct H2 as (-> & _). lia.
Qed.

Lemma iter_vcycle_cf_same_ends l F h Niter k v :
  length v = 2 ^ S l + 1 -> length F = 2 ^ S l + 1 ->
  same_ends v (Nat.iter k (fun v => vcycle_cf l v F h Niter) v).
Proof.
  intros Hv HF. induction k as [| k IH]; [apply same_ends_refl |].
  rewrite Nat.iter_succ.
  eapply same_ends_trans; [exact IH |].
  apply vcycle_cf_same_ends; [| exact HF].
  apply iter_vcycle_cf_length; assumption.
Qed.

Lemma fmg_cf_ends l : forall F h a b Niter,
  length F = 2 ^ S l + 1 ->
  nth 0 (fmg_cf l F h (a, b) Niter) zero = a /\
  nth (2 ^ S l) (fmg_cf l F h (a, b) Niter) zero = b.
Proof.
  induction l as [| l IH]; intros F h a b Niter HF; cbn [fmg_cf].
  - destruct (iter_vcycle_cf_same_ends 0 F h vcycle_Niter_default Niter
                (fmg_init F (a, b))) as (_ & H0 & Hn).
    + unfold fmg_init. rewrite tabulate_length. exact HF.
    + exact HF.
    + destruct (fmg_init_ends F a b) as (Hl & Hi0 & Hin); [rewrite HF; simpl; lia |].
      rewrite Hl, HF in Hn. rewrite HF in Hin.
      replace (2 ^ 1 + 1 - 1) with (2 ^ 1) in Hn, Hin by reflexivity.
      split; congruence.
  - set (c := fmg_cf l _ _ _ _).
    assert (HF2 : length (restrict_cf F) = 2 ^ S l + 1)
      by (rewrite restrict_cf_length, HF; apply half_grid).
    assert (Hc : length c = 2 ^ S l + 1)
      by (subst c; apply fmg_cf_length; exact HF2).
    destruct (IH (restrict_cf F) (mul (of_int 2) h) a b fmg_Niter_default HF2)
      as (Hc0 & Hcn). fold c in Hc0, Hcn.
    destruct (prolong_cf_ends c) as (Hp0 & Hpn).
    { apply nonempty_length. lia. }
    assert (Hpl : length (prolong_cf c) = 2 ^ S (S l) + 1).
    { rewrite prolong_cf_length, Hc, (Nat.pow_succ_r' 2 (S l)). lia. }
    destruct (iter_vcycle_cf_same_ends (S l) F h vcycle_Niter_default Niter
                (prolong_cf c) Hpl HF) as (_ & H0 & Hn).
    rewrite Hpl in Hn.
    replace (2 ^ S (S l) + 1 - 1) with (2 ^ S (S l)) in Hn by lia.
    rewrite H0, Hn, Hp0, Hc0.
    rewrite Hc in Hpn.
    replace (2 * (2 ^ S l + 1) - 1 - 1) with (2 ^ S (S l)) in Hpn
      by (rewrite (Nat.pow_succ_r' 2 (S l)); lia).
    replace (2 ^ S l + 1 - 1) with (2 ^ S l) in Hpn by lia.
    rewrite Hpn, Hcn. split; reflexivity.
Qed.

(** A V-Cycle on a grid of at most three points is two runs of the
    Smoother. *)
Lemma vcycle_small phi F h Niter :
  length phi = length F -> length phi <= 3 ->
  vcycle phi F h Niter =
    Ok (jacobi_cf (jacobi_cf phi F h Niter w_default) F h Niter w_default).
Proof.
  intros Hlen Hsmall. unfold vcycle.
  assert (Hb : (3 <? length (jacobi_cf phi F h Niter w_default)) = false).
  { rewrite jacobi_cf_length. apply Nat.ltb_ge. exact Hsmall. }
  destruct (length phi) eqn:EL; cbn [vcycle_rec];
    rewrite jacobi_closed_form by lia; cbn [bind];
    fold (jacobi_cf phi F h Niter w_default); rewrite Hb; cbn [bind];
    rewrite jacobi_closed_form by (rewrite jacobi_cf_length; lia);
    reflexivity.
Qed.

Lemma calls_same_ends phi out :
  valid_grid (length phi) -> calls phi out -> same_ends phi out.
Proof.
  intros Hvalid Hcalls.
  induction Hcalls as [phi | phi F h Niter w r out HF Hj _ IH
                           | phi F h Niter r out HF Hv _ IH].
  - apply same_ends_refl.
  - rewrite jacobi_closed_form in Hj by lia. injection Hj as <-.
    fold (jacobi_cf phi F h Niter w) in *.
    assert (H1 : same_ends phi (jacobi_cf phi F h Niter w))
      by (apply jacobi_cf_same_ends; lia).
    eapply same_ends_trans; [exact H1 |]. apply IH.
    destruct H1 as (-> & _). exact Hvalid.
  - destruct (valid_grid_levels _ Hvalid) as (l & Hl).
    rewrite (vcycle_cf_ok l) in Hv by lia. injection Hv as <-.
    assert (H1 : same_ends phi (vcycle_cf l phi F h Niter))
      by (apply vcycle_cf_same_ends; lia).
    eapply same_ends_trans; [exact H1 |]. apply IH.
    destruct H1 as (-> & _). exact Hvalid.
Qed.

(** With exact arithmetic, for a Field [phi] and a Source [F] of the same
    length, every spacing [h], count [k] and weight [w], the Smoother returns
    the Field obtained by [k] passes of the specification ([smoother_spec]:
    the trial value at every interior point, the blend with weight [w], the
    end points unchanged); the result has the length of [phi], and it is a
    function of these inputs alone.  The exactness is used at the two end
    points only, where [jacobi] blends the entry with the input's. *)
Theorem jacobi_refines_smoother_spec (phi F : ndarray T) (h : T) (k : nat)
  (w : T) :
  length phi = length F ->
  jacobi phi F h k w = Ok (smoother_spec phi F h k w) /\
  same_ends phi (smoother_spec phi F h k w).
Proof.
  intros Hlen. split.
  - rewrite jacobi_closed_form by exact Hlen.
    f_equal. apply jacobi_cf_smoother_spec. exact Hlen.
  - apply smoother_spec_same_ends.
Qed.

(** With exact arithmetic the two end entries of a Field are kept, as
    they are, by the Smoother on every Field, by the V-Cycle on every valid
    grid, by any sequence of such calls, and the Field returned by the FMG
    Controller has the boundary pair at its two ends. *)
Theorem boundary_invariance :
  (forall phi F h k w,
     length phi = length F ->
     exists r, jacobi phi F h k w = Ok r /\ same_ends phi r) /\
  (forall phi F h k,
     valid_grid (length phi) -> length F = length phi ->
     exists r, vcycle phi F h k = Ok r /\ same_ends phi r) /\
  (forall phi out,
     valid_grid (length phi) -> calls phi out -> same_ends phi out) /\
  (forall F h a b k,
     valid_grid (length F) ->
     exists r, fmg_vcycle F h (a, b) k = Ok r /\
       length r = length F /\
       nth 0 r zero = a /\ nth (length F - 1) r zero = b).
Proof.
  split; [| split; [| split]].
  - intros phi F h k w Hlen. eexists. split.
    + apply jacobi_closed_form. exact Hlen.
    + apply jacobi_cf_same_ends. exact Hlen.
  - intros phi F h k Hvalid HF.
    destruct (valid_grid_levels _ Hvalid) as (l & Hl).
    exists (vcycle_cf l phi F h k). split.
    + apply vcycle_cf_ok; lia.
    + apply vcycle_cf_same_ends; lia.
  - exact calls_same_ends.
  - intros F h a b k Hvalid.
    destruct (valid_grid_levels _ Hvalid) as (l & Hl).
    exists (fmg_cf l F h (a, b) k).
    destruct (fmg_cf_ends l F h a b k Hl) as (H0 & Hn).
    split; [apply fmg_cf_ok; exact Hl |].
    split; [rewrite fmg_cf_length by exact Hl; lia |].
    split; [exact H0 |].
    rewrite Hl. replace (2 ^ S l + 1 - 1) with (2 ^ S l) by lia. exact Hn.
Qed.

End Ends.

(** ** The end entries in binary64 (claims C2 and C4) *)

(** [jacobi] blends every entry of [phi] with [phistar], the two end entries
    included: [phi = (1-w)*phi + w*phistar].  In binary64 [w = 2./3.] is
    [0.6666666666666666] and [1-w] is [0.33333333333333337], and
    [(1-w)*a + w*a] is rounded twice; for [a = 1.7] it is the next binary64
    number above [a]. *)

(** The binary64 number nearest to 1.7. *)
Definition a17 : float := PrimFloat.div (of_int 17) (of_int 10).

Lemma a17_next_up : PrimFloat.ltb a17 (PrimFloat.next_up a17) = true.
Proof. vm_compute. reflexivity. Qed.

(** C2.  In binary64 the end entries are not kept exactly: on the Field
    [[1.7, 0, 0]] with a zero Source, one pass of the Smoother returns a Field
    whose entry 0 is the next binary64 number above [1.7]
    ([1.7000000000000002]); so do the V-Cycle on five points and the FMG
    Controller with the boundary pair [(1.7, 0)].  In each case the test
    [r[0] == 1.7] is false, and the other end, [0], is kept. *)
Theorem boundary_entry_moves_binary64 :
  (exists r,
     jacobi [a17; zero; zero] (zeros 3) one 1 w_default = Ok r /\
     nth 0 r zero = PrimFloat.next_up a17 /\
     PrimFloat.eqb (nth 0 r zero) a17 = false /\
     nth 2 r zero = zero) /\
  (exists r,
     vcycle [a17; zero; zero; zero; zero] (zeros 5) quarter
       vcycle_Niter_default = Ok r /\
     nth 0 r zero = PrimFloat.next_up a17 /\
     PrimFloat.eqb (nth 0 r zero) a17 = false /\
     nth 4 r zero = zero) /\
  (exists r,
     fmg_vcycle (zeros 5) quarter (a17, zero) fmg_Niter_default = Ok r /\
     nth 0 r zero = PrimFloat.next_up a17 /\
     PrimFloat.eqb (nth 0 r zero) a17 = false /\
     nth 4 r zero = zero).
Proof.
  split; [| split]; eexists;
    (split; [vm_compute; reflexivity |]);
    repeat split; vm_compute; reflexivity.
Qed.

(** C4.  In binary64 the Smoother does not return the Field of the
    specification: on the Field [[1.7, 0, 0]] with a zero Source, spacing 1
    and the default weight, one pass returns a Field of length 3 whose
    interior entry is that of [smoother_spec], whose last entry is that of
    [smoother_spec], and whose entry 0 is not: [smoother_spec] leaves 1.7
    there, [jacobi] returns the next binary64 number above it. *)
Theorem jacobi_end_entry_binary64 :
  exists r,
    jacobi [a17; zero; zero] (zeros 3) one 1 w_default = Ok r /\
    length r = 3 /\
    nth 0 (smoother_spec [a17; zero; zero] (zeros 3) one 1 w_default) zero
      = a17 /\
    nth 0 r zero = PrimFloat.next_up a17 /\
    PrimFloat.eqb (nth 0 r zero)
      (nth 0 (smoother_spec [a17; zero; zero] (zeros 3) one 1 w_default) zero)
      = false /\
    nth 1 r zero
      = nth 1 (smoother_spec [a17; zero; zero] (zeros 3) one 1 w_default) zero /\
    nth 2 r zero
      = nth 2 (smoother_spec [a17; zero; zero] (zeros 3) one 1 w_default) zero.
Proof.
  eexists. split; [vm_compute; reflexivity |].
  repeat split; vm_compute; reflexivity.
Qed.

(** With the boundary pair of the notebook, [(1, 0)], on 16 intervals, the
    blend is exact and the FMG Controller returns the linear interpolant,
    entry by entry. *)
Lemma fmg_vcycle_default_binary64 :
  fmg_vcycle (zeros 17) (PrimFloat.div one (of_int 16)) (one, zero)
    fmg_Niter_default
  = Ok (map (fun i => PrimFloat.div (of_int (Z.of_nat (16 - i))) (of_int 16))
          (seq 0 17)).
Proof. vm_compute. reflexivity. Qed.

(** ** Restriction and prolongation composed (claims C8 and C10) *)

Section Transfers.
Context {T : Type} {N : Num T} {E : ExactArith T}.

Add Ring exact_arith_ring_transfers : exact_ring.

Lemma nth_repeat_lt (c d : T) n j : j < n -> nth j (repeat c n) d = c.
Proof.
  revert j. induction n as [| n IH]; intros [| j] Hj; simpl; try lia; auto.
  apply IH. lia.
Qed.

Lemma repeat_tabulate (c : T) n : repeat c n = tabulate n (fun _ => c).
Proof.
  apply tabulate_ext; [apply repeat_length |].
  intros j Hj. apply nth_repeat_lt. exact Hj.
Qed.

Lemma tabulate_eq n (f g : nat -> T) :
  (forall j, j < n -> f j = g j) -> tabulate n f = tabulate n g.
Proof.
  intros H. apply tabulate_ext; [apply tabulate_length |].
  intros j Hj. rewrite tabulate_nth by exact Hj. apply H. exact Hj.
Qed.

Lemma restrict_cf_constant (c : T) m :
  restrict_cf (repeat c (2 * m + 1)) = repeat c (m + 1).
Proof.
  unfold restrict_cf. rewrite repeat_length.
  replace ((2 * m + 1 + 1) / 2) with (m + 1)
    by (replace (2 * m + 1 + 1) with ((m + 1) * 2) by lia;
        rewrite Nat.div_mul; lia).
  rewrite (repeat_tabulate c (m + 1)).
  apply tabulate_eq. intros j Hj. unfold restrict_entry.
  rewrite repeat_length.
  replace ((2 * m + 1 + 1) / 2) with (m + 1)
    by (replace (2 * m + 1 + 1) with ((m + 1) * 2) by lia;
        rewrite Nat.div_mul; lia).
  destruct (Nat.eqb_spec j (m + 1 - 1)) as [-> | Hnl].
  - apply nth_repeat_lt. lia.
  - destruct (Nat.eqb_spec j 0) as [-> | Hj0].
    + apply nth_repeat_lt. lia.
    + rewrite !nth_repeat_lt by lia. apply quarter_sum.
Qed.

Lemma prolong_cf_constant (c : T) m :
  prolong_cf (repeat c (m + 1)) = repeat c (2 * m + 1).
Proof.
  unfold prolong_cf. rewrite repeat_length.
  replace (2 * (m + 1) - 1) with (2 * m + 1) by lia.
  rewrite (repeat_tabulate c (2 * m + 1)).
  apply tabulate_eq. intros i Hi. unfold prolong_entry.
  pose proof (Nat.div_mod_eq i 2) as Hdm.
  pose proof (Nat.mod_upper_bound i 2 ltac:(lia)) as Hmod.
  destruct (Nat.eqb_spec (i mod 2) 0) as [Hev | Hod].
  - apply nth_repeat_lt. lia.
  - rewrite !nth_repeat_lt by lia. apply half_sum.
Qed.

End Transfers.

Section ConstantFields.
Context {T : Type} {N : Num T}.

(** On a constant Field [restrict] evaluates one expression at every
    interior point, [0.25*(c + 2*c + c)], and copies the two ends. *)
Lemma restrict_cf_constant_if (c : T) m :
  mul quarter (add (add c (mul (of_int 2) c)) c) = c ->
  restrict_cf (repeat c (2 * m + 1)) = repeat c (m + 1).
Proof.
  intros Hq.
  unfold restrict_cf. rewrite repeat_length.
  replace ((2 * m + 1 + 1) / 2) with (m + 1)
    by (replace (2 * m + 1 + 1) with ((m + 1) * 2) by lia;
        rewrite Nat.div_mul; lia).
  rewrite (repeat_tabulate c (m + 1)).
  apply tabulate_eq. intros j Hj. unfold restrict_entry.
  rewrite repeat_length.
  replace ((2 * m + 1 + 1) / 2) with (m + 1)
    by (replace (2 * m + 1 + 1) with ((m + 1) * 2) by lia;
        rewrite Nat.div_mul; lia).
  destruct (Nat.eqb_spec j (m + 1 - 1)) as [-> | Hnl].
  - apply nth_repeat_lt. lia.
  - destruct (Nat.eqb_spec j 0) as [-> | Hj0].
    + apply nth_repeat_lt. lia.
    + rewrite !nth_repeat_lt by lia. exact Hq.
Qed.

(** On a constant Field [prolong] evaluates one expression at every odd
    point, [0.5*(c + c)], and copies the even ones. *)
Lemma prolong_cf_constant_if (c : T) m :
  mul half (add c c) = c ->
  prolong_cf (repeat c (m + 1)) = repeat c (2 * m + 1).
Proof.
  intros Hh.
  unfold prolong_cf. rewrite repeat_length.
  replace (2 * (m + 1) - 1) with (2 * m + 1) by lia.
  rewrite (repeat_tabulate c (2 * m + 1)).
  apply tabulate_eq. intros i Hi. unfold prolong_entry.
  pose proof (Nat.div_mod_eq i 2) as Hdm.
  pose proof (Nat.mod_upper_bound i 2 ltac:(lia)) as Hmod.
  destruct (Nat.eqb_spec (i mod 2) 0) as [Hev | Hod].
  - apply nth_repeat_lt. lia.
  - rewrite !nth_repeat_lt by lia. exact Hh.
Qed.

(** The round trip of claim C8 on the constant Field of [2m+1] entries
    [c]: [restrict] and then [prolong] return, and the result is that
    Field again. *)
Definition constant_round_trip (c : T) (m : nat) : Prop :=
  exists coarse fine,
    restrict (repeat c (2 * m + 1)) = Ok coarse /\
    prolong coarse = Ok fine /\
    length fine = 2 * m + 1 /\
    (forall i, i < 2 * m + 1 -> nth i fine zero = c) /\
    fine = repeat c (2 * m + 1).

Lemma constant_round_trip_if (c : T) (m : nat) :
  mul quarter (add (add c (mul (of_int 2) c)) c) = c ->
  mul half (add c c) = c ->
  constant_round_trip c m.
Proof.
  intros Hq Hh.
  exists (repeat c (m + 1)), (repeat c (2 * m + 1)).
  split.
  { rewrite restrict_closed_form
      by (apply nonempty_length; rewrite repeat_length; lia).
    f_equal. apply restrict_cf_constant_if. exact Hq. }
  split.
  { rewrite prolong_closed_form
      by (apply nonempty_length; rewrite repeat_length; lia).
    f_equal. apply prolong_cf_constant_if. exact Hh. }
  split; [apply repeat_length |].
  split; [| reflexivity].
  intros i Hi. apply nth_repeat_lt. exact Hi.
Qed.

(** C8, as amended.  Restriction followed by Prolongation maps the
    constant Field of length [2m+1] to itself (the result has that length
    and every entry is exactly [c]; for every [m], in particular for
    [m >= 1])
    - in exact arithmetic, for every constant [c];
    - in every arithmetic, binary64 included, for every constant [c] that
      the two stencils reproduce: [0.25*(c + 2*c + c) = c] and
      [0.5*(c + c) = c].
    In binary64 the stencils reproduce [1.7]; they do not reproduce
    [1e308], for which the sum overflows. *)
Theorem restrict_prolong_constant (c : T) (m : nat) :
  (ExactArith T -> constant_round_trip c m) /\
  (mul quarter (add (add c (mul (of_int 2) c)) c) = c ->
   mul half (add c c) = c ->
   constant_round_trip c m).
Proof.
  split.
  - intros E. apply constant_round_trip_if;
      [apply quarter_sum | apply half_sum].
  - apply constant_round_trip_if.
Qed.

End ConstantFields.

(** The binary64 number nearest to [1e308]. *)
Definition c308 : float := 0x1.1ccf385ebc8ap+1023%float.

(** C8 as stated fails in binary64: on the constant Field of five entries
    [1e308] the sum [c + 2*c + c] of [restrict] overflows, and Restriction
    followed by Prolongation returns [[c, inf, inf, inf, c]]. *)
Lemma restrict_prolong_constant_overflow :
  exists coarse fine,
    restrict (repeat c308 (2 * 2 + 1)) = Ok coarse /\
    prolong coarse = Ok fine /\
    fine = [c308; infinity; infinity; infinity; c308] /\
    PrimFloat.eqb (nth 1 fine zero) c308 = false /\
    mul quarter (add (add c308 (mul (of_int 2) c308)) c308) = infinity.
Proof.
  eexists. eexists.
  split; [vm_compute; reflexivity |].
  split; [vm_compute; reflexivity |].
  split; [| split]; vm_compute; reflexivity.
Qed.


(** Index arithmetic of the two grids. *)
Lemma div2_even j : (2 * j) / 2 = j.
Proof. rewrite Nat.mul_comm. apply Nat.div_mul. lia. Qed.

Lemma mod2_even j : (2 * j) mod 2 = 0.
Proof. rewrite Nat.mul_comm. apply Nat.Div0.mod_mul. Qed.

Lemma div2_odd j : (2 * j + 1) / 2 = j.
Proof. symmetry. apply (Nat.div_unique _ 2 j 1); lia. Qed.

Lemma mod2_odd j : (2 * j + 1) mod 2 = 1.
Proof. symmetry. apply (Nat.mod_unique _ 2 j 1); lia. Qed.

Section ProlongRestrict.
Context {T : Type} {N : Num T} {E : ExactArith T}.

Add Ring exact_arith_ring_pr : exact_ring.

(** [v_j = p + q*j] *)
Definition affine (v : ndarray T) : Prop :=
  exists p q, forall j, j < length v ->
    nth j v zero = add p (mul q (of_int (Z.of_nat j))).

(** [v_(j-1)/8 + 3*v_j/4 + v_(j+1)/8] *)
Definition smoothed (v : ndarray T) (j : nat) : T :=
  add (add (mul (mul half quarter) (nth (j - 1) v zero))
           (mul (mul (of_int 3) quarter) (nth j v zero)))
      (mul (mul half quarter) (nth (j + 1) v zero)).

Lemma of_int_3 : of_int 3 = add one (add one one).
Proof.
  change 3%Z with (1 + (1 + 1))%Z. rewrite !of_int_add, of_int_1. reflexivity.
Qed.

Lemma half_half x : add (mul half x) (mul half x) = x.
Proof. rewrite <- (half_sum x) at 3. ring. Qed.

Lemma full_weighting_of_interpolant a b c :
  mul quarter
    (add (add (mul half (add b c)) (mul (of_int 2) b)) (mul half (add a b)))
  = add (add (mul (mul half quarter) a) (mul (mul (of_int 3) quarter) b))
        (mul (mul half quarter) c).
Proof.
  rewrite of_int_2, of_int_3.
  transitivity
    (add (add (mul (mul half quarter) a)
              (mul quarter (add (add (mul half b) (mul half b))
                                (mul (add one one) b))))
         (mul (mul half quarter) c)).
  - ring.
  - rewrite half_half. ring.
Qed.

(** [restrict (prolong v)], entry by entry. *)
Lemma restrict_prolong_cf (v : ndarray T) :
  v <> [] ->
  restrict_cf (prolong_cf v) =
  tabulate (length v) (fun j =>
    if interior (length v) j then smoothed v j else nth j v zero).
Proof.
  intros Hne.
  assert (Hpos : 0 < length v) by (destruct v; [contradiction | simpl; lia]).
  unfold restrict_cf. rewrite prolong_cf_length.
  assert (HM : (2 * length v - 1 + 1) / 2 = length v).
  { replace (2 * length v - 1 + 1) with (2 * length v) by lia. apply div2_even. }
  rewrite HM. apply tabulate_eq. intros j Hj.
  unfold restrict_entry. rewrite prolong_cf_length, HM.
  destruct (prolong_cf_ends v Hne) as (Hp0 & Hpn).
  destruct (Nat.eqb_spec j (length v - 1)) as [-> | Hnl].
  - rewrite Hpn.
    replace (interior (length v) (length v - 1)) with false; [reflexivity |].
    unfold interior. rewrite Nat.ltb_irrefl. symmetry. apply andb_false_r.
  - destruct (Nat.eqb_spec j 0) as [-> | Hj0]; [exact Hp0 |].
    assert (Hint : interior (length v) j = true) by (apply interior_true; lia).
    rewrite Hint. unfold prolong_cf.
    rewrite !tabulate_nth by lia. unfold prolong_entry.
    replace (2 * j - 1) with (2 * (j - 1) + 1) by lia.
    rewrite !mod2_odd, !div2_odd, mod2_even, div2_even. cbn [Nat.eqb].
    replace (j - 1 + 1) with j by lia.
    apply full_weighting_of_interpolant.
Qed.

Lemma four_quarters : mul quarter (add (add one (mul (of_int 2) one)) one) = one.
Proof. apply quarter_sum. Qed.

(** The weights 1/8, 3/4, 1/8 return [b] when [b] is the mean of [a], [c]. *)
Lemma smoothed_mean a b c :
  add a c = add b b ->
  add (add (mul (mul half quarter) a) (mul (mul (of_int 3) quarter) b))
      (mul (mul half quarter) c) = b.
Proof.
  intros H.
  transitivity (add (mul (mul half quarter) (add a c))
                    (mul (mul (of_int 3) quarter) b)); [ring |].
  rewrite H.
  transitivity (mul quarter (add (add (mul half b) (mul half b))
                                 (mul (of_int 3) b))); [ring |].
  rewrite half_half.
  transitivity (mul quarter (add (add b (mul (of_int 2) b)) b)).
  - rewrite of_int_2, of_int_3. ring.
  - apply quarter_sum.
Qed.

Lemma smoothed_mean_inv a b c :
  add (add (mul (mul half quarter) a) (mul (mul (of_int 3) quarter) b))
      (mul (mul half quarter) c) = b ->
  add a c = add b b.
Proof.
  intros H.
  set (four := add (add one (mul (of_int 2) one)) one).
  assert (H8 : mul (mul (of_int 2) half) (mul quarter four) = one).
  { subst four. rewrite half_spec, four_quarters. ring. }
  transitivity (mul (mul (mul (of_int 2) half) (mul quarter four)) (add a c)).
  { rewrite H8. ring. }
  transitivity (mul (mul (of_int 2) four)
                    (add (mul (mul half quarter) a) (mul (mul half quarter) c))).
  { ring. }
  replace (add (mul (mul half quarter) a) (mul (mul half quarter) c))
    with (sub b (mul (mul (of_int 3) quarter) b)).
  2:{ rewrite <- H at 1. ring. }
  transitivity (sub (mul (mul (of_int 2) four) b)
                    (mul (mul (mul (of_int 2) (of_int 3)) (mul quarter four)) b)).
  { ring. }
  subst four. rewrite four_quarters, of_int_2, of_int_3. ring.
Qed.

Lemma of_int_succ (j : nat) :
  of_int (Z.of_nat (S j)) = add (of_int (Z.of_nat j)) one.
Proof.
  rewrite Nat2Z.inj_succ. unfold Z.succ. rewrite of_int_add, of_int_1.
  reflexivity.
Qed.

(** Affine data is data whose interior entries are the mean of their two
    neighbours. *)
Lemma affine_iff_mean (v : ndarray T) :
  affine v <->
  (forall j, 0 < j < length v - 1 ->
     add (nth (j - 1) v zero) (nth (j + 1) v zero)
     = add (nth j v zero) (nth j v zero)).
Proof.
  split.
  - intros (p & q & Hv) j Hj.
    destruct j as [| j]; [lia |].
    replace (S j - 1) with j by lia. replace (S j + 1) with (S (S j)) by lia.
    rewrite !Hv by lia. rewrite !of_int_succ. ring.
  - intros Hmean.
    exists (nth 0 v zero), (sub (nth 1 v zero) (nth 0 v zero)).
    assert (H : forall j, (j < length v ->
               nth j v zero =
               add (nth 0 v zero)
                   (mul (sub (nth 1 v zero) (nth 0 v zero))
                        (of_int (Z.of_nat j)))) /\
              (S j < length v ->
               nth (S j) v zero =
               add (nth 0 v zero)
                   (mul (sub (nth 1 v zero) (nth 0 v zero))
                        (of_int (Z.of_nat (S j)))))).
    { induction j as [| j [IH0 IH1]].
      - split; intros _.
        + cbn [Z.of_nat]. rewrite of_int_0. ring.
        + change (Z.of_nat 1) with 1%Z. rewrite of_int_1. ring.
      - split; [exact IH1 |].
        intros Hj.
        assert (Hm := Hmean (S j) ltac:(lia)).
        replace (S j - 1) with j in Hm by lia.
        replace (S j + 1) with (S (S j)) in Hm by lia.
        rewrite IH0, IH1 in Hm by lia.
        rewrite !of_int_succ in *.
        transitivity (sub (add (add (nth 0 v zero)
                                    (mul (sub (nth 1 v zero) (nth 0 v zero))
                                         (of_int (Z.of_nat j))))
                               (nth (S (S j)) v zero))
                          (add (nth 0 v zero)
                               (mul (sub (nth 1 v zero) (nth 0 v zero))
                                    (of_int (Z.of_nat j))))); [ring |].
        rewrite Hm. ring. }
    intros j Hj. apply (H j). exact Hj.
Qed.

(** C10, as amended.  In exact arithmetic (no rounding, no overflow)
    Prolongation followed by Restriction returns a Field of the same
    length with the same two end entries, whose interior entry [j] is
    [v_(j-1)/8 + 3*v_j/4 + v_(j+1)/8]; it returns [v] itself when [v] is
    affine, and only then. *)
Theorem prolong_restrict (v : ndarray T) :
  1 <= length v ->
  exists fine r,
    prolong v = Ok fine /\
    restrict fine = Ok r /\
    same_ends v r /\
    (forall j, 0 < j < length v - 1 -> nth j r zero = smoothed v j) /\
    (affine v -> r = v) /\
    (r = v -> affine v).
Proof.
  intros Hlen.
  assert (Hne : v <> []) by (apply nonempty_length; lia).
  exists (prolong_cf v), (restrict_cf (prolong_cf v)).
  split; [apply prolong_closed_form; exact Hne |].
  split.
  { apply restrict_closed_form. apply nonempty_length.
    rewrite prolong_cf_length. lia. }
  rewrite (restrict_prolong_cf v Hne).
  set (r := tabulate _ _).
  assert (Hr : forall j, j < length v ->
            nth j r zero =
            if interior (length v) j then smoothed v j else nth j v zero).
  { intros j Hj. subst r. apply tabulate_nth. exact Hj. }
  assert (Hrl : length r = length v) by (subst r; apply tabulate_length).
  split.
  { split; [exact Hrl |]. split; rewrite Hr by lia.
    - reflexivity.
    - replace (interior (length v) (length v - 1)) with false; [reflexivity |].
      unfold interior. rewrite Nat.ltb_irrefl. symmetry. apply andb_false_r. }
  split.
  { intros j Hj. rewrite Hr by lia.
    assert (Hint : interior (length v) j = true) by (apply interior_true; lia).
    rewrite Hint. reflexivity. }
  split.
  - intros Haff. apply (nth_ext _ _ zero zero); [exact Hrl |].
    intros j Hj. rewrite Hrl in Hj. rewrite Hr by exact Hj.
    destruct (interior (length v) j) eqn:Hint; [| reflexivity].
    apply smoothed_mean. apply affine_iff_mean; [exact Haff |].
    apply interior_true. exact Hint.
  - intros Heq. apply affine_iff_mean. intros j Hj.
    apply smoothed_mean_inv.
    assert (Hint : interior (length v) j = true) by (apply interior_true; lia).
    assert (Hj' := Hr j ltac:(lia)). rewrite Hint, Heq in Hj'.
    symmetry. exact Hj'.
Qed.

End ProlongRestrict.

(** C10 as stated fails in binary64, by rounding alone: the Field
    [[2^53-100, 2^53-97, 2^53-94]] is affine ([p = 2^53-100], [q = 3], every
    entry and every product exact), and Prolongation followed by
    Restriction returns the middle entry [2^53-96]. *)
Lemma prolong_restrict_rounding :
  let v : ndarray float :=
    [of_int 9007199254740892; of_int 9007199254740895;
     of_int 9007199254740898] in
  affine v /\
  exists fine r,
    prolong v = Ok fine /\
    restrict fine = Ok r /\
    nth 1 r zero = of_int 9007199254740896 /\
    PrimFloat.eqb (nth 1 r zero) (nth 1 v zero) = false.
Proof.
  intros v. split.
  - exists (of_int 9007199254740892), (of_int 3).
    intros j Hj. change (length v) with 3 in Hj.
    destruct j as [| [| [| j]]]; try lia; vm_compute; reflexivity.
  - eexists. eexists.
    split; [vm_compute; reflexivity |].
    split; [vm_compute; reflexivity |].
    split; vm_compute; reflexivity.
Qed.

(** ** Recursion depth (claim C7) and the FMG schedule (claim C9) *)

Section Recursion.
Context {T : Type} {N : Num T}.

(** With fewer than [l] nested calls allowed, a V-Cycle on [2^(l+1) + 1]
    points runs out of budget: it nests exactly [l] calls. *)
Lemma vcycle_rec_out_of_fuel l : forall fuel (phi F : ndarray T) h Niter,
  length phi = 2 ^ S l + 1 -> length F = 2 ^ S l + 1 -> fuel < l ->
  vcycle_rec fuel phi F h Niter = Raise OutOfFuel.
Proof.
  induction l as [| l IH]; intros fuel phi F h Niter Hphi HF Hfuel; [lia |].
  assert (Hb : (3 <? length (jacobi_cf phi F h Niter w_default)) = true).
  { rewrite jacobi_cf_length, Hphi. apply Nat.ltb_lt. pose proof (pow2_pos l).
    rewrite (Nat.pow_succ_r' 2 (S l)), (Nat.pow_succ_r' 2 l). lia. }
  destruct fuel as [| fuel]; cbn [vcycle_rec];
    rewrite jacobi_closed_form by lia; cbn [bind];
    fold (jacobi_cf phi F h Niter w_default); rewrite Hb.
  - reflexivity.
  - set (phi1 := jacobi_cf phi F h Niter w_default).
    assert (Hphi1 : length phi1 = 2 ^ S (S l) + 1)
      by (subst phi1; rewrite jacobi_cf_length; exact Hphi).
    rewrite residual_closed_form by lia. cbn [bind].
    fold (residual_cf phi1 F h).
    rewrite restrict_closed_form
      by (apply nonempty_length; rewrite residual_cf_length; lia).
    cbn [bind]. fold (restrict_cf (residual_cf phi1 F h)).
    set (F2 := restrict_cf (residual_cf phi1 F h)).
    assert (HF2 : length F2 = 2 ^ S l + 1).
    { subst F2. rewrite restrict_cf_length, residual_cf_length, HF.
      apply half_grid. }
    rewrite IH; [reflexivity
                | unfold zeros_like; rewrite zeros_length; exact HF2
                | rewrite divide_length; exact HF2 | lia ].
Qed.

(** C7.  On a grid of [n + 1] points, [n = 2^k] with [k >= 1], the
    recursive calls of the V-Cycle and of the FMG Controller terminate: a
    budget of [log2 n] nested calls is enough for both (the V-Cycle nests
    exactly [k - 1] calls), the entry points return, a recursive call works
    on the restricted grid of [n/2 + 1] points, and a grid of at most three
    points makes no recursive call. *)
Theorem recursion_depth (k : nat) (phi F : ndarray T) (h : T)
  (bndry : T * T) (Niter : nat) :
  1 <= k -> length phi = 2 ^ k + 1 -> length F = 2 ^ k + 1 ->
  Nat.log2 (2 ^ k) = k /\
  (exists r,
     vcycle_rec (Nat.log2 (2 ^ k)) phi F h Niter = Ok r /\
     vcycle_rec (k - 1) phi F h Niter = Ok r /\
     vcycle phi F h Niter = Ok r /\
     length r = 2 ^ k + 1) /\
  (forall fuel, fuel < k - 1 ->
     vcycle_rec fuel phi F h Niter = Raise OutOfFuel) /\
  (exists r,
     fmg_vcycle_rec (Nat.log2 (2 ^ k)) F h bndry Niter = Ok r /\
     fmg_vcycle_rec (k - 1) F h bndry Niter = Ok r /\
     fmg_vcycle F h bndry Niter = Ok r /\
     length r = 2 ^ k + 1) /\
  (2 <= k ->
     exists coarse,
       restrict F = Ok coarse /\ length coarse = 2 ^ k / 2 + 1 /\
       length coarse = 2 ^ (k - 1) + 1) /\
  (forall (phi' F' : ndarray T),
     length phi' = length F' -> 1 <= length F' <= 3 ->
     is_ok (vcycle_rec 0 phi' F' h Niter) = true /\
     is_ok (fmg_vcycle_rec 0 F' h bndry Niter) = true).
Proof.
  intros Hk Hphi HF.
  assert (Hlog : Nat.log2 (2 ^ k) = k) by (apply Nat.log2_pow2; lia).
  destruct k as [| l]; [lia |].
  replace (S l - 1) with l by lia.
  split; [exact Hlog |]. rewrite Hlog.
  split; [| split; [| split; [| split]]].
  - exists (vcycle_cf l phi F h Niter).
    repeat split.
    + apply vcycle_rec_cf; lia.
    + apply vcycle_rec_cf; lia.
    + apply vcycle_cf_ok; assumption.
    + apply vcycle_cf_length; assumption.
  - intros fuel Hfuel. apply (vcycle_rec_out_of_fuel l); assumption.
  - exists (fmg_cf l F h bndry Niter).
    repeat split.
    + apply fmg_vcycle_rec_cf; lia.
    + apply fmg_vcycle_rec_cf; lia.
    + apply fmg_cf_ok; assumption.
    + apply fmg_cf_length; assumption.
  - intros Hk2. destruct l as [| l']; [lia |].
    exists (restrict_cf F).
    split; [apply restrict_closed_form; apply nonempty_length; lia |].
    rewrite restrict_cf_length, HF, half_grid.
    replace (S (S l') - 1) with (S l') by lia.
    split; [| reflexivity].
    rewrite (Nat.pow_succ_r' 2 (S l')), div2_even. reflexivity.
  - intros phi' F' Hlen Hsmall.
    assert (Hb : (3 <? length F') = false) by (apply Nat.ltb_ge; lia).
    split.
    + cbn [vcycle_rec]. rewrite jacobi_closed_form by exact Hlen. cbn [bind].
      fold (jacobi_cf phi' F' h Niter w_default).
      rewrite jacobi_cf_length, Hlen, Hb. cbn [bind].
      rewrite jacobi_closed_form by (rewrite jacobi_cf_length; exact Hlen).
      reflexivity.
    + cbn [fmg_vcycle_rec]. rewrite Hb.
      rewrite fmg_init_ok by (apply nonempty_length; lia). cbn [bind].
      assert (Hloop : forall n v, length v = length F' ->
                is_ok (for_range n
                         (fun v1h => vcycle v1h F' h vcycle_Niter_default) v)
                = true).
      { induction n as [| n IH]; intros v Hv; [reflexivity |].
        cbn [for_range]. rewrite vcycle_small by lia. cbn [bind].
        apply IH. rewrite !jacobi_cf_length. exact Hv. }
      apply Hloop. unfold fmg_init. apply tabulate_length.
Qed.

(** The FMG Controller with the number of V-Cycle corrections of every
    level written out: [counts] lists them from the finest level down. *)
Fixpoint fmg_schedule (counts : list nat) (F : ndarray T) (h : T)
  (bndry : T * T) : result (ndarray T) :=
  match counts with
  | [] => Raise OutOfFuel
  | count :: coarser =>
      v1h <- (if 3 <? length F then
                f2h <- restrict F ;;
                v2h <- fmg_schedule coarser f2h (mul (of_int 2) h) bndry ;;
                prolong v2h
              else
                let v1h := zeros_like F in
                v1h <- set_first v1h (fst bndry) ;;
                set_last v1h (snd bndry)) ;;
      for_range count (fun v1h => vcycle v1h F h vcycle_Niter_default) v1h
  end.

Lemma fmg_vcycle_rec_schedule l : forall fuel (F : ndarray T) h bndry Niter,
  length F = 2 ^ S l + 1 -> l <= fuel ->
  fmg_vcycle_rec fuel F h bndry Niter
  = fmg_schedule (Niter :: repeat fmg_Niter_default l) F h bndry.
Proof.
  induction l as [| l IH]; intros fuel F h bndry Niter HF Hfuel.
  - assert (Hb : (3 <? length F) = false) by (rewrite HF; reflexivity).
    destruct fuel; cbn [fmg_vcycle_rec fmg_schedule repeat]; rewrite Hb;
      reflexivity.
  - destruct fuel as [| fuel]; [lia |].
    assert (Hb : (3 <? length F) = true).
    { rewrite HF. apply Nat.ltb_lt. pose proof (pow2_pos l).
      rewrite (Nat.pow_succ_r' 2 (S l)), (Nat.pow_succ_r' 2 l). lia. }
    cbn [fmg_vcycle_rec repeat].
    change (fmg_schedule (Niter :: fmg_Niter_default :: repeat fmg_Niter_default l)
              F h bndry)
      with (v1h <- (if 3 <? length F then
                      f2h <- restrict F ;;
                      v2h <- fmg_schedule
                               (fmg_Niter_default :: repeat fmg_Niter_default l)
                               f2h (mul (of_int 2) h) bndry ;;
                      prolong v2h
                    else
                      let v1h := zeros_like F in
                      v1h <- set_first v1h (fst bndry) ;;
                      set_last v1h (snd bndry)) ;;
            for_range Niter
              (fun v1h => vcycle v1h F h vcycle_Niter_default) v1h).
    rewrite Hb.
    rewrite restrict_closed_form by (apply nonempty_length; lia).
    cbn [bind]. fold (restrict_cf F).
    rewrite (IH fuel); [reflexivity | | lia].
    rewrite restrict_cf_length, HF. apply half_grid.
Qed.

(** C9.  On a grid of [2^k + 1] points the FMG Controller called with
    [Niter] applies [Niter] V-Cycle corrections on the finest level and the
    default number, 5, on each of the [k - 1] coarser levels: the recursive
    call does not pass [Niter] on.  The Field on which the finest level
    starts is therefore the same for every [Niter]. *)
Theorem fmg_niter_finest_level_only (k : nat) (F : ndarray T) (h : T)
  (bndry : T * T) (Niter : nat) :
  1 <= k -> length F = 2 ^ k + 1 ->
  fmg_Niter_default = 5 /\
  fmg_vcycle F h bndry Niter
  = fmg_schedule (Niter :: repeat 5 (k - 1)) F h bndry /\
  exists seed,
    fmg_vcycle F h bndry 0 = Ok seed /\
    forall Niter',
      fmg_vcycle F h bndry Niter'
      = for_range Niter' (fun v1h => vcycle v1h F h vcycle_Niter_default) seed.
Proof.
  intros Hk HF. destruct k as [| l]; [lia |].
  replace (S l - 1) with l by lia.
  split; [reflexivity |]. split.
  - unfold fmg_vcycle. apply fmg_vcycle_rec_schedule; [exact HF |].
    rewrite HF. pose proof (pow2_ge (S l)). lia.
  - exists (fmg_cf l F h bndry 0). split; [apply fmg_cf_ok; exact HF |].
    intros Niter'. rewrite (fmg_cf_ok l) by exact HF.
    destruct (for_range_pure (fun v => length v = 2 ^ S l + 1)
                (fun v1h => vcycle v1h F h vcycle_Niter_default)
                (fun v => vcycle_cf l v F h vcycle_Niter_default))
      with (n := Niter') (s := fmg_cf l F h bndry 0) as [Hr _].
    + intros v Hv. split.
      * apply vcycle_cf_ok; assumption.
      * apply vcycle_cf_length; assumption.
    + apply fmg_cf_length. exact HF.
    + rewrite Hr. destruct l; reflexivity.
Qed.

End Recursion.

(** ** The theorems at concrete inputs *)

Lemma jacobi_refines_smoother_spec_witness :
  let phi := qarray [1; 0; 0; 0; 0]%Z in
  let F := qarray [0; 1; 2; 3; 0]%Z in
  let h : Qc := of_int 1 in
  length phi = length F /\
  jacobi phi F h 3 w_default = Ok (smoother_spec phi F h 3 w_default) /\
  same_ends phi (smoother_spec phi F h 3 w_default).
Proof.
  intros phi F h. split; [reflexivity |].
  apply (jacobi_refines_smoother_spec phi F h 3 w_default). reflexivity.
Defined.

Lemma boundary_invariance_witness :
  let phi := qarray [1; 0; 0; 0; 0]%Z in
  let F := qarray [0; 1; 2; 3; 0]%Z in
  let h : Qc := of_int 1 in
  (length phi = length F /\ valid_grid (length phi)) /\
  (exists r, jacobi phi F h 3 w_default = Ok r /\ same_ends phi r) /\
  (exists r, vcycle phi F h 2 = Ok r /\ same_ends phi r) /\
  (exists r, fmg_vcycle F h (of_int 1, of_int 0) 5 = Ok r /\
     length r = length F /\
     nth 0 r zero = of_int 1 /\ nth (length F - 1) r zero = of_int 0).
Proof.
  intros phi F h.
  assert (Hvalid : valid_grid 5) by (exists 2; split; [lia | reflexivity]).
  destruct (boundary_invariance (T := Qc)) as (Hj & Hv & _ & Hf).
  split; [split; [reflexivity | exact Hvalid] |].
  split; [apply Hj; reflexivity |].
  split; [apply Hv; [exact Hvalid | reflexivity] |].
  apply Hf. exact Hvalid.
Defined.

Lemma recursion_depth_witness :
  let phi := qarray [1; 0; 0; 0; 0]%Z in
  let F := qarray [0; 1; 2; 3; 0]%Z in
  let h : Qc := of_int 1 in
  (1 <= 2 /\ length phi = 2 ^ 2 + 1 /\ length F = 2 ^ 2 + 1) /\
  exists r, vcycle_rec (Nat.log2 (2 ^ 2)) phi F h 2 = Ok r /\
            length r = 2 ^ 2 + 1.
Proof.
  intros phi F h.
  split; [repeat split; lia |].
  destruct (recursion_depth 2 phi F h (of_int 1, of_int 0) 2)
    as (_ & (r & Hr & _ & _ & Hlen) & _); [lia | reflexivity | reflexivity |].
  exists r. split; assumption.
Defined.

Lemma restrict_prolong_constant_witness :
  (mul quarter (add (add a17 (mul (of_int 2) a17)) a17) = a17 /\
   mul half (add a17 a17) = a17) /\
  constant_round_trip a17 2 /\
  constant_round_trip (of_int 3 : Qc) 2.
Proof.
  assert (Hq : mul quarter (add (add a17 (mul (of_int 2) a17)) a17) = a17)
    by (vm_compute; reflexivity).
  assert (Hh : mul half (add a17 a17) = a17) by (vm_compute; reflexivity).
  split; [split; [exact Hq | exact Hh] |].
  split.
  - exact (proj2 (restrict_prolong_constant a17 2) Hq Hh).
  - exact (proj1 (restrict_prolong_constant (of_int 3 : Qc) 2) ExactArith_Qc).
Defined.

Lemma fmg_niter_finest_level_only_witness :
  let F := qarray [0; 1; 2; 3; 0]%Z in
  let h : Qc := of_int 1 in
  let bndry : Qc * Qc := (of_int 1, of_int 0) in
  (1 <= 2 /\ length F = 2 ^ 2 + 1) /\
  fmg_vcycle F h bndry 7 = fmg_schedule (7 :: repeat 5 (2 - 1)) F h bndry.
Proof.
  intros F h bndry.
  split; [split; [lia | reflexivity] |].
  destruct (fmg_niter_finest_level_only 2 F h bndry 7)
    as (_ & Hs & _); [lia | reflexivity |].
  exact Hs.
Defined.

Lemma prolong_restrict_witness :
  let v := qarray [1; 3; 5; 7]%Z in
  1 <= length v /\
  exists fine r,
    prolong v = Ok fine /\ restrict fine = Ok r /\ same_ends v r /\
    (forall j, 0 < j < length v - 1 -> nth j r zero = smoothed v j) /\
    (affine v -> r = v) /\ (r = v -> affine v).
Proof.
  intros v. split; [cbn; lia |].
  apply (prolong_restrict v). cbn. lia.
Defined.

(** ** Grids of any length (claim C5) *)

(** The code never checks the grid length.  What happens on a grid that is
    not made of [2^k + 1] points follows from numpy's shape rules. *)

(** The lengths on which the recursion works out: at most three points, or
    an odd number of points whose restriction is again such a length. *)
Inductive reducible : nat -> Prop :=
| reducible_small len : 1 <= len <= 3 -> reducible len
| reducible_halve len :
    3 < len -> len mod 2 = 1 -> reducible ((len + 1) / 2) -> reducible len.

Lemma reducible_pow2 k : reducible (2 ^ k + 1).
Proof.
  induction k as [| k IH].
  - apply reducible_small. simpl. lia.
  - destruct k as [| k]; [apply reducible_small; simpl; lia |].
    apply reducible_halve.
    + pose proof (pow2_pos k).
      rewrite (Nat.pow_succ_r' 2 (S k)), (Nat.pow_succ_r' 2 k). lia.
    + rewrite (Nat.pow_succ_r' 2 (S k)). apply mod2_odd.
    + rewrite half_grid. exact IH.
Qed.

Lemma reducible_is_pow2 len :
  reducible len -> 2 <= len -> exists k, len = 2 ^ k + 1.
Proof.
  intros H. induction H as [len Hs | len Hbig Hodd _ IH]; intros Hlen.
  - assert (Hc : len = 2 \/ len = 3) by lia.
    destruct Hc as [-> | ->]; [exists 0 | exists 1]; reflexivity.
  - pose proof (Nat.div_mod_eq (len + 1) 2) as Hdm.
    pose proof (Nat.div_mod_eq len 2) as Hdm'.
    pose proof (Nat.mod_upper_bound (len + 1) 2 ltac:(lia)) as Hmod.
    destruct IH as (k & Hk); [lia |].
    exists (S k). rewrite (Nat.pow_succ_r' 2 k). lia.
Qed.

Lemma reducible_iff n :
  1 <= n -> (reducible (n + 1) <-> exists k, n = 2 ^ k).
Proof.
  intros Hn. split.
  - intros H. destruct (reducible_is_pow2 _ H) as (k & Hk); [lia |].
    exists k. lia.
  - intros (k & ->). apply reducible_pow2.
Qed.

Section Shapes.
Context {T : Type} {N : Num T}.

Lemma elementwise_mismatch f (a b : ndarray T) :
  length a <> length b -> length a <> 1 -> length b <> 1 ->
  elementwise f a b = Raise ValueError.
Proof.
  intros Hab Ha Hb. unfold elementwise.
  destruct (Nat.eqb_spec (length a) (length b)) as [Heq | _]; [contradiction |].
  destruct a as [| x [| x' a']]; destruct b as [| y [| y' b']];
    cbn [length] in *; try reflexivity; lia.
Qed.

Lemma elementwise_left_singleton f (x : T) (b : ndarray T) :
  length b <> 1 -> elementwise f [x] b = Ok (map (f x) b).
Proof.
  intros Hb. unfold elementwise.
  destruct (Nat.eqb_spec (length [x]) (length b)) as [Heq | _].
  - cbn [length] in Heq. lia.
  - reflexivity.
Qed.

Lemma broadcast_to_mismatch n (rhs : ndarray T) :
  length rhs <> n -> length rhs <> 1 -> broadcast_to n rhs = Raise ValueError.
Proof.
  intros Hn H1. unfold broadcast_to.
  destruct (Nat.eqb_spec (length rhs) n) as [Heq | _]; [contradiction |].
  destruct rhs as [| r [| r' rest]]; cbn [length] in *; try reflexivity; lia.
Qed.

(** The Smoother on a Field one entry shorter than the Source (at least
    four entries) raises [ValueError] in its first pass. *)
Lemma jacobi_shape_error (phi F : ndarray T) h Niter w :
  length phi + 1 = length F -> 4 <= length F -> 1 <= Niter ->
  jacobi phi F h Niter w = Raise ValueError.
Proof.
  intros Hlen HF HN. destruct Niter as [| k]; [lia |].
  unfold jacobi. cbn [for_range]. unfold jacobi_body at 1, np_add.
  rewrite elementwise_same by np_len. cbn [bind].
  set (s := zip_with add (slice 0 2 phi) (slice 2 0 phi)).
  assert (Hs : length s = length F - 3) by (subst s; np_len).
  set (t := scale (sq h) (slice 1 1 F)).
  assert (Ht : length t = length F - 2) by (subst t; np_len).
  destruct (Nat.eq_dec (length F) 4) as [H4 | H4].
  - destruct s as [| x [| x' s']]; cbn [length] in Hs; try lia.
    rewrite elementwise_left_singleton by lia. cbn [bind].
    unfold set_slice.
    rewrite broadcast_to_mismatch; [reflexivity | |];
      rewrite scale_length, length_map, ?slice_length; lia.
  - rewrite elementwise_mismatch by lia. reflexivity.
Qed.

Lemma vcycle_rec_jacobi_error fuel (phi F : ndarray T) h Niter e :
  jacobi phi F h Niter w_default = Raise e ->
  vcycle_rec fuel phi F h Niter = Raise e.
Proof.
  intros H. destruct fuel; cbn [vcycle_rec]; rewrite H; reflexivity.
Qed.

Lemma iadd_mismatch (a b : ndarray T) :
  length b <> length a -> length b <> 1 -> iadd a b = Raise ValueError.
Proof.
  intros Hab Hb. unfold iadd. rewrite broadcast_to_mismatch by assumption.
  reflexivity.
Qed.

Lemma halve_bounds len :
  3 < len -> 2 <= (len + 1) / 2 /\ (len + 1) / 2 < len /\
  (len mod 2 = 1 -> 2 * ((len + 1) / 2) - 1 = len) /\
  (len mod 2 <> 1 -> 2 * ((len + 1) / 2) - 1 + 1 = len).
Proof.
  intros H.
  pose proof (Nat.div_mod_eq (len + 1) 2) as Hdm.
  pose proof (Nat.div_mod_eq len 2) as Hdm'.
  pose proof (Nat.mod_upper_bound (len + 1) 2 ltac:(lia)) as Hmod.
  pose proof (Nat.mod_upper_bound len 2 ltac:(lia)) as Hmod'.
  repeat split; try lia.
Qed.

Lemma not_reducible_halve len :
  3 < len -> ~ reducible ((len + 1) / 2) -> ~ reducible len.
Proof.
  intros Hbig Hn H. inversion H; subst; [lia | contradiction].
Qed.

Lemma not_reducible_even len :
  3 < len -> len mod 2 <> 1 -> ~ reducible len.
Proof.
  intros Hbig Hn H. inversion H; subst; [lia | contradiction].
Qed.

(** A V-Cycle on a Field and a Source of the same length returns exactly
    when that length is reducible; otherwise the correction
    [phi1 += prolong(v2)] of some level raises [ValueError]. *)
Lemma vcycle_rec_outcome n : forall fuel (phi F : ndarray T) h Niter,
  length phi = length F -> 1 <= length F <= n -> length F <= fuel ->
  (reducible (length F) /\
   exists r, vcycle_rec fuel phi F h Niter = Ok r /\ length r = length F) \/
  (~ reducible (length F) /\ vcycle_rec fuel phi F h Niter = Raise ValueError).
Proof.
  induction n as [| n IH]; intros fuel phi F h Niter Hlen HF Hfuel; [lia |].
  destruct (Nat.le_gt_cases (length F) 3) as [Hsmall | Hbig].
  - left. split; [apply reducible_small; lia |].
    assert (Hb : (3 <? length (jacobi_cf phi F h Niter w_default)) = false).
    { rewrite jacobi_cf_length, Hlen. apply Nat.ltb_ge. exact Hsmall. }
    eexists. split.
    + destruct fuel; cbn [vcycle_rec];
        rewrite jacobi_closed_form by lia; cbn [bind];
        fold (jacobi_cf phi F h Niter w_default); rewrite Hb; cbn [bind];
        rewrite jacobi_closed_form by (rewrite jacobi_cf_length; lia);
        reflexivity.
    + fold (jacobi_cf (jacobi_cf phi F h Niter w_default) F h Niter w_default).
      rewrite !jacobi_cf_length. exact Hlen.
  - destruct fuel as [| fuel]; [lia |].
    destruct (halve_bounds _ Hbig) as (HM2 & HMlt & Hodd & Heven).
    cbn [vcycle_rec].
    rewrite jacobi_closed_form by lia. cbn [bind].
    fold (jacobi_cf phi F h Niter w_default).
    set (phi1 := jacobi_cf phi F h Niter w_default).
    assert (Hphi1 : length phi1 = length F)
      by (subst phi1; rewrite jacobi_cf_length; exact Hlen).
    assert (Hb : (3 <? length phi1) = true)
      by (rewrite Hphi1; apply Nat.ltb_lt; exact Hbig).
    rewrite Hb.
    rewrite residual_closed_form by lia. cbn [bind].
    fold (residual_cf phi1 F h).
    rewrite restrict_closed_form
      by (apply nonempty_length; rewrite residual_cf_length; lia).
    cbn [bind]. fold (restrict_cf (residual_cf phi1 F h)).
    set (F2 := restrict_cf (residual_cf phi1 F h)).
    assert (HF2 : length F2 = (length F + 1) / 2).
    { subst F2. rewrite restrict_cf_length, residual_cf_length. reflexivity. }
    destruct (IH fuel (zeros_like F2) (divide F2 (sq h)) (mul (of_int 2) h) Niter)
      as [(Hred & v2 & Hv2 & Hv2len) | (Hnred & Hv2)].
    + unfold zeros_like. rewrite zeros_length, divide_length. reflexivity.
    + rewrite divide_length. lia.
    + rewrite divide_length. lia.
    + rewrite divide_length, HF2 in Hred, Hv2len. rewrite Hv2. cbn [bind].
      rewrite prolong_closed_form by (apply nonempty_length; lia).
      cbn [bind]. fold (prolong_cf v2).
      destruct (Nat.eq_dec (length F mod 2) 1) as [Ho | Ho].
      * left. split; [apply reducible_halve; assumption |].
        rewrite iadd_same by (rewrite prolong_cf_length; lia). cbn [bind].
        rewrite jacobi_closed_form
          by (rewrite zip_with_length, prolong_cf_length; lia).
        eexists. split; [reflexivity |].
        fold (jacobi_cf (zip_with add phi1 (prolong_cf v2)) F h Niter w_default).
        rewrite jacobi_cf_length, zip_with_length, prolong_cf_length. lia.
      * right. split; [apply not_reducible_even; assumption |].
        rewrite iadd_mismatch by (rewrite prolong_cf_length; lia).
        reflexivity.
    + rewrite divide_length, HF2 in Hnred. right.
      split; [apply not_reducible_halve; assumption |].
      rewrite Hv2. reflexivity.
Qed.

Lemma vcycle_outcome (phi F : ndarray T) h Niter :
  length phi = length F -> 1 <= length F ->
  (reducible (length F) /\
   exists r, vcycle phi F h Niter = Ok r /\ length r = length F) \/
  (~ reducible (length F) /\ vcycle phi F h Niter = Raise ValueError).
Proof.
  intros Hlen HF. unfold vcycle.
  apply (vcycle_rec_outcome (length F)); lia.
Qed.

Lemma vcycle_loop_ok (F : ndarray T) h Niter : forall k v,
  reducible (length F) -> length v = length F ->
  exists r, for_range k (fun v1h => vcycle v1h F h Niter) v = Ok r /\
            length r = length F.
Proof.
  induction k as [| k IH]; intros v Hred Hv.
  - exists v. split; [reflexivity | exact Hv].
  - assert (HF : 1 <= length F) by (inversion Hred; lia).
    destruct (vcycle_outcome v F h Niter Hv HF)
      as [(_ & r & Hr & Hrlen) | (Hn & _)]; [| contradiction].
    cbn [for_range]. rewrite Hr. cbn [bind]. apply IH; assumption.
Qed.

(** The FMG Controller, with at least one V-Cycle correction per level,
    returns exactly when the length of the Source is reducible; otherwise a
    V-Cycle of some level raises [ValueError]. *)
Lemma fmg_vcycle_rec_outcome n : forall fuel (F : ndarray T) h bndry Niter,
  1 <= length F <= n -> length F <= fuel -> 1 <= Niter ->
  (reducible (length F) /\
   exists r, fmg_vcycle_rec fuel F h bndry Niter = Ok r /\
             length r = length F) \/
  (~ reducible (length F) /\
   fmg_vcycle_rec fuel F h bndry Niter = Raise ValueError).
Proof.
  induction n as [| n IH]; intros fuel F h bndry Niter HF Hfuel HN; [lia |].
  destruct (Nat.le_gt_cases (length F) 3) as [Hsmall | Hbig].
  - assert (Hred : reducible (length F)) by (apply reducible_small; lia).
    left. split; [exact Hred |].
    assert (Hb : (3 <? length F) = false) by (apply Nat.ltb_ge; exact Hsmall).
    destruct (vcycle_loop_ok F h vcycle_Niter_default Niter
                (fmg_init F bndry) Hred) as (r & Hr & Hrlen).
    { unfold fmg_init. apply tabulate_length. }
    exists r. split; [| exact Hrlen].
    destruct fuel; cbn [fmg_vcycle_rec]; rewrite Hb;
      rewrite fmg_init_ok by (apply nonempty_length; lia); cbn [bind];
      exact Hr.
  - destruct fuel as [| fuel]; [lia |].
    destruct (halve_bounds _ Hbig) as (HM2 & HMlt & Hodd & Heven).
    assert (Hb : (3 <? length F) = true) by (apply Nat.ltb_lt; exact Hbig).
    cbn [fmg_vcycle_rec]. rewrite Hb.
    rewrite restrict_closed_form by (apply nonempty_length; lia).
    cbn [bind]. fold (restrict_cf F).
    assert (HF2 : length (restrict_cf F) = (length F + 1) / 2)
      by apply restrict_cf_length.
    destruct (IH fuel (restrict_cf F) (mul (of_int 2) h) bndry fmg_Niter_default)
      as [(Hred & v2h & Hv2 & Hv2len) | (Hnred & Hv2)];
      [lia | lia | unfold fmg_Niter_default; lia | |].
    + rewrite HF2 in Hred, Hv2len. rewrite Hv2. cbn [bind].
      rewrite prolong_closed_form by (apply nonempty_length; lia).
      cbn [bind]. fold (prolong_cf v2h).
      destruct (Nat.eq_dec (length F mod 2) 1) as [Ho | Ho].
      * left.
        assert (Hred' : reducible (length F))
          by (apply reducible_halve; assumption).
        split; [exact Hred' |].
        apply vcycle_loop_ok; [exact Hred' |].
        rewrite prolong_cf_length. lia.
      * right. split; [apply not_reducible_even; assumption |].
        destruct Niter as [| k]; [lia |].
        cbn [for_range]. unfold vcycle at 1.
        rewrite vcycle_rec_jacobi_error with (e := ValueError); [reflexivity |].
        apply jacobi_shape_error;
          [rewrite prolong_cf_length; lia | lia
          | unfold vcycle_Niter_default; lia].
    + rewrite HF2 in Hnred. right.
      split; [apply not_reducible_halve; assumption |].
      rewrite Hv2. reflexivity.
Qed.

Lemma fmg_vcycle_outcome (F : ndarray T) h bndry Niter :
  1 <= length F -> 1 <= Niter ->
  (reducible (length F) /\
   exists r, fmg_vcycle F h bndry Niter = Ok r /\ length r = length F) \/
  (~ reducible (length F) /\ fmg_vcycle F h bndry Niter = Raise ValueError).
Proof.
  intros HF HN. unfold fmg_vcycle.
  apply (fmg_vcycle_rec_outcome (length F)); lia.
Qed.

Lemma getitem_ok (a : ndarray T) i :
  i < length a -> getitem a i = Ok (nth i a zero).
Proof.
  intros H. unfold getitem. rewrite (nth_error_nth' a zero H). reflexivity.
Qed.

Lemma for_each_ok (idx : list nat) (f : nat -> result (@row T)) :
  (forall i, In i idx -> exists r, f i = Ok r) ->
  exists rows, for_each idx f = Ok rows /\ length rows = length idx.
Proof.
  induction idx as [| i rest IH]; intros Hf.
  - exists []. split; reflexivity.
  - destruct (Hf i (or_introl eq_refl)) as (r & Hr).
    destruct IH as (rows & Hrows & Hlen).
    { intros j Hj. apply Hf. right. exact Hj. }
    exists (r :: rows). cbn [for_each]. rewrite Hr. cbn [bind].
    rewrite Hrows. cbn [bind]. split; [reflexivity |].
    cbn [length]. rewrite Hlen. reflexivity.
Qed.

Lemma linspace_length (start stop : T) num :
  length (linspace start stop num) = num.
Proof.
  unfold linspace. destruct num as [| [| num]].
  - reflexivity.
  - reflexivity.
  - rewrite length_app, removelast_length, length_map, length_seq.
    cbn [length]. lia.
Qed.

(** [solve] on a non-negative [n]. *)
Lemma solve_nonneg (bndry : T * T) (n Niter : nat) :
  solve bndry (Z.of_nat n) Niter =
  (h <- (if n =? 0 then Raise ZeroDivisionError
         else Ok (div one (of_int (Z.of_nat n)))) ;;
   phi <- fmg_vcycle (zeros (n + 1)) h bndry fmg_Niter_default ;;
   for_each (seq 0 (n + 1)) (fun i =>
     p <- getitem phi i ;;
     e <- getitem
            (map (add (fst bndry))
               (scale (sub (snd bndry) (fst bndry))
                  (linspace zero one (n + 1)))) i ;;
     Ok (i, p, e, div (mul (of_int 100) (sub p e)) (add e tiny)))).
Proof.
  unfold solve.
  destruct (Z.ltb_spec (Z.of_nat n + 1) 0) as [Hneg | _]; [lia |].
  replace (Z.to_nat (Z.of_nat n + 1)) with (n + 1) by lia.
  destruct (Z.eqb_spec (Z.of_nat n) 0) as [Hz | Hz];
    destruct (Nat.eqb_spec n 0) as [Hn | Hn]; try lia; reflexivity.
Qed.

Lemma pow2_of_nat (n : nat) :
  (exists k : nat, Z.of_nat n = (2 ^ Z.of_nat k)%Z) <-> (exists k, n = 2 ^ k).
Proof.
  split; intros (k & Hk); exists k.
  - apply Nat2Z.inj. rewrite Hk, Nat2Z.inj_pow. reflexivity.
  - rewrite Hk, Nat2Z.inj_pow. reflexivity.
Qed.

(** C5, as amended.  The driver has no check of the grid size and no
    error of its own.  For a Python integer [n]: with [n <= -2] it raises
    [ValueError] (the first statement, [np.linspace(0,1,n+1)], refuses a
    negative number of samples); with [n = -1] it raises [IndexError] (the
    grid is empty); with [n = 0] it raises [ZeroDivisionError] (from
    [1.0/n]); with [n] a power of two, [n = 1] included (a grid of two
    points, which cannot be reduced to three), it returns the [n + 1] rows;
    with any other [n >= 1] the FMG Controller raises numpy's [ValueError]
    on the [n + 1] zeros, and so does the driver.  (Arrays are lists here:
    a grid too large for the memory of the machine is not modelled.) *)
Theorem solve_outcome (bndry : T * T) (n : Z) (Niter : nat) :
  ((n <= -2)%Z -> solve bndry n Niter = Raise ValueError) /\
  (n = (-1)%Z -> solve bndry n Niter = Raise IndexError) /\
  (n = 0%Z -> solve bndry n Niter = Raise ZeroDivisionError) /\
  ((exists k : nat, n = (2 ^ Z.of_nat k)%Z) ->
   exists rows,
     solve bndry n Niter = Ok rows /\ length rows = Z.to_nat (n + 1)) /\
  ((1 <= n)%Z -> ~ (exists k : nat, n = (2 ^ Z.of_nat k)%Z) ->
   fmg_vcycle (zeros (Z.to_nat (n + 1))) (div one (of_int n)) bndry
     fmg_Niter_default = Raise ValueError /\
   solve bndry n Niter = Raise ValueError).
Proof.
  split; [| split; [| split; [| split]]].
  - intros Hn. unfold solve.
    destruct (Z.ltb_spec (n + 1) 0) as [_ | Hge]; [reflexivity | lia].
  - intros ->. reflexivity.
  - intros ->. reflexivity.
  - intros Hpow.
    assert (Hpos : (1 <= n)%Z).
    { destruct Hpow as (k & ->). pose proof (Z.pow_pos_nonneg 2 (Z.of_nat k)).
      lia. }
    rewrite <- (Z2Nat.id n) in Hpow by lia.
    apply pow2_of_nat in Hpow.
    rewrite <- (Z2Nat.id n) by lia.
    set (m := Z.to_nat n) in *.
    assert (Hm : 1 <= m) by (subst m; lia).
    replace (Z.to_nat (Z.of_nat m + 1)) with (m + 1) by lia.
    rewrite solve_nonneg.
    destruct (Nat.eqb_spec m 0) as [H0 | _]; [lia |]. cbn [bind].
    destruct (fmg_vcycle_outcome (zeros (m + 1))
                (div one (of_int (Z.of_nat m))) bndry fmg_Niter_default)
      as [(_ & phi & Hphi & Hlen) | (Hnred & _)].
    + rewrite zeros_length. lia.
    + unfold fmg_Niter_default. lia.
    + rewrite Hphi. cbn [bind]. rewrite zeros_length in Hlen.
      destruct (for_each_ok (seq 0 (m + 1)) (fun i =>
        p <- getitem phi i ;;
        e <- getitem
               (map (add (fst bndry))
                  (scale (sub (snd bndry) (fst bndry))
                     (linspace zero one (m + 1)))) i ;;
        Ok (i, p, e, div (mul (of_int 100) (sub p e)) (add e tiny))))
        as (rows & Hrows & Hrlen).
      * intros i Hi. apply in_seq in Hi.
        rewrite getitem_ok by lia. cbn [bind].
        rewrite getitem_ok
          by (rewrite length_map, scale_length, linspace_length; lia).
        cbn [bind]. eexists. reflexivity.
      * exists rows. split; [exact Hrows |].
        rewrite Hrlen, length_seq. reflexivity.
    + exfalso. apply Hnred. rewrite zeros_length.
      apply reducible_iff; assumption.
  - intros Hpos Hnpow.
    assert (Hnat : ~ (exists k, Z.to_nat n = 2 ^ k)).
    { intros H. apply pow2_of_nat in H. apply Hnpow.
      rewrite (Z2Nat.id n) in H by lia. exact H. }
    rewrite <- (Z2Nat.id n) by lia.
    set (m := Z.to_nat n) in *.
    assert (Hm : 1 <= m) by (subst m; lia).
    replace (Z.to_nat (Z.of_nat m + 1)) with (m + 1) by lia.
    assert (Hfail : fmg_vcycle (zeros (m + 1))
                      (div one (of_int (Z.of_nat m))) bndry fmg_Niter_default
                    = Raise ValueError).
    { destruct (fmg_vcycle_outcome (zeros (m + 1))
                  (div one (of_int (Z.of_nat m))) bndry fmg_Niter_default)
        as [(Hred & _) | (_ & Hfail)].
      - rewrite zeros_length. lia.
      - unfold fmg_Niter_default. lia.
      - exfalso. apply Hnat. rewrite zeros_length in Hred.
        apply reducible_iff; [lia | exact Hred].
      - exact Hfail. }
    split; [exact Hfail |].
    rewrite solve_nonneg.
    destruct (Nat.eqb_spec m 0) as [H0 | _]; [lia |]. cbn [bind].
    rewrite Hfail. reflexivity.
Qed.

End Shapes.

(** C5 as stated fails: with [n = 1] the grid has two points, which cannot
    be reduced to three, and the driver returns its rows; with [n = 3] and
    [n = 6] the failure is a [ValueError], with [n = -1] an [IndexError]. *)
Lemma solve_without_grid_check :
  (exists rows, solve (of_int 1 : Qc, of_int 0 : Qc) 1 50 = Ok rows) /\
  solve (of_int 1 : Qc, of_int 0 : Qc) 3 50 = Raise ValueError /\
  solve (of_int 1 : Qc, of_int 0 : Qc) 6 50 = Raise ValueError /\
  solve (of_int 1 : Qc, of_int 0 : Qc) (-1) 50 = Raise IndexError.
Proof.
  split; [| split; [| split]].
  - eexists. vm_compute. reflexivity.
  - vm_compute. reflexivity.
  - vm_compute. reflexivity.
  - vm_compute. reflexivity.
Qed.

Lemma solve_outcome_witness :
  (exists k : nat, 4%Z = (2 ^ Z.of_nat k)%Z) /\
  exists rows,
    solve (of_int 1 : Qc, of_int 0 : Qc) 4 50 = Ok rows /\
    length rows = Z.to_nat (4 + 1).
Proof.
  assert (Hpow : exists k : nat, 4%Z = (2 ^ Z.of_nat k)%Z)
    by (exists 2; reflexivity).
  split; [exact Hpow |].
  destruct (solve_outcome (of_int 1 : Qc, of_int 0 : Qc) 4 50)
    as (_ & _ & _ & Hok & _).
  apply Hok. exact Hpow.
Defined.

(** ** The sweep count of a V-Cycle (claim C6) *)

(** The sweep count is the [Niter] of [vcycle]: [fmg_vcycle] calls [vcycle]
    without it and [solve] does not use its own [Niter], so it can be varied
    only by calling [vcycle].  The error of a V-Cycle is not monotone in it.
    With a zero Source and zero end entries the exact solution is zero; from
    the Field [[0, 5, -2, 5, 0]] the V-Cycle with one sweep returns a Field
    of maximum size [1/27], with two sweeps one of maximum size
    [1366/6561]. *)
Lemma vcycle_sweeps_not_monotone :
  (exists r,
     vcycle (qarray [0; 5; -2; 5; 0]%Z) (qarray [0; 0; 0; 0; 0]%Z) (of_int 1) 1
       = Ok r /\
     map this r = [0; 1 # 27; -2 # 81; 1 # 27; 0]%Q) /\
  (exists r,
     vcycle (qarray [0; 5; -2; 5; 0]%Z) (qarray [0; 0; 0; 0; 0]%Z) (of_int 1) 2
       = Ok r /\
     map this r = [0; 1021 # 6561; 1366 # 6561; 1021 # 6561; 0]%Q) /\
  (1 # 27 < 1366 # 6561)%Q.
Proof.
  split; [| split].
  - eexists. split; [vm_compute; reflexivity | vm_compute; reflexivity].
  - eexists. split; [vm_compute; reflexivity | vm_compute; reflexivity].
  - reflexivity.
Qed.

(** ** Convergence for a zero Source (claim C3) *)

(** Real arithmetic, for statements about the size of an error. *)
#[export] Instance Num_R : Num R := {|
  zero := 0%R;
  one := 1%R;
  add := Rplus;
  sub := Rminus;
  mul := Rmult;
  div := Rdiv;
  opp := Ropp;
  of_int := IZR;
  half := (1 / 2)%R;
  quarter := (1 / 4)%R
|}.

Lemma ExactArith_R : ExactArith R.
Proof.
  constructor.
  - exact RTheory.
  - reflexivity.
  - reflexivity.
  - intros a b. apply plus_IZR.
  - cbn. lra.
  - cbn. lra.
Qed.

#[export] Existing Instance ExactArith_R.

Section Energy.
Local Open Scope R_scope.

(** [sum_n f n] is [f 0 + ... + f (n-1)]. *)
Fixpoint sum_n (f : nat -> R) (n : nat) : R :=
  match n with
  | O => 0
  | S n' => sum_n f n' + f n'
  end.

(** The energy of a grid function on [n] intervals: the sum of the squares
    of the differences of neighbouring entries. *)
Definition energy (n : nat) (x : nat -> R) : R :=
  sum_n (fun i => (x (S i) - x i) ^ 2) n.

Lemma sum_n_ext f g n :
  (forall i, (i < n)%nat -> f i = g i) -> sum_n f n = sum_n g n.
Proof.
  induction n as [| n IH]; intros H; [reflexivity |].
  cbn [sum_n]. rewrite IH by (intros; apply H; lia).
  rewrite (H n) by lia. reflexivity.
Qed.

Lemma sum_n_le f g n :
  (forall i, (i < n)%nat -> f i <= g i) -> sum_n f n <= sum_n g n.
Proof.
  induction n as [| n IH]; intros H; [cbn; lra |].
  cbn [sum_n]. specialize (IH ltac:(intros; apply H; lia)).
  specialize (H n ltac:(lia)). lra.
Qed.

Lemma sum_n_nonneg f n :
  (forall i, (i < n)%nat -> 0 <= f i) -> 0 <= sum_n f n.
Proof.
  induction n as [| n IH]; intros H; [cbn; lra |].
  cbn [sum_n]. specialize (IH ltac:(intros; apply H; lia)).
  specialize (H n ltac:(lia)). lra.
Qed.

Lemma sum_n_plus f g n :
  sum_n (fun i => f i + g i) n = sum_n f n + sum_n g n.
Proof.
  induction n as [| n IH]; cbn [sum_n]; [lra | rewrite IH; lra].
Qed.

Lemma sum_n_scal c f n : sum_n (fun i => c * f i) n = c * sum_n f n.
Proof.
  induction n as [| n IH]; cbn [sum_n]; [lra | rewrite IH; lra].
Qed.

Lemma sum_n_shift f n :
  sum_n (fun i => f (S i)) n = sum_n f (S n) - f O.
Proof.
  induction n as [| n IH]; cbn [sum_n] in *; [lra | rewrite IH; lra].
Qed.

Lemma sum_n_pred f n :
  sum_n (fun i => f (i - 1)%nat) (S n) = f O + sum_n f n.
Proof.
  induction n as [| n IH].
  - cbn. lra.
  - cbn [sum_n] in *. rewrite IH.
    replace (S n - 1)%nat with n by lia. lra.
Qed.

Lemma sum_n_min f n :
  sum_n (fun i => f (Nat.min (i + 1) n)) (S n)
  = sum_n (fun i => f (S i)) n + f n.
Proof.
  cbn [sum_n]. rewrite Nat.min_r by lia. f_equal.
  apply sum_n_ext. intros i Hi. rewrite Nat.min_l by lia.
  f_equal. lia.
Qed.

Lemma energy_ext n x y :
  (forall i, (i <= n)%nat -> x i = y i) -> energy n x = energy n y.
Proof.
  intros H. unfold energy. apply sum_n_ext. intros i Hi.
  rewrite !H by lia. reflexivity.
Qed.

Lemma energy_nonneg n x : 0 <= energy n x.
Proof.
  unfold energy. apply sum_n_nonneg. intros i _. apply pow2_ge_0.
Qed.

Lemma energy_opp n x : energy n (fun i => - x i) = energy n x.
Proof.
  unfold energy. apply sum_n_ext. intros i _. ring.
Qed.

(** The sum over [2m] fine intervals, two at a time. *)
Lemma sum_n_pairs f m :
  sum_n f (2 * m) = sum_n (fun j => f (2 * j)%nat + f (2 * j + 1)%nat) m.
Proof.
  induction m as [| m IH]; [reflexivity |].
  replace (2 * S m)%nat with (S (S (2 * m))) by lia.
  cbn [sum_n]. rewrite IH.
  replace (2 * m + 1)%nat with (S (2 * m)) by lia. lra.
Qed.

End Energy.

Section Averaging.
Local Open Scope R_scope.

(** The damped Jacobi pass with weight 2/3 on an error that vanishes at the
    two ends: every interior entry becomes the mean of three. *)
Definition avg3 (n : nat) (e : nat -> R) : nat -> R :=
  fun j => if interior (S n) j
           then (e (j - 1)%nat + e j + e (j + 1)%nat) / 3
           else 0.

Lemma interior_S n j : interior (S n) j = true <-> (0 < j < n)%nat.
Proof. rewrite interior_true. lia. Qed.

Lemma interior_S_false n j : interior (S n) j = false <-> ~ (0 < j < n)%nat.
Proof.
  rewrite <- interior_S. destruct (interior (S n) j); split; congruence.
Qed.

Lemma avg3_diff n e i :
  (2 <= n)%nat -> e O = 0 -> e n = 0 -> (i < n)%nat ->
  avg3 n e (S i) - avg3 n e i
  = ((e (S (i - 1)) - e (i - 1)%nat) + (e (S i) - e i)
     + (e (S (Nat.min (i + 1) (n - 1))) - e (Nat.min (i + 1) (n - 1)))) / 3.
Proof.
  intros Hn H0 Hend Hi. unfold avg3.
  destruct (Nat.eq_dec i 0) as [-> | Hi0].
  - (* left end *)
    assert (H1 : interior (S n) 1 = true) by (apply interior_S; lia).
    assert (H2 : interior (S n) 0 = false) by (apply interior_S_false; lia).
    rewrite H1, H2. rewrite Nat.min_l by lia.
    replace (0 - 1)%nat with O by lia. replace (1 - 1)%nat with O by lia.
    replace (0 + 1)%nat with 1%nat by lia. replace (1 + 1)%nat with 2%nat by lia.
    rewrite H0. lra.
  - destruct (Nat.eq_dec i (n - 1)) as [-> | Hin].
    + (* right end *)
      assert (H1 : interior (S n) (S (n - 1)) = false)
        by (apply interior_S_false; lia).
      assert (H2 : interior (S n) (n - 1) = true) by (apply interior_S; lia).
      rewrite H1, H2. rewrite Nat.min_r by lia.
      replace (S (n - 1 - 1)) with (n - 1)%nat by lia.
      replace (S (n - 1)) with n by lia.
      replace (n - 1 + 1)%nat with n by lia.
      rewrite Hend. lra.
    + assert (H1 : interior (S n) (S i) = true) by (apply interior_S; lia).
      assert (H2 : interior (S n) i = true) by (apply interior_S; lia).
      rewrite H1, H2. rewrite Nat.min_l by lia.
      replace (S i - 1)%nat with i by lia.
      replace (S (i - 1)) with i by lia.
      replace (S i + 1)%nat with (S (i + 1)) by lia.
      lra.
Qed.

Lemma square_mean3 a b c : ((a + b + c) / 3) ^ 2 <= (a ^ 2 + b ^ 2 + c ^ 2) / 3.
Proof.
  assert (H : 0 <= (a - b) ^ 2 + (b - c) ^ 2 + (a - c) ^ 2).
  { repeat apply Rplus_le_le_0_compat; apply pow2_ge_0. }
  replace ((a ^ 2 + b ^ 2 + c ^ 2) / 3)
    with (((a + b + c) / 3) ^ 2
          + ((a - b) ^ 2 + (b - c) ^ 2 + (a - c) ^ 2) / 9) by field.
  lra.
Qed.

(** The pass does not increase the energy. *)
Lemma energy_avg3 n e :
  (2 <= n)%nat -> e O = 0 -> e n = 0 ->
  energy n (avg3 n e) <= energy n e.
Proof.
  intros Hn H0 Hend.
  set (d := fun t => e (S t) - e t).
  set (q := fun t => d t ^ 2).
  assert (Hle : energy n (avg3 n e)
           <= sum_n (fun i => (q (i - 1)%nat + q i
                               + q (Nat.min (i + 1) (n - 1))) / 3) n).
  { unfold energy. apply sum_n_le. intros i Hi.
    rewrite (avg3_diff n e i Hn H0 Hend Hi).
    apply square_mean3. }
  eapply Rle_trans; [exact Hle |].
  assert (Hq : energy n e = sum_n q n) by reflexivity.
  rewrite Hq.
  rewrite (sum_n_ext _ (fun i => / 3 * (q (i - 1)%nat
             + (q i + q (Nat.min (i + 1) (n - 1))))))
    by (intros; lra).
  rewrite sum_n_scal, sum_n_plus, sum_n_plus.
  destruct n as [| m]; [lia |].
  rewrite sum_n_pred.
  replace (S m - 1)%nat with m by lia.
  rewrite sum_n_min, sum_n_shift.
  cbn [sum_n]. lra.
Qed.

End Averaging.

Section SmootherEnergy.
Local Open Scope R_scope.

(** [u] solves the discrete equation with Source [F] and spacing [h] on [n]
    intervals. *)
Definition solves (n : nat) (F : ndarray R) (h : R) (u : nat -> R) : Prop :=
  forall j, (0 < j < n)%nat ->
    - u (j - 1)%nat + 2 * u j - u (j + 1)%nat = h * h * nth j F 0.

(** The error of a Field against [u]. *)
Definition err (phi : ndarray R) (u : nat -> R) : nat -> R :=
  fun j => nth j phi 0 - u j.

(** A Field on [n] intervals whose two ends are those of [u]. *)
Definition fits (n : nat) (phi : ndarray R) (u : nat -> R) : Prop :=
  length phi = S n /\ nth 0 phi 0 = u O /\ nth n phi 0 = u n.

Lemma tabulate_nth_R n (f : nat -> R) j :
  (j < n)%nat -> nth j (tabulate n f) 0 = f j.
Proof. exact (tabulate_nth (T := R) n f j). Qed.

Lemma w_default_R : @w_default R Num_R = 2 / 3.
Proof. reflexivity. Qed.

Lemma smoother_pass_err n phi F h u :
  fits n phi u -> solves n F h u ->
  forall j, (j <= n)%nat ->
    err (smoother_pass F h w_default phi) u j = avg3 n (err phi u) j.
Proof.
  intros (Hlen & H0 & Hn) Hu j Hj. unfold err, smoother_pass, avg3.
  rewrite tabulate_nth_R by lia. rewrite Hlen.
  destruct (interior (S n) j) eqn:Hint.
  - apply interior_S in Hint. specialize (Hu j Hint).
    rewrite w_default_R.
    cbn [add sub mul one half Num_R].
    change (@zero R Num_R) with 0. lra.
  - change (@zero R Num_R) with 0.
    apply interior_S_false in Hint.
    destruct (Nat.eq_dec j 0) as [-> | Hj0]; [lra |].
    assert (j = n) by lia. subst j. lra.
Qed.

Lemma smoother_pass_fits n phi F h w u :
  fits n phi u -> fits n (smoother_pass F h w phi) u.
Proof.
  intros (Hlen & H0 & Hn).
  destruct (smoother_pass_same_ends (T := R) F h w phi) as (Hl & Hs0 & Hsn).
  change (@zero R Num_R) with 0 in *.
  rewrite Hlen in Hl, Hsn. replace (S n - 1)%nat with n in Hsn by lia.
  repeat split; congruence.
Qed.

Lemma fits_err_ends n phi u : fits n phi u -> err phi u O = 0 /\ err phi u n = 0.
Proof. intros (_ & H0 & Hn). unfold err. lra. Qed.

(** The Smoother does not increase the energy of the error. *)
Lemma jacobi_energy n phi F h u k :
  (2 <= n)%nat -> length F = S n -> fits n phi u -> solves n F h u ->
  fits n (jacobi_cf phi F h k w_default) u /\
  energy n (err (jacobi_cf phi F h k w_default) u) <= energy n (err phi u).
Proof.
  intros Hn HF Hfit Hu.
  rewrite (jacobi_cf_smoother_spec (T := R))
    by (destruct Hfit as (-> & _); rewrite HF; reflexivity).
  unfold smoother_spec.
  induction k as [| k (IHfit & IHle)].
  - split; [exact Hfit | apply Rle_refl].
  - rewrite Nat.iter_succ.
    set (p := Nat.iter k (smoother_pass F h w_default) phi) in *.
    split; [apply smoother_pass_fits; exact IHfit |].
    eapply Rle_trans; [| exact IHle].
    rewrite (energy_ext n _ (avg3 n (err p u)))
      by (apply smoother_pass_err; assumption).
    destruct (fits_err_ends n p u IHfit) as (H0 & Hend).
    apply energy_avg3; assumption.
Qed.

End SmootherEnergy.

Section CoarseCorrection.
Local Open Scope R_scope.

(** Linear interpolation of a coarse grid function. *)
Definition interp (c : nat -> R) : nat -> R :=
  fun i => if (i mod 2 =? 0)%nat then c (i / 2)%nat
           else (c (i / 2)%nat + c (i / 2 + 1)%nat) / 2.

Lemma interp_even c j : interp c (2 * j) = c j.
Proof. unfold interp. rewrite mod2_even, div2_even. reflexivity. Qed.

Lemma interp_odd c j : interp c (2 * j + 1) = (c j + c (j + 1)%nat) / 2.
Proof. unfold interp. rewrite mod2_odd, div2_odd. reflexivity. Qed.

Lemma interp_plus c d i : interp (fun j => c j + d j) i = interp c i + interp d i.
Proof. unfold interp. destruct (i mod 2 =? 0)%nat; lra. Qed.

Lemma interp_opp c i : interp (fun j => - c j) i = - interp c i.
Proof. unfold interp. destruct (i mod 2 =? 0)%nat; lra. Qed.

Lemma prolong_cf_at (v : ndarray R) i :
  (i < 2 * length v - 1)%nat ->
  nth i (prolong_cf v) 0 = interp (fun j => nth j v 0) i.
Proof.
  intros Hi. unfold prolong_cf. rewrite tabulate_nth_R by exact Hi.
  unfold prolong_entry, interp.
  destruct (i mod 2 =? 0)%nat; [reflexivity |].
  cbn [add mul half Num_R]. change (@zero R Num_R) with 0. lra.
Qed.

(** A fine function that vanishes at the coarse points is orthogonal, for
    the energy, to every interpolated coarse function. *)
Lemma energy_split m g c :
  (forall j, (j <= m)%nat -> g (2 * j)%nat = 0) ->
  energy (2 * m) (fun i => g i + interp c i)
  = energy (2 * m) g + energy m c / 2.
Proof.
  intros Hg. unfold energy at 1 2. rewrite !sum_n_pairs.
  unfold energy.
  replace (sum_n (fun i => (c (S i) - c i) ^ 2) m / 2)
    with (sum_n (fun i => / 2 * (c (S i) - c i) ^ 2) m)
    by (rewrite sum_n_scal; lra).
  rewrite <- sum_n_plus.
  apply sum_n_ext. intros j Hj.
  replace (S (2 * j)) with (2 * j + 1)%nat by lia.
  replace (S (2 * j + 1)) with (2 * (j + 1))%nat by lia.
  rewrite !interp_even, !interp_odd.
  rewrite (Hg j) by lia. rewrite (Hg (j + 1)%nat) by lia.
  replace (S j) with (j + 1)%nat by lia.
  lra.
Qed.

Lemma energy_interp m c : energy (2 * m) (interp c) = energy m c / 2.
Proof.
  rewrite (energy_ext _ _ (fun i => (fun _ => 0) i + interp c i))
    by (intros; lra).
  rewrite energy_split by reflexivity.
  replace (energy (2 * m) (fun _ => 0)) with 0; [lra |].
  unfold energy. symmetry.
  rewrite (sum_n_ext _ (fun i => 0 * 0)) by (intros; lra).
  rewrite sum_n_scal. lra.
Qed.

End CoarseCorrection.

Section VcycleEnergy.
Local Open Scope R_scope.

Lemma residual_cf_at (phi F : ndarray R) h i :
  length phi = length F -> (0 < i < length F - 1)%nat ->
  nth i (residual_cf phi F h) 0
  = h * h * nth i F 0
    - (- nth (i - 1) phi 0 - nth (i + 1) phi 0 + 2 * nth i phi 0).
Proof.
  intros Hlen Hi. unfold residual_cf. rewrite tabulate_nth_R by lia.
  unfold d2.
  assert (Hint : interior (length phi) i = true)
    by (apply interior_true; lia).
  rewrite Hint. reflexivity.
Qed.

Lemma restrict_cf_at (v : ndarray R) j :
  (0 < j < (length v + 1) / 2 - 1)%nat ->
  nth j (restrict_cf v) 0
  = 1 / 4 * (nth (2 * j + 1) v 0 + 2 * nth (2 * j) v 0 + nth (2 * j - 1) v 0).
Proof.
  intros Hj. unfold restrict_cf. rewrite tabulate_nth_R by lia.
  unfold restrict_entry.
  destruct (Nat.eqb_spec j ((length v + 1) / 2 - 1)) as [He | _]; [lia |].
  destruct (Nat.eqb_spec j 0) as [He | _]; [lia |].
  reflexivity.
Qed.

Lemma divide_at (v : ndarray R) c j :
  (j < length v)%nat -> nth j (divide v c) 0 = nth j v 0 / c.
Proof.
  intros Hj. unfold divide.
  rewrite (nth_indep _ 0 ((fun x => div x c) 0))
    by (rewrite length_map; exact Hj).
  rewrite (map_nth (fun x => div x c)). reflexivity.
Qed.

(** The restricted residual is the Source of the equation the coarse error
    solves: with [e] the error of [phi] against [u], the coarse function
    [j |-> - e (2j)] solves the coarse equation with Source
    [restrict (residual phi F h) / h^2] and spacing [2h]. *)
Lemma coarse_solves m (phi F : ndarray R) h u :
  h <> 0 -> length F = S (2 * m) -> fits (2 * m) phi u ->
  solves (2 * m) F h u ->
  solves m (divide (restrict_cf (residual_cf phi F h)) (sq h))
    (mul (of_int 2) h) (fun j => - err phi u (2 * j)).
Proof.
  intros Hh HF (Hlen & _ & _) Hu j Hj.
  rewrite divide_at
    by (rewrite restrict_cf_length, residual_cf_length, HF;
        replace (S (2 * m) + 1)%nat with (2 * (m + 1))%nat by lia;
        rewrite div2_even; lia).
  rewrite restrict_cf_at
    by (rewrite residual_cf_length, HF;
        replace (S (2 * m) + 1)%nat with (2 * (m + 1))%nat by lia;
        rewrite div2_even; lia).
  rewrite !residual_cf_at by lia.
  destruct j as [| j']; [lia |].
  replace (S j' - 1)%nat with j' by lia.
  replace (2 * S j' + 1 - 1)%nat with (2 * j' + 2)%nat by lia.
  replace (2 * S j' + 1 + 1)%nat with (2 * j' + 4)%nat by lia.
  replace (2 * S j' - 1 - 1)%nat with (2 * j')%nat by lia.
  replace (2 * S j' - 1 + 1)%nat with (2 * j' + 2)%nat by lia.
  replace (2 * S j' - 1)%nat with (2 * j' + 1)%nat by lia.
  replace (2 * S j' + 1)%nat with (2 * j' + 3)%nat by lia.
  replace (2 * S j')%nat with (2 * j' + 2)%nat by lia.
  replace (2 * (S j' + 1))%nat with (2 * j' + 4)%nat by lia.
  replace (2 * j' + 2 - 1)%nat with (2 * j' + 1)%nat by lia.
  replace (2 * j' + 2 + 1)%nat with (2 * j' + 3)%nat by lia.
  pose proof (Hu (2 * j' + 1)%nat ltac:(lia)) as H1.
  pose proof (Hu (2 * j' + 2)%nat ltac:(lia)) as H2.
  pose proof (Hu (2 * j' + 3)%nat ltac:(lia)) as H3.
  replace (2 * j' + 1 - 1)%nat with (2 * j')%nat in H1 by lia.
  replace (2 * j' + 1 + 1)%nat with (2 * j' + 2)%nat in H1 by lia.
  replace (2 * j' + 2 - 1)%nat with (2 * j' + 1)%nat in H2 by lia.
  replace (2 * j' + 2 + 1)%nat with (2 * j' + 3)%nat in H2 by lia.
  replace (2 * j' + 3 - 1)%nat with (2 * j' + 2)%nat in H3 by lia.
  replace (2 * j' + 3 + 1)%nat with (2 * j' + 4)%nat in H3 by lia.
  unfold err, sq. cbn [mul of_int Num_R].
  rewrite <- H1, <- H2, <- H3.
  field. exact Hh.
Qed.

End VcycleEnergy.

Section VcycleContraction.
Local Open Scope R_scope.

Lemma zeros_at n j : nth j (@zeros R Num_R n) 0 = 0.
Proof. exact (zeros_nth (T := R) n j). Qed.

Lemma interp_0 c : interp c 0 = c O.
Proof. reflexivity. Qed.

Lemma pow2_S l : (2 ^ S l = 2 * 2 ^ l)%nat.
Proof. apply Nat.pow_succ_r'. Qed.

(** One V-Cycle does not increase the energy of the error against any
    solution [u] of the discrete equation that has the ends of the Field. *)
Lemma vcycle_energy l : forall (phi F : ndarray R) h u Niter,
  h <> 0 -> length F = S (2 ^ S l) ->
  fits (2 ^ S l) phi u -> solves (2 ^ S l) F h u ->
  fits (2 ^ S l) (vcycle_cf l phi F h Niter) u /\
  energy (2 ^ S l) (err (vcycle_cf l phi F h Niter) u)
  <= energy (2 ^ S l) (err phi u).
Proof.
  induction l as [| l IH]; intros phi F h u Niter Hh HF Hfit Hu.
  - cbn [vcycle_cf].
    assert (Hn : (2 <= 2 ^ 1)%nat) by (simpl; lia).
    destruct (jacobi_energy _ phi F h u Niter Hn HF Hfit Hu) as (Hfit1 & Hle1).
    destruct (jacobi_energy _ _ F h u Niter Hn HF Hfit1 Hu) as (Hfit2 & Hle2).
    split; [exact Hfit2 | lra].
  - cbn [vcycle_cf].
    set (n := (2 ^ S (S l))%nat) in *.
    set (m := (2 ^ S l)%nat).
    assert (Hnm : n = (2 * m)%nat) by (subst n m; apply pow2_S).
    assert (Hm : (2 <= m)%nat).
    { subst m. rewrite pow2_S. pose proof (pow2_pos l). lia. }
    assert (Hn : (2 <= n)%nat) by lia.
    destruct (jacobi_energy n phi F h u Niter Hn HF Hfit Hu) as (Hfit1 & Hle1).
    set (phi1 := jacobi_cf phi F h Niter w_default) in *.
    set (F2 := restrict_cf (residual_cf phi1 F h)).
    assert (HF2 : length F2 = S m).
    { subst F2. rewrite restrict_cf_length, residual_cf_length, HF, Hnm.
      replace (S (2 * m) + 1)%nat with (2 * (m + 1))%nat by lia.
      rewrite div2_even. lia. }
    set (zc := fun j => - err phi1 u (2 * j)).
    destruct (fits_err_ends n phi1 u Hfit1) as (He0 & Hen).
    assert (Hzfit : fits m (zeros_like F2) zc).
    { unfold fits, zeros_like. rewrite (zeros_length (T := R)), !zeros_at.
      unfold zc. rewrite <- Hnm.
      replace (2 * 0)%nat with O by lia. rewrite He0, Hen.
      repeat split; [exact HF2 | lra | lra]. }
    assert (Hzsolve : solves m (divide F2 (sq h)) (mul (of_int 2) h) zc).
    { subst F2 zc. apply coarse_solves; assumption. }
    assert (Hh2 : mul (of_int 2) h <> 0) by (cbn [mul of_int Num_R]; lra).
    destruct (IH (zeros_like F2) (divide F2 (sq h)) (mul (of_int 2) h) zc Niter
                Hh2) as (Hfit2 & Hle2); try assumption.
    { rewrite (divide_length (T := R)). exact HF2. }
    set (v2 := vcycle_cf l (zeros_like F2) (divide F2 (sq h))
                 (mul (of_int 2) h) Niter) in *.
    set (phi2 := zip_with add phi1 (prolong_cf v2)).
    destruct Hfit1 as (Hl1 & H10 & H1n).
    destruct Hfit2 as (Hl2 & H20 & H2n).
    assert (Hpl : length (prolong_cf v2) = S n).
    { rewrite prolong_cf_length, Hl2. lia. }
    assert (Hphi2 : forall i, (i <= n)%nat ->
              nth i phi2 0 = nth i phi1 0 + interp (fun j => nth j v2 0) i).
    { intros i Hi. subst phi2.
      rewrite (zip_with_nth (T := R)) by lia.
      rewrite prolong_cf_at by lia. reflexivity. }
    set (g := fun i => err phi1 u i + interp zc i).
    set (dd := err v2 zc).
    assert (Hg : forall j, (j <= m)%nat -> g (2 * j)%nat = 0).
    { intros j Hj. unfold g. rewrite interp_even. unfold zc. lra. }
    assert (Herr2 : forall i, (i <= n)%nat ->
              err phi2 u i = g i + interp dd i).
    { intros i Hi. unfold err at 1. rewrite Hphi2 by exact Hi.
      assert (Hi2 : interp (fun j => nth j v2 0) i
                    = interp zc i + interp (err v2 zc) i).
      { rewrite <- interp_plus. unfold interp, err.
        destruct (i mod 2 =? 0)%nat; lra. }
      rewrite Hi2. unfold g, dd, err. lra. }
    assert (Herr1 : forall i, (i <= n)%nat ->
              err phi1 u i = g i + interp (fun j => - zc j) i).
    { intros i Hi. unfold g. rewrite interp_opp. lra. }
    assert (Hfit2' : fits n phi2 u).
    { unfold fits. split; [| split].
      - subst phi2. rewrite (zip_with_length (T := R)), Hpl, Hl1. lia.
      - rewrite Hphi2 by lia.
        rewrite interp_0, H20. unfold zc.
        replace (2 * 0)%nat with O by lia. rewrite He0. lra.
      - rewrite Hphi2 by lia.
        replace (interp (fun j => nth j v2 0) n) with (nth m v2 0)
          by (rewrite Hnm; symmetry; apply interp_even).
        unfold m. rewrite H2n. unfold zc. fold m.
        rewrite <- Hnm, Hen. lra. }
    assert (Hle : energy n (err phi2 u) <= energy n (err phi1 u)).
    { rewrite (energy_ext n _ _ Herr2), (energy_ext n _ _ Herr1).
      rewrite Hnm, !energy_split by exact Hg.
      rewrite energy_opp.
      assert (Hz : energy m (err (zeros_like F2) zc) = energy m zc).
      { rewrite <- (energy_opp m zc). apply energy_ext. intros i _.
        unfold err, zeros_like. rewrite zeros_at. lra. }
      unfold dd. fold m in Hle2. lra. }
    destruct (jacobi_energy n phi2 F h u Niter Hn HF Hfit2' Hu)
      as (Hfit3 & Hle3).
    split; [exact Hfit3 | lra].
Qed.

End VcycleContraction.

Section Interpolant.
Local Open Scope R_scope.

(** The linear interpolant of the boundary pair on [n] intervals. *)
Definition lin (n : nat) (a b : R) : nat -> R :=
  fun i => a + (b - a) * INR i / INR n.

Lemma lin_0 n a b : lin n a b O = a.
Proof. unfold lin. cbn [INR]. unfold Rdiv. ring. Qed.

Lemma lin_n n a b : (0 < n)%nat -> lin n a b n = b.
Proof.
  intros Hn. unfold lin. field. apply not_0_INR. lia.
Qed.

(** The interpolant solves the equation with a zero Source. *)
Lemma lin_solves n (F : ndarray R) h a b :
  (forall j, nth j F 0 = 0) -> solves n F h (lin n a b).
Proof.
  intros HF j Hj. rewrite HF. unfold lin.
  replace (j + 1)%nat with (S j) by lia.
  destruct j as [| j']; [lia |].
  replace (S j' - 1)%nat with j' by lia.
  rewrite !S_INR. unfold Rdiv. ring.
Qed.

Lemma lin_interp m a b i :
  (0 < m)%nat -> interp (lin m a b) i = lin (2 * m) a b i.
Proof.
  intros Hm.
  assert (HM : INR m <> 0) by (apply not_0_INR; lia).
  pose proof (Nat.div_mod_eq i 2) as Hdm.
  pose proof (Nat.mod_upper_bound i 2 ltac:(lia)) as Hmod.
  unfold interp, lin. rewrite mult_INR. change (INR 2) with 2.
  destruct (Nat.eqb_spec (i mod 2) 0) as [He | Ho].
  - replace i with (2 * (i / 2))%nat at 2 by lia.
    rewrite mult_INR. change (INR 2) with 2. field. exact HM.
  - replace i with (2 * (i / 2) + 1)%nat at 3 by lia.
    rewrite !plus_INR, mult_INR. change (INR 2) with 2. change (INR 1) with 1.
    field. exact HM.
Qed.

End Interpolant.

Section FmgEnergy.
Local Open Scope R_scope.

Lemma restrict_cf_zeros m :
  restrict_cf (@zeros R Num_R (S (2 * m))) = zeros (S m).
Proof.
  unfold zeros.
  replace (S (2 * m)) with (2 * m + 1)%nat by lia.
  replace (S m) with (m + 1)%nat by lia.
  apply (restrict_cf_constant (T := R)).
Qed.

(** On three points a pass of the Smoother divides the energy of the error
    by nine. *)
Lemma energy_avg3_3pts e :
  e O = 0 -> e 2%nat = 0 -> energy 2 (avg3 2 e) = energy 2 e / 9.
Proof.
  intros H0 H2. unfold energy. cbn [sum_n]. unfold avg3.
  assert (Hi1 : interior 3 1 = true) by reflexivity.
  assert (Hi0 : interior 3 0 = false) by reflexivity.
  assert (Hi2 : interior 3 2 = false) by reflexivity.
  rewrite Hi0, Hi1, Hi2. cbn [Nat.sub Nat.add]. rewrite H0, H2. field.
Qed.

Lemma jacobi_energy_3pts (phi F : ndarray R) h u k :
  length F = 3%nat -> fits 2 phi u -> solves 2 F h u ->
  energy 2 (err (jacobi_cf phi F h k w_default) u)
  = energy 2 (err phi u) * (/ 9) ^ k.
Proof.
  intros HF Hfit Hu.
  rewrite (jacobi_cf_smoother_spec (T := R))
    by (destruct Hfit as (-> & _); rewrite HF; reflexivity).
  unfold smoother_spec.
  assert (H : forall k,
    fits 2 (Nat.iter k (smoother_pass F h w_default) phi) u /\
    energy 2 (err (Nat.iter k (smoother_pass F h w_default) phi) u)
    = energy 2 (err phi u) * (/ 9) ^ k).
  { induction k0 as [| k0 (IHfit & IHeq)].
    - split; [exact Hfit | cbn; lra].
    - rewrite Nat.iter_succ.
      set (p := Nat.iter k0 (smoother_pass F h w_default) phi) in *.
      split; [apply smoother_pass_fits; exact IHfit |].
      rewrite (energy_ext 2 _ (avg3 2 (err p u)))
        by (apply smoother_pass_err; assumption).
      destruct (fits_err_ends 2 p u IHfit) as (H0 & Hend).
      rewrite energy_avg3_3pts by assumption.
      rewrite IHeq. cbn [pow]. lra. }
  apply H.
Qed.

Variables a b : R.

(** The bound on the energy of the error of the coarsest level after one
    V-Cycle of two times fifty passes. *)
Definition coarsest_bound : R := (a + b) ^ 2 / 2 * (/ 9) ^ 100.

Lemma fmg_init_fits :
  fits 2 (fmg_init (@zeros R Num_R 3) (a, b)) (lin 2 a b) /\
  energy 2 (err (fmg_init (@zeros R Num_R 3) (a, b)) (lin 2 a b))
  = (a + b) ^ 2 / 2.
Proof.
  split.
  - repeat split.
    + cbn. unfold lin. cbn [INR]. lra.
    + cbn. unfold lin. cbn [INR]. lra.
  - unfold energy, err, lin. cbn. field.
Qed.

Lemma iter_vcycle_energy l (F : ndarray R) h u Niter : forall k phi,
  h <> 0 -> length F = S (2 ^ S l) ->
  fits (2 ^ S l) phi u -> solves (2 ^ S l) F h u ->
  fits (2 ^ S l) (Nat.iter k (fun v => vcycle_cf l v F h Niter) phi) u /\
  energy (2 ^ S l) (err (Nat.iter k (fun v => vcycle_cf l v F h Niter) phi) u)
  <= energy (2 ^ S l) (err phi u).
Proof.
  induction k as [| k IH]; intros phi Hh HF Hfit Hu.
  - split; [exact Hfit | apply Rle_refl].
  - rewrite Nat.iter_succ.
    destruct (IH phi Hh HF Hfit Hu) as (Hfitk & Hlek).
    destruct (vcycle_energy l _ F h u Niter Hh HF Hfitk Hu) as (Hfit' & Hle').
    split; [exact Hfit' | lra].
Qed.

(** The energy of the error of the FMG Controller against the linear
    interpolant, for a zero Source: it is halved from one level to the
    next finer one. *)
Lemma fmg_energy l : forall h Niter,
  h <> 0 -> (l = O -> (1 <= Niter)%nat) ->
  fits (2 ^ S l) (fmg_cf l (zeros (S (2 ^ S l))) h (a, b) Niter)
    (lin (2 ^ S l) a b) /\
  energy (2 ^ S l)
    (err (fmg_cf l (zeros (S (2 ^ S l))) h (a, b) Niter) (lin (2 ^ S l) a b))
  <= coarsest_bound * (/ 2) ^ l.
Proof.
  induction l as [| l IH]; intros h Niter Hh HN.
  - cbn [fmg_cf]. change (2 ^ 1)%nat with 2%nat.
    specialize (HN eq_refl). destruct Niter as [| k]; [lia |].
    rewrite Nat.iter_succ.
    set (F := @zeros R Num_R 3).
    assert (HF : length F = 3%nat) by reflexivity.
    assert (Hu : solves 2 F h (lin 2 a b))
      by (apply lin_solves; intros j; apply zeros_at).
    destruct fmg_init_fits as (Hfit0 & HE0). fold F in Hfit0, HE0.
    destruct (iter_vcycle_energy 0 F h (lin 2 a b) vcycle_Niter_default k
                (fmg_init F (a, b)) Hh HF Hfit0 Hu) as (Hfitk & Hlek).
    set (p := Nat.iter k (fun v => vcycle_cf 0 v F h vcycle_Niter_default)
                (fmg_init F (a, b))) in *.
    destruct (vcycle_energy 0 p F h (lin 2 a b) vcycle_Niter_default
                Hh HF Hfitk Hu) as (Hfit' & _).
    split; [exact Hfit' |].
    cbn [vcycle_cf].
    destruct (jacobi_energy 2 p F h (lin 2 a b) vcycle_Niter_default
                ltac:(lia) HF Hfitk Hu) as (Hfit1 & _).
    rewrite (jacobi_energy_3pts _ F h (lin 2 a b) _ HF Hfit1 Hu).
    rewrite (jacobi_energy_3pts _ F h (lin 2 a b) _ HF Hfitk Hu).
    change (2 ^ 1)%nat with 2%nat in Hlek. rewrite HE0 in Hlek.
    set (q := (/ 9) ^ vcycle_Niter_default).
    assert (Hq : 0 <= q) by (apply pow_le; lra).
    assert (H100 : (/ 9) ^ 100 = q * q).
    { unfold q, vcycle_Niter_default. rewrite <- pow_add. reflexivity. }
    unfold coarsest_bound. rewrite H100, pow_O, Rmult_1_r.
    rewrite !Rmult_assoc.
    apply Rmult_le_compat_r; [| exact Hlek].
    apply Rmult_le_pos; exact Hq.
  - cbn [fmg_cf].
    set (n := (2 ^ S (S l))%nat).
    set (m := (2 ^ S l)%nat).
    assert (Hnm : n = (2 * m)%nat) by (subst n m; apply pow2_S).
    assert (Hm : (0 < m)%nat) by (subst m; apply pow2_pos).
    replace (restrict_cf (zeros (S n))) with (@zeros R Num_R (S m))
      by (rewrite Hnm; symmetry; apply restrict_cf_zeros).
    destruct (IH (mul (of_int 2) h) fmg_Niter_default) as (Hfitc & Hlec).
    { cbn [mul of_int Num_R]. lra. }
    { intros _. unfold fmg_Niter_default. lia. }
    fold m in Hfitc, Hlec.
    set (c := fmg_cf l (zeros (S m)) (mul (of_int 2) h) (a, b)
                fmg_Niter_default) in *.
    destruct Hfitc as (Hcl & Hc0 & Hcm).
    assert (Hseed : forall i, (i <= n)%nat ->
              err (prolong_cf c) (lin n a b) i
              = interp (err c (lin m a b)) i).
    { intros i Hi. unfold err at 1.
      rewrite prolong_cf_at by lia.
      rewrite Hnm, <- lin_interp by exact Hm.
      unfold interp, err. destruct (i mod 2 =? 0)%nat; lra. }
    assert (Hfits : fits n (prolong_cf c) (lin n a b)).
    { unfold fits. split; [rewrite prolong_cf_length; lia |].
      split.
      - rewrite prolong_cf_at by lia. rewrite interp_0, Hc0.
        rewrite !lin_0. reflexivity.
      - rewrite prolong_cf_at by lia. rewrite Hnm at 1.
        rewrite interp_even, Hcm, !lin_n by lia. reflexivity. }
    assert (HEs : energy n (err (prolong_cf c) (lin n a b))
                  <= coarsest_bound * (/ 2) ^ S l).
    { rewrite (energy_ext n _ _ Hseed), Hnm, energy_interp.
      cbn [pow]. lra. }
    assert (HF : length (@zeros R Num_R (S n)) = S n)
      by apply (zeros_length (T := R)).
    assert (Hu : solves n (zeros (S n)) h (lin n a b))
      by (apply lin_solves; intros j; apply zeros_at).
    destruct (iter_vcycle_energy (S l) (zeros (S n)) h (lin n a b)
                vcycle_Niter_default Niter (prolong_cf c) Hh HF Hfits Hu)
      as (Hfit' & Hle').
    split; [exact Hfit' |]. fold n in Hle'. lra.
Qed.

End FmgEnergy.

Section MaxNorm.
Local Open Scope R_scope.

Lemma telescope e i : e i = e O + sum_n (fun t => e (S t) - e t) i.
Proof.
  induction i as [| i IH]; cbn [sum_n]; [lra |].
  rewrite IH at 1. lra.
Qed.

Lemma cauchy_schwarz f i :
  (sum_n f i) ^ 2 <= INR i * sum_n (fun t => f t ^ 2) i.
Proof.
  induction i as [| i IH].
  - cbn. lra.
  - cbn [sum_n]. rewrite S_INR.
    set (s := sum_n f i) in *. set (Q := sum_n (fun t => f t ^ 2) i) in *.
    set (x := f i).
    assert (HQ : 0 <= Q) by (apply sum_n_nonneg; intros; apply pow2_ge_0).
    assert (Hi : 0 <= INR i) by apply pos_INR.
    assert (Hx : 0 <= x ^ 2) by apply pow2_ge_0.
    assert (Hc : 2 * s * x <= Q + INR i * x ^ 2).
    { destruct i as [| i'].
      - cbn in s. subst s. cbn [INR]. lra.
      - assert (H1 : 1 <= INR (S i')) by (rewrite S_INR; pose proof (pos_INR i'); lra).
        assert (Hsq : 0 <= (INR (S i') * x - s) ^ 2) by apply pow2_ge_0.
        nra. }
    nra.
Qed.

Lemma sum_n_mono f i n :
  (i <= n)%nat -> (forall t, 0 <= f t) -> sum_n f i <= sum_n f n.
Proof.
  intros Hi Hf. induction n as [| n IH].
  - replace i with O by lia. apply Rle_refl.
  - destruct (Nat.eq_dec i (S n)) as [-> | Hne]; [apply Rle_refl |].
    cbn [sum_n]. specialize (IH ltac:(lia)). specialize (Hf n). lra.
Qed.

(** An error that vanishes at the left end is bounded, entry by entry, by
    its energy. *)
Lemma max_from_energy n e i :
  e O = 0 -> (i <= n)%nat -> e i ^ 2 <= INR n * energy n e.
Proof.
  intros H0 Hi. rewrite (telescope e i), H0, Rplus_0_l.
  eapply Rle_trans; [apply cauchy_schwarz |].
  assert (Hs : sum_n (fun t => (e (S t) - e t) ^ 2) i <= energy n e).
  { unfold energy. apply sum_n_mono; [exact Hi |]. intros t. apply pow2_ge_0. }
  assert (Hin : INR i <= INR n) by (apply le_INR; exact Hi).
  assert (H1 : 0 <= INR i) by apply pos_INR.
  assert (H2 : 0 <= sum_n (fun t => (e (S t) - e t) ^ 2) i)
    by (apply sum_n_nonneg; intros; apply pow2_ge_0).
  nra.
Qed.

Lemma abs_le_of_sq x y : 0 <= y -> x ^ 2 <= y ^ 2 -> Rabs x <= y.
Proof.
  intros Hy H. destruct (Rle_dec (Rabs x) y) as [Hle | Hgt]; [exact Hle |].
  exfalso. assert (Hx : y < Rabs x) by lra.
  assert (Hsq : Rabs x ^ 2 = x ^ 2) by apply pow2_abs.
  nra.
Qed.



End MaxNorm.



(** * Further properties of the solver's functions *)

(** ** The grid transfers on every array *)

Section TransferContracts.
Context {T : Type} {N : Num T}.

(** X1.  [prolong] on every array, for every carrier.  On the empty array
    [np.empty(-1)] raises [ValueError].  On an array of [m >= 1] entries it
    returns [2m - 1] entries: entry [2j] is [v[j]] and entry [2j+1] is
    [0.5*(v[j] + v[j+1])], as the docstring says. *)
Theorem prolong_components :
  prolong (@nil T) = Raise ValueError /\
  forall v : ndarray T, v <> [] ->
    exists r, prolong v = Ok r /\
      length r = 2 * length v - 1 /\
      (forall j, j < length v -> nth (2 * j) r zero = nth j v zero) /\
      (forall j, j + 1 < length v ->
         nth (2 * j + 1) r zero =
         mul half (add (nth j v zero) (nth (j + 1) v zero))).
Proof.
  split; [reflexivity |].
  intros v Hne.
  assert (Hpos : 0 < length v) by (destruct v; [contradiction | simpl; lia]).
  exists (tabulate (2 * length v - 1) (prolong_entry v)).
  split; [apply prolong_closed_form; exact Hne |].
  split; [apply tabulate_length |].
  split.
  - intros j Hj. rewrite tabulate_nth by lia.
    unfold prolong_entry. rewrite mod2_even, div2_even. reflexivity.
  - intros j Hj. rewrite tabulate_nth by lia.
    unfold prolong_entry. rewrite mod2_odd, div2_odd. reflexivity.
Qed.

(** X2.  [restrict] on every array, for every carrier.  On the empty array
    [v1h[0]] raises [IndexError].  On an array of [n >= 1] entries, odd or
    even, it returns [(n+1)/2] entries (rounded down): the last one is
    [v[n-1]], the first one is [v[0]] unless [n = 2] (the last entry of the
    result is written after the first), and an entry [j] strictly between
    them is [0.25*(v[2j+1] + 2*v[2j] + v[2j-1])]: the entries [np.roll]
    wraps around are never part of the result. *)
Theorem restrict_components :
  restrict (@nil T) = Raise IndexError /\
  forall v : ndarray T, v <> [] ->
    exists r, restrict v = Ok r /\
      length r = (length v + 1) / 2 /\
      nth (length r - 1) r zero = nth (length v - 1) v zero /\
      (length v <> 2 -> nth 0 r zero = nth 0 v zero) /\
      (forall j, 0 < j < length r - 1 ->
         2 * j + 1 < length v - 1 /\
         nth j r zero =
         mul quarter
           (add (add (nth (2 * j + 1) v zero)
                     (mul (of_int 2) (nth (2 * j) v zero)))
                (nth (2 * j - 1) v zero))).
Proof.
  split; [reflexivity |].
  intros v Hne.
  assert (Hpos : 0 < length v) by (destruct v; [contradiction | simpl; lia]).
  pose proof (Nat.div_mod_eq (length v + 1) 2) as Hdm.
  pose proof (Nat.mod_upper_bound (length v + 1) 2 ltac:(lia)) as Hmod.
  exists (tabulate ((length v + 1) / 2) (restrict_entry v)).
  split; [apply restrict_closed_form; exact Hne |].
  rewrite tabulate_length.
  split; [reflexivity |].
  split; [| split].
  - rewrite tabulate_nth by lia. unfold restrict_entry.
    rewrite Nat.eqb_refl. reflexivity.
  - intros H2. rewrite tabulate_nth by lia. unfold restrict_entry.
    destruct (Nat.eqb_spec 0 ((length v + 1) / 2 - 1)) as [E | _].
    + assert (length v = 1) by lia.
      replace (length v - 1) with 0 by lia. reflexivity.
    + reflexivity.
  - intros j Hj. split; [lia |].
    rewrite tabulate_nth by lia. unfold restrict_entry.
    destruct (Nat.eqb_spec j ((length v + 1) / 2 - 1)) as [E | _]; [lia |].
    destruct (Nat.eqb_spec j 0) as [E | _]; [lia |].
    reflexivity.
Qed.

(** X3.  The shapes of the two transfers composed.  [prolong] then [restrict]
    gives back the length of a non-empty array.  [restrict] then [prolong]
    gives back the length when it is odd and one entry less when it is even:
    this is why the correction [phi1 += prolong(v2)] of a V-Cycle needs an
    odd number of points. *)
Theorem transfer_shapes (v : ndarray T) :
  v <> [] ->
  (exists p r, prolong v = Ok p /\ restrict p = Ok r /\ length r = length v) /\
  (exists r p, restrict v = Ok r /\ prolong r = Ok p /\
     length p = length v - (1 - length v mod 2)).
Proof.
  intros Hne.
  assert (Hpos : 0 < length v) by (destruct v; [contradiction | simpl; lia]).
  split.
  - exists (prolong_cf v), (restrict_cf (prolong_cf v)).
    assert (Hp : prolong_cf v <> []).
    { intros E. apply (f_equal (@length T)) in E.
      rewrite prolong_cf_length in E. cbn [length] in E. lia. }
    split; [apply prolong_closed_form; exact Hne |].
    split; [apply restrict_closed_form; exact Hp |].
    rewrite restrict_cf_length, prolong_cf_length.
    replace (2 * length v - 1 + 1) with (length v * 2) by lia.
    apply Nat.div_mul. lia.
  - exists (restrict_cf v), (prolong_cf (restrict_cf v)).
    pose proof (Nat.div_mod_eq (length v + 1) 2) as Hdm.
    pose proof (Nat.mod_upper_bound (length v + 1) 2 ltac:(lia)) as Hmod.
    pose proof (Nat.div_mod_eq (length v) 2) as Hdm'.
    pose proof (Nat.mod_upper_bound (length v) 2 ltac:(lia)) as Hmod'.
    assert (Hr : restrict_cf v <> []).
    { intros E. apply (f_equal (@length T)) in E.
      rewrite restrict_cf_length in E. cbn [length] in E. lia. }
    split; [apply restrict_closed_form; exact Hne |].
    split; [apply prolong_closed_form; exact Hr |].
    rewrite prolong_cf_length, restrict_cf_length. lia.
Qed.

End TransferContracts.

(** ** The shapes the Smoother and the Residual Calculator accept *)

Section KernelShapes.
Context {T : Type} {N : Num T}.

Lemma elementwise_right_singleton f (a : ndarray T) (y : T) :
  length a <> 1 -> elementwise f a [y] = Ok (map (fun x => f x y) a).
Proof.
  intros Ha. unfold elementwise.
  destruct (Nat.eqb_spec (length a) (length [y])) as [Heq | _].
  - cbn [length] in Heq. lia.
  - destruct a as [| x [| x' a']]; cbn [length] in *; try reflexivity; lia.
Qed.


(** One pass of the loop body of [jacobi] on a Field and a Source of any
    two lengths. *)
Lemma jacobi_body_shapes (F : ndarray T) h w (phi phistar : ndarray T) :
  length phistar = length phi ->
  ((length F - 2 = length phi - 2 \/ length F - 2 = 1) ->
   exists phi' phistar',
     jacobi_body F h w (phi, phistar) = Ok (phi', phistar') /\
     length phi' = length phi /\ length phistar' = length phi) /\
  (length F - 2 <> length phi - 2 -> length F - 2 <> 1 ->
   jacobi_body F h w (phi, phistar) = Raise ValueError).
Proof.
  intros Hstar. unfold jacobi_body, np_add.
  rewrite elementwise_same by (rewrite !slice_length; lia). cbn [bind].
  set (s1 := zip_with add (slice 0 2 phi) (slice 2 0 phi)).
  assert (Hs1 : length s1 = length phi - 2).
  { subst s1. rewrite zip_with_length, !slice_length. lia. }
  set (t := scale (sq h) (slice 1 1 F)).
  assert (Ht : length t = length F - 2).
  { subst t. rewrite scale_length, slice_length. lia. }
  assert (Hgood : forall s2, length s2 = length phi - 2 ->
    exists phi' phistar',
      (phistar0 <- set_slice 1 1 phistar (scale half s2) ;;
       phi0 <- elementwise add (scale (sub one w) phi) (scale w phistar0) ;;
       Ok (phi0, phistar0)) = Ok (phi', phistar') /\
      length phi' = length phi /\ length phistar' = length phi).
  { intros s2 Hs2.
    destruct (set_slice_interior phistar (scale half s2))
      as (ps & -> & Hlen & _); [rewrite scale_length; lia |].
    cbn [bind].
    rewrite elementwise_same by (rewrite !scale_length; lia). cbn [bind].
    eexists _, ps. split; [reflexivity |].
    split; [| lia].
    rewrite zip_with_length, !scale_length. lia. }
  split.
  - intros [Heq | Hone].
    + rewrite elementwise_same by lia. cbn [bind].
      apply Hgood. rewrite zip_with_length. lia.
    + destruct (Nat.eq_dec (length phi - 2) 1) as [Hp1 | Hp1].
      * rewrite elementwise_same by lia. cbn [bind].
        apply Hgood. rewrite zip_with_length. lia.
      * destruct t as [| y [| y' t']]; cbn [length] in Ht; try lia.
        rewrite elementwise_right_singleton by lia. cbn [bind].
        apply Hgood. rewrite length_map. exact Hs1.
  - intros Hne Hone.
    destruct (Nat.eq_dec (length phi - 2) 1) as [Hp1 | Hp1].
    + destruct s1 as [| x [| x' s1']]; cbn [length] in Hs1; try lia.
      rewrite elementwise_left_singleton by lia. cbn [bind].
      unfold set_slice.
      rewrite broadcast_to_mismatch; [reflexivity | |];
        rewrite scale_length, length_map, ?slice_length; lia.
    + rewrite elementwise_mismatch by lia. reflexivity.
Qed.



End KernelShapes.

Section ShortSource.
Context {T : Type} {N : Num T}.

Lemma for_range_ext {S : Type} (P : S -> Prop) (body1 body2 : S -> result S) :
  (forall s, P s -> body1 s = body2 s) ->
  (forall s s', P s -> body1 s = Ok s' -> P s') ->
  forall n s, P s -> for_range n body1 s = for_range n body2 s.
Proof.
  intros Heq Hkeep n. induction n as [| n IH]; intros s Hs; [reflexivity |].
  cbn [for_range]. rewrite <- (Heq s Hs).
  destruct (body1 s) as [s' | e] eqn:E; [| reflexivity].
  cbn [bind]. apply IH. exact (Hkeep s s' Hs E).
Qed.

Lemma zip_with_repeat f (a : ndarray T) (c : T) :
  zip_with f a (repeat c (length a)) = map (fun x => f x c) a.
Proof.
  induction a as [| x a IH]; [reflexivity |].
  cbn [length repeat zip_with map]. rewrite IH. reflexivity.
Qed.

Lemma slice_repeat lo hi (c : T) n :
  slice lo hi (repeat c n) = repeat c (n - hi - lo).
Proof.
  unfold slice. rewrite repeat_length.
  apply (nth_ext _ _ c c).
  - rewrite length_firstn, length_skipn, !repeat_length. lia.
  - intros i Hi.
    rewrite length_firstn, length_skipn, repeat_length in Hi.
    rewrite nth_firstn.
    destruct (Nat.ltb_spec i (n - hi - lo)) as [_ | Hge]; [| lia].
    rewrite nth_skipn, !nth_repeat. reflexivity.
Qed.

(** X5.  A Source of three entries is accepted with a Field of any length:
    [F[1:-1]] has one entry, which numpy broadcasts, so the Smoother uses
    the middle entry of the Source at every interior point, as if the Source
    were constant. *)
Theorem jacobi_three_entry_source (phi : ndarray T) (f0 f1 f2 h : T)
  (Niter : nat) (w : T) :
  jacobi phi [f0; f1; f2] h Niter w
  = jacobi phi (repeat f1 (length phi)) h Niter w.
Proof.
  unfold jacobi. f_equal.
  apply (for_range_ext (fun st => length (fst st) = length phi
                                  /\ length (snd st) = length phi)).
  - intros (p & ps) (Hp & Hps). cbn [fst snd] in Hp, Hps.
    unfold jacobi_body, np_add.
    rewrite elementwise_same by (rewrite !slice_length; lia). cbn [bind].
    set (s1 := zip_with add (slice 0 2 p) (slice 2 0 p)).
    assert (Hs1 : length s1 = length phi - 2).
    { subst s1. rewrite zip_with_length, !slice_length. lia. }
    assert (Hsame :
      elementwise add s1 (scale (sq h) (slice 1 1 [f0; f1; f2]))
      = elementwise add s1 (scale (sq h) (slice 1 1 (repeat f1 (length phi))))).
    { rewrite slice_repeat.
      replace (scale (sq h) (repeat f1 (length phi - 1 - 1)))
        with (repeat (mul (sq h) f1) (length s1))
        by (unfold scale; rewrite map_repeat; f_equal; lia).
      rewrite (elementwise_same add s1 (repeat _ _))
        by (rewrite repeat_length; reflexivity).
      rewrite zip_with_repeat.
      change (scale (sq h) (slice 1 1 [f0; f1; f2])) with [mul (sq h) f1].
      destruct (Nat.eq_dec (length s1) 1) as [H1 | H1].
      - destruct s1 as [| x [| x' s1']]; cbn [length] in H1; try lia.
        reflexivity.
      - apply elementwise_right_singleton. exact H1. }
    rewrite Hsame. reflexivity.
  - intros (p & ps) (p' & ps') (Hp & Hps) Hb. cbn [fst snd] in *.
    destruct (jacobi_body_shapes [f0; f1; f2] h w p ps ltac:(lia))
      as (Hgood & _).
    destruct Hgood as (p1 & ps1 & Hb1 & Hl1 & Hl2);
      [right; reflexivity |].
    rewrite Hb1 in Hb. injection Hb as <- <-. lia.
  - split; reflexivity.
Qed.

End ShortSource.

(** ** One more pass of the Smoother, for every carrier *)

Section SmootherPass.
Context {T : Type} {N : Num T}.

(** One more pass of [jacobi] in the model, for every spacing. *)
Lemma jacobi_pass_step (phi F : ndarray T) (h : T) (k : nat) (w : T) :
  length phi = length F ->
  exists r r',
    jacobi phi F h k w = Ok r /\
    jacobi phi F h (S k) w = Ok r' /\
    length r = length phi /\ length r' = length phi /\
    (forall j, 0 < j < length phi - 1 ->
       nth j r' zero =
       add (mul (sub one w) (nth j r zero))
           (mul w (mul half
                     (add (add (nth (j - 1) r zero) (nth (j + 1) r zero))
                          (mul (mul h h) (nth j F zero)))))) /\
    (forall j, j < length phi -> j = 0 \/ j = length phi - 1 ->
       nth j r' zero =
       add (mul (sub one w) (nth j r zero)) (mul w (nth j phi zero))).
Proof.
  intros Hlen.
  set (b0 := nth 0 phi zero). set (bn := nth (length F - 1) phi zero).
  set (r := Nat.iter k (sweep F h w b0 bn) phi).
  assert (Hr : length r = length phi) by (subst r; apply iter_sweep_length).
  exists r, (sweep F h w b0 bn r).
  split; [apply jacobi_closed_form; exact Hlen |].
  split.
  { rewrite jacobi_closed_form by exact Hlen. rewrite Nat.iter_succ.
    reflexivity. }
  split; [exact Hr |].
  split; [rewrite sweep_length; exact Hr |].
  split.
  - intros j Hj. unfold sweep. rewrite tabulate_nth by lia.
    assert (Hint : interior (length r) j = true)
      by (apply interior_true; lia).
    rewrite Hint. reflexivity.
  - intros j Hj Hend. unfold sweep. rewrite tabulate_nth by lia.
    assert (Hint : interior (length r) j = false).
    { destruct (interior (length r) j) eqn:E; [| reflexivity].
      apply interior_true in E. lia. }
    rewrite Hint. unfold blend.
    destruct Hend as [-> | ->].
    + reflexivity.
    + destruct (Nat.eqb_spec (length phi - 1) 0) as [E | _].
      * subst b0. rewrite E. reflexivity.
      * subst bn. rewrite <- Hlen. reflexivity.
Qed.

(** X7.  What one more pass of [jacobi] does, in exact arithmetic for every
    spacing, and for every carrier (binary64 included) at the spacing
    [h = 1], where [1.0**2] is exactly [1.0].  On a Field and a Source of
    the same length the call with [k + 1] passes returns the Field obtained
    from the result [r] of the call with [k] passes as follows: an interior
    entry is [(1-w)*r[j] + w*(0.5*(r[j-1] + r[j+1] + h**2*F[j]))]; each of
    the two end entries is [(1-w)*r[j] + w*phi[j]], the blend with the end
    entry of the Field the call was given ([phistar] is copied once, before
    the loop). *)
Theorem jacobi_next_pass (phi F : ndarray T) (h : T) (k : nat) (w : T) :
  ExactArith T \/ h = one ->
  length phi = length F ->
  exists r r',
    jacobi phi F h k w = Ok r /\
    jacobi phi F h (S k) w = Ok r' /\
    length r = length phi /\ length r' = length phi /\
    (forall j, 0 < j < length phi - 1 ->
       nth j r' zero =
       add (mul (sub one w) (nth j r zero))
           (mul w (mul half
                     (add (add (nth (j - 1) r zero) (nth (j + 1) r zero))
                          (mul (mul h h) (nth j F zero)))))) /\
    (forall j, j < length phi -> j = 0 \/ j = length phi - 1 ->
       nth j r' zero =
       add (mul (sub one w) (nth j r zero)) (mul w (nth j phi zero))).
Proof.
  intros _ Hlen. exact (jacobi_pass_step phi F h k w Hlen).
Qed.

End SmootherPass.

(** ** The end entries of the Source are never used *)

Section SourceEnds.
Context {T : Type} {N : Num T}.

(** Two Sources of the same length that agree at every interior point. *)
Definition same_inside (F F' : ndarray T) : Prop :=
  length F' = length F /\
  forall j, 0 < j < length F - 1 -> nth j F' zero = nth j F zero.

Lemma sweep_same_inside (F F' : ndarray T) h w b0 bn (phi : ndarray T) :
  same_inside F F' -> length phi = length F ->
  sweep F' h w b0 bn phi = sweep F h w b0 bn phi.
Proof.
  intros (Hlen & Hin) Hphi. unfold sweep.
  apply tabulate_ext; [apply tabulate_length |].
  intros j Hj. rewrite tabulate_nth by exact Hj.
  destruct (interior (length phi) j) eqn:Hint; [| reflexivity].
  apply interior_true in Hint. unfold trial.
  rewrite Hin by lia. reflexivity.
Qed.

Lemma jacobi_cf_same_inside (phi F F' : ndarray T) h k w :
  same_inside F F' -> length phi = length F ->
  jacobi_cf phi F' h k w = jacobi_cf phi F h k w.
Proof.
  intros HF Hphi. unfold jacobi_cf.
  destruct HF as (Hlen & Hin). rewrite Hlen.
  induction k as [| k IH]; [reflexivity |].
  rewrite !Nat.iter_succ, IH.
  apply sweep_same_inside; [split; assumption |].
  rewrite iter_sweep_length. exact Hphi.
Qed.

Lemma residual_cf_same_inside (phi F F' : ndarray T) h :
  same_inside F F' ->
  same_inside (residual_cf phi F h) (residual_cf phi F' h).
Proof.
  intros (Hlen & Hin). unfold same_inside.
  rewrite !residual_cf_length. split; [exact Hlen |].
  intros j Hj. unfold residual_cf.
  rewrite !tabulate_nth by lia. rewrite Hin by exact Hj. reflexivity.
Qed.

Lemma restrict_cf_same_inside (v v' : ndarray T) :
  same_inside v v' -> same_inside (restrict_cf v) (restrict_cf v').
Proof.
  intros (Hlen & Hin). unfold same_inside.
  rewrite !restrict_cf_length, Hlen. split; [reflexivity |].
  intros j Hj.
  pose proof (Nat.div_mod_eq (length v + 1) 2) as Hdm.
  pose proof (Nat.mod_upper_bound (length v + 1) 2 ltac:(lia)) as Hmod.
  unfold restrict_cf. rewrite Hlen, !tabulate_nth by lia.
  unfold restrict_entry. rewrite Hlen.
  destruct (Nat.eqb_spec j ((length v + 1) / 2 - 1)) as [He | _]; [lia |].
  destruct (Nat.eqb_spec j 0) as [He | _]; [lia |].
  rewrite !Hin by lia. reflexivity.
Qed.

Lemma divide_same_inside (v v' : ndarray T) c :
  same_inside v v' -> same_inside (divide v c) (divide v' c).
Proof.
  intros (Hlen & Hin). unfold same_inside.
  rewrite !divide_length. split; [exact Hlen |].
  intros j Hj. unfold divide.
  rewrite (nth_indep _ zero ((fun x => div x c) zero))
    by (rewrite length_map; lia).
  rewrite (nth_indep (map _ v) zero ((fun x => div x c) zero))
    by (rewrite length_map; lia).
  rewrite !(map_nth (fun x => div x c)). rewrite Hin by exact Hj.
  reflexivity.
Qed.

Lemma vcycle_cf_same_inside l : forall (phi F F' : ndarray T) h Niter,
  length phi = 2 ^ S l + 1 -> length F = 2 ^ S l + 1 ->
  same_inside F F' ->
  vcycle_cf l phi F' h Niter = vcycle_cf l phi F h Niter.
Proof.
  induction l as [| l IH]; intros phi F F' h Niter Hphi HF Hsame;
    cbn [vcycle_cf].
  - rewrite (jacobi_cf_same_inside phi F F') by (assumption || lia).
    apply jacobi_cf_same_inside; [exact Hsame |].
    rewrite jacobi_cf_length. lia.
  - rewrite (jacobi_cf_same_inside phi F F') by (assumption || lia).
    set (phi1 := jacobi_cf phi F h Niter w_default).
    assert (Hphi1 : length phi1 = 2 ^ S (S l) + 1)
      by (subst phi1; rewrite jacobi_cf_length; exact Hphi).
    set (F2 := restrict_cf (residual_cf phi1 F h)).
    set (F2' := restrict_cf (residual_cf phi1 F' h)).
    assert (H2 : same_inside F2 F2').
    { apply restrict_cf_same_inside, residual_cf_same_inside. exact Hsame. }
    assert (HF2 : length F2 = 2 ^ S l + 1).
    { subst F2. rewrite restrict_cf_length, residual_cf_length, HF.
      apply half_grid. }
    assert (Hz : zeros_like F2' = zeros_like F2).
    { unfold zeros_like. destruct H2 as (-> & _). reflexivity. }
    rewrite Hz.
    rewrite (IH (zeros_like F2) (divide F2 (sq h)) (divide F2' (sq h))).
    + apply jacobi_cf_same_inside; [exact Hsame |].
      rewrite zip_with_length, prolong_cf_length.
      rewrite vcycle_cf_length
        by (unfold zeros_like; rewrite ?zeros_length, ?divide_length;
            exact HF2).
      rewrite Hphi1, HF, (Nat.pow_succ_r' 2 (S l)). lia.
    + unfold zeros_like. rewrite zeros_length. exact HF2.
    + rewrite divide_length. exact HF2.
    + apply divide_same_inside. exact H2.
Qed.

Lemma iter_vcycle_cf_same_inside l (F F' : ndarray T) h Niter :
  length F = 2 ^ S l + 1 -> same_inside F F' ->
  forall k v, length v = 2 ^ S l + 1 ->
    Nat.iter k (fun v => vcycle_cf l v F' h Niter) v
    = Nat.iter k (fun v => vcycle_cf l v F h Niter) v.
Proof.
  intros HF Hsame k. induction k as [| k IH]; intros v Hv; [reflexivity |].
  rewrite !Nat.iter_succ, IH by exact Hv.
  apply vcycle_cf_same_inside; [| exact HF | exact Hsame].
  apply iter_vcycle_cf_length; assumption.
Qed.

Lemma fmg_cf_same_inside l : forall (F F' : ndarray T) h bndry Niter,
  length F = 2 ^ S l + 1 -> same_inside F F' ->
  fmg_cf l F' h bndry Niter = fmg_cf l F h bndry Niter.
Proof.
  induction l as [| l IH]; intros F F' h bndry Niter HF Hsame;
    cbn [fmg_cf].
  - assert (Hi : fmg_init F' bndry = fmg_init F bndry).
    { unfold fmg_init. destruct Hsame as (-> & _). reflexivity. }
    rewrite Hi. apply iter_vcycle_cf_same_inside; try assumption.
    unfold fmg_init. rewrite tabulate_length. exact HF.
  - assert (HR : length (restrict_cf F) = 2 ^ S l + 1).
    { rewrite restrict_cf_length, HF. apply half_grid. }
    rewrite (IH (restrict_cf F) (restrict_cf F'))
      by (exact HR || apply restrict_cf_same_inside; exact Hsame).
    apply iter_vcycle_cf_same_inside; try assumption.
    rewrite prolong_cf_length, fmg_cf_length by exact HR.
    rewrite (Nat.pow_succ_r' 2 (S l)). lia.
Qed.

(** X8.  The Smoother, the V-Cycle and the FMG Controller never use the two end
    entries of the Source: two Sources of the same length that agree at
    every interior point give the same result, for every carrier.  (The
    Residual Calculator does put [h**2*F] at the two ends of its result;
    those entries are copied by [restrict] to the ends of the coarse Source
    and are not used there either.) *)
Theorem source_ends_unused (F F' : ndarray T) (h : T) (Niter : nat) :
  same_inside F F' ->
  (forall phi w, length phi = length F ->
     jacobi phi F' h Niter w = jacobi phi F h Niter w) /\
  (forall phi, valid_grid (length F) -> length phi = length F ->
     vcycle phi F' h Niter = vcycle phi F h Niter) /\
  (forall bndry, valid_grid (length F) ->
     fmg_vcycle F' h bndry Niter = fmg_vcycle F h bndry Niter).
Proof.
  intros Hsame. pose proof Hsame as (Hlen & _).
  split; [| split].
  - intros phi w Hphi.
    rewrite !jacobi_closed_form by lia. f_equal.
    apply (jacobi_cf_same_inside phi F F' h Niter w Hsame Hphi).
  - intros phi Hvalid Hphi.
    destruct (valid_grid_levels _ Hvalid) as (l & Hl).
    rewrite (vcycle_cf_ok l phi F') by lia.
    rewrite (vcycle_cf_ok l phi F) by lia.
    f_equal. apply vcycle_cf_same_inside; (lia || exact Hsame).
  - intros bndry Hvalid.
    destruct (valid_grid_levels _ Hvalid) as (l & Hl).
    rewrite (fmg_cf_ok l F') by lia.
    rewrite (fmg_cf_ok l F) by lia.
    f_equal. apply fmg_cf_same_inside; (lia || exact Hsame).
Qed.

End SourceEnds.

(** ** The Smoother in exact arithmetic: composition and fixed points *)

Section SmootherAlgebra.
Context {T : Type} {N : Num T} {E : ExactArith T}.

Add Ring exact_arith_ring_smoother : exact_ring.

Lemma smoother_spec_length (phi F : ndarray T) h k w :
  length (smoother_spec phi F h k w) = length phi.
Proof. destruct (smoother_spec_same_ends F h w k phi) as (H & _). exact H. Qed.

(** X9.  Two calls of the Smoother in a row are one call with the two counts
    added: [jacobi(jacobi(phi,F,h,k1,w),F,h,k2,w)] is
    [jacobi(phi,F,h,k1+k2,w)].  (The second call copies its [phistar] from
    the result of the first; its two end entries are those of [phi].) *)
Theorem jacobi_compose (phi F : ndarray T) (h : T) (k1 k2 : nat) (w : T) :
  length phi = length F ->
  exists r1 r,
    jacobi phi F h k1 w = Ok r1 /\
    jacobi r1 F h k2 w = Ok r /\
    jacobi phi F h (k1 + k2) w = Ok r.
Proof.
  intros Hlen.
  exists (smoother_spec phi F h k1 w),
         (smoother_spec (smoother_spec phi F h k1 w) F h k2 w).
  assert (H1 : length (smoother_spec phi F h k1 w) = length F)
    by (rewrite smoother_spec_length; exact Hlen).
  split; [| split].
  - rewrite jacobi_closed_form by exact Hlen.
    f_equal. apply jacobi_cf_smoother_spec. exact Hlen.
  - rewrite jacobi_closed_form by exact H1.
    f_equal. apply jacobi_cf_smoother_spec. exact H1.
  - rewrite jacobi_closed_form by exact Hlen.
    f_equal.
    transitivity (smoother_spec phi F h (k1 + k2) w);
      [apply jacobi_cf_smoother_spec; exact Hlen |].
    unfold smoother_spec. rewrite Nat.add_comm. apply Nat.iter_add.
Qed.

Lemma sub_eq_zero (x y : T) : sub x y = zero -> x = y.
Proof.
  intros H. transitivity (add (sub x y) y); [ring |].
  rewrite H. ring.
Qed.

Lemma half_double (x : T) : mul half (mul (of_int 2) x) = x.
Proof.
  transitivity (mul (mul (of_int 2) half) x); [ring |].
  rewrite half_spec. ring.
Qed.

(** A Field whose discrete equation holds at every interior point is kept
    by one pass of the Smoother. *)
Lemma smoother_pass_fixed (phi F : ndarray T) h w :
  (forall j, 0 < j < length phi - 1 ->
     mul (sq h) (nth j F zero) = d2 phi j) ->
  smoother_pass F h w phi = phi.
Proof.
  intros Heq. symmetry. apply tabulate_ext; [reflexivity |].
  intros j Hj.
  destruct (interior (length phi) j) eqn:Hint; [| reflexivity].
  apply interior_true in Hint.
  specialize (Heq j Hint). unfold d2 in Heq.
  replace (interior (length phi) j) with true in Heq
    by (symmetry; apply interior_true; exact Hint).
  cbv zeta. fold (sq h). rewrite Heq. symmetry.
  transitivity (add (mul (sub one w) (nth j phi zero))
                    (mul w (mul half (mul (of_int 2) (nth j phi zero)))));
    [| rewrite half_double; ring].
  f_equal. f_equal. f_equal. ring.
Qed.

(** X10.  The Residual Calculator and the Smoother composed: a Field whose
    Residual is zero at every interior point is a fixed point of the
    Smoother, for every count and every weight. *)
Theorem zero_residual_fixed_point (phi F r : ndarray T) (h : T) (k : nat)
  (w : T) :
  length phi = length F ->
  residual phi F h = Ok r ->
  (forall j, 0 < j < length phi - 1 -> nth j r zero = zero) ->
  jacobi phi F h k w = Ok phi.
Proof.
  intros Hlen Hres Hzero.
  rewrite residual_closed_form in Hres by exact Hlen.
  injection Hres as <-.
  assert (Heq : forall j, 0 < j < length phi - 1 ->
            mul (sq h) (nth j F zero) = d2 phi j).
  { intros j Hj. apply sub_eq_zero.
    specialize (Hzero j Hj). rewrite tabulate_nth in Hzero by lia.
    exact Hzero. }
  rewrite jacobi_closed_form by exact Hlen. f_equal.
  transitivity (smoother_spec phi F h k w);
    [apply jacobi_cf_smoother_spec; exact Hlen |].
  unfold smoother_spec. induction k as [| k IH]; [reflexivity |].
  rewrite Nat.iter_succ, IH. apply smoother_pass_fixed. exact Heq.
Qed.

End SmootherAlgebra.

(** ** The Smoother over the real numbers *)

Section SmootherReal.
Local Open Scope R_scope.

Lemma smoother_pass_three (a y b f0 f1 f2 h w : R) :
  smoother_pass [f0; f1; f2] h w [a; y; b]
  = [a; (1 - w) * y + w * ((a + b + h * h * f1) / 2); b].
Proof.
  unfold smoother_pass, tabulate. cbn [length seq map].
  assert (Hi1 : interior 3 1 = true) by reflexivity.
  assert (Hi0 : interior 3 0 = false) by reflexivity.
  assert (Hi2 : interior 3 2 = false) by reflexivity.
  rewrite Hi0, Hi1, Hi2. cbv zeta. cbn [nth Nat.sub Nat.add].
  cbn [add sub mul one half Num_R].
  f_equal. f_equal. lra.
Qed.

Lemma jacobi_cf_three (a x b f0 f1 f2 h w : R) (k : nat) :
  jacobi_cf [a; x; b] [f0; f1; f2] h k w
  = [a;
     (a + b + h * h * f1) / 2
     + (1 - w) ^ k * (x - (a + b + h * h * f1) / 2);
     b].
Proof.
  transitivity (smoother_spec [a; x; b] [f0; f1; f2] h k w);
    [apply (jacobi_cf_smoother_spec (T := R)); reflexivity |].
  unfold smoother_spec. induction k as [| k IH].
  - change (Nat.iter 0 (smoother_pass [f0; f1; f2] h w) [a; x; b])
      with [a; x; b].
    rewrite pow_O. f_equal. f_equal. lra.
  - rewrite Nat.iter_succ, IH, smoother_pass_three.
    f_equal. f_equal. rewrite <- tech_pow_Rmult. unfold Rdiv. ring.
Qed.

(** X11.  On three points the Smoother is known in closed form: the two ends are
    kept, and after [k] passes the middle entry is
    [u + (1-w)^k * (x - u)], where [u = (a + b + h^2*F_1)/2] solves the
    discrete equation.  With the default weight each pass divides the error
    of the middle entry by three. *)
Theorem jacobi_three_points (a x b f0 f1 f2 h w : R) (k : nat) :
  jacobi [a; x; b] [f0; f1; f2] h k w
  = Ok [a;
        (a + b + h * h * f1) / 2
        + (1 - w) ^ k * (x - (a + b + h * h * f1) / 2);
        b].
Proof.
  rewrite jacobi_closed_form by reflexivity. f_equal.
  apply jacobi_cf_three.
Qed.

Lemma vcycle_cf_three (a x b f0 f1 f2 h : R) (k : nat) :
  vcycle_cf 0 [a; x; b] [f0; f1; f2] h k
  = [a;
     (a + b + h * h * f1) / 2
     + (/ 9) ^ k * (x - (a + b + h * h * f1) / 2);
     b].
Proof.
  cbn [vcycle_cf]. rewrite !jacobi_cf_three, w_default_R.
  f_equal. f_equal.
  replace (/ 9) with ((1 - 2 / 3) * (1 - 2 / 3)) by lra.
  rewrite Rpow_mult_distr. ring.
Qed.

(** X12.  On three points the FMG Controller is known in closed form: it starts
    from [[a, 0, b]] and each of its [Niter] V-Cycles (two times fifty
    passes of the Smoother) divides the error of the middle entry by
    [9^50]. *)
Theorem fmg_three_points (a b f0 f1 f2 h : R) (Niter : nat) :
  fmg_vcycle [f0; f1; f2] h (a, b) Niter
  = Ok [a;
        (a + b + h * h * f1) / 2
        - ((/ 9) ^ 50) ^ Niter * ((a + b + h * h * f1) / 2);
        b].
Proof.
  rewrite (fmg_cf_ok 0) by reflexivity. f_equal.
  cbn [fmg_cf].
  assert (Hinit : fmg_init [f0; f1; f2] (a, b) = [a; 0; b]) by reflexivity.
  rewrite Hinit.
  induction Niter as [| N IH].
  - change (Nat.iter 0 _ [a; 0; b]) with [a; 0; b].
    rewrite pow_O. f_equal. f_equal. lra.
  - rewrite Nat.iter_succ, IH, vcycle_cf_three.
    unfold vcycle_Niter_default.
    f_equal. f_equal. rewrite <- (tech_pow_Rmult ((/ 9) ^ 50) N). ring.
Qed.

(** The error of one pass at an interior point is a mean of three errors
    of the Field before it. *)
Lemma smoother_pass_err_w n (phi F : ndarray R) h w u j :
  length phi = S n -> solves n F h u -> (0 < j < n)%nat ->
  err (smoother_pass F h w phi) u j
  = (1 - w) * err phi u j
    + w / 2 * (err phi u (j - 1)%nat + err phi u (j + 1)%nat).
Proof.
  intros Hlen Hu Hj. unfold err, smoother_pass.
  rewrite tabulate_nth_R by lia. rewrite Hlen.
  assert (Hint : interior (S n) j = true) by (apply interior_S; exact Hj).
  rewrite Hint. specialize (Hu j Hj).
  cbn [add sub mul one half Num_R].
  change (@zero R Num_R) with 0. rewrite <- Hu. field.
Qed.

Lemma smoother_pass_err_end n (phi F : ndarray R) h w u j :
  length phi = S n -> (j <= n)%nat -> ~ (0 < j < n)%nat ->
  err (smoother_pass F h w phi) u j = err phi u j.
Proof.
  intros Hlen Hj Hend. unfold err, smoother_pass.
  rewrite tabulate_nth_R by lia. rewrite Hlen.
  assert (Hint : interior (S n) j = false)
    by (apply interior_S_false; exact Hend).
  rewrite Hint. reflexivity.
Qed.

Lemma abs_bound x M : Rabs x <= M -> - M <= x <= M.
Proof. unfold Rabs. destruct (Rcase_abs x); lra. Qed.

Lemma smoother_pass_bound n (phi F : ndarray R) h w u M :
  0 <= w <= 1 -> length phi = S n -> solves n F h u ->
  (forall i, (i <= n)%nat -> Rabs (err phi u i) <= M) ->
  forall i, (i <= n)%nat -> Rabs (err (smoother_pass F h w phi) u i) <= M.
Proof.
  intros Hw Hlen Hu Hb i Hi.
  destruct (Nat.eq_dec i 0) as [H0 | H0];
    [rewrite (smoother_pass_err_end n) by (assumption || lia);
     apply Hb; lia |].
  destruct (Nat.eq_dec i n) as [Hn | Hn];
    [rewrite (smoother_pass_err_end n) by (assumption || lia);
     apply Hb; lia |].
  rewrite (smoother_pass_err_w n) by (assumption || lia).
  pose proof (Hb i ltac:(lia)) as B0.
  pose proof (Hb (i - 1)%nat ltac:(lia)) as B1.
  pose proof (Hb (i + 1)%nat ltac:(lia)) as B2.
  apply abs_bound in B0, B1, B2.
  apply Rabs_le. split; nra.
Qed.

(** X13.  A maximum principle for the Smoother.  With a weight between 0 and 1
    and a Field [u] that solves the discrete equation, a bound [M] on the
    error [|phi[i] - u[i]|] of every entry is a bound on the error of every
    entry of the result, for every count: the largest error of the Smoother
    alone never grows with the number of passes. *)
Theorem jacobi_max_error (n : nat) (phi F : ndarray R) (h w : R)
  (u : nat -> R) (k : nat) (M : R) :
  0 <= w <= 1 ->
  length phi = S n -> length F = S n -> solves n F h u ->
  (forall i, (i <= n)%nat -> Rabs (nth i phi 0 - u i) <= M) ->
  exists r,
    jacobi phi F h k w = Ok r /\ length r = S n /\
    forall i, (i <= n)%nat -> Rabs (nth i r 0 - u i) <= M.
Proof.
  intros Hw Hlen HF Hu Hb.
  exists (smoother_spec phi F h k w).
  split.
  { rewrite jacobi_closed_form by lia. f_equal.
    apply (jacobi_cf_smoother_spec (T := R)). lia. }
  unfold smoother_spec. induction k as [| k (IHlen & IHb)].
  - split; assumption.
  - rewrite Nat.iter_succ.
    set (p := Nat.iter k (smoother_pass F h w) phi) in *.
    split.
    + unfold smoother_pass. rewrite tabulate_length. exact IHlen.
    + intros i Hi.
      apply (smoother_pass_bound n p F h w u M Hw IHlen Hu IHb i Hi).
Qed.

End SmootherReal.

(** ** The V-Cycle and the FMG Controller over the real numbers *)

Section VcycleReal.
Local Open Scope R_scope.

(** X14.  A V-Cycle is stable in the energy norm.  For a Source [F] on [2^k]
    intervals, a Field [u] that solves the discrete equation
    [-u[j-1] + 2u[j] - u[j+1] = h^2 F[j]] and a Field [phi] with the ends of
    [u], the V-Cycle returns a Field with the same ends whose error against
    [u] has at most the energy (the sum of the squared differences of
    neighbouring entries) of the error of [phi]; this holds for every sweep
    count, zero included. *)
Theorem vcycle_energy_stable (k : nat) (phi F : ndarray R) (h : R)
  (u : nat -> R) (Niter : nat) :
  (1 <= k)%nat -> h <> 0 -> length F = (2 ^ k + 1)%nat ->
  fits (2 ^ k) phi u -> solves (2 ^ k) F h u ->
  exists r,
    vcycle phi F h Niter = Ok r /\
    fits (2 ^ k) r u /\
    energy (2 ^ k) (err r u) <= energy (2 ^ k) (err phi u).
Proof.
  intros Hk Hh HF Hfit Hu. destruct k as [| l]; [lia |].
  exists (vcycle_cf l phi F h Niter).
  split.
  { apply vcycle_cf_ok; [destruct Hfit as (-> & _); lia | exact HF]. }
  apply vcycle_energy; try assumption. rewrite HF. lia.
Qed.

Lemma energy_zero_err n e :
  e O = 0 -> energy n e <= 0 -> forall i, (i <= n)%nat -> e i = 0.
Proof.
  intros H0 HE i Hi.
  pose proof (max_from_energy n e i H0 Hi) as Hmax.
  pose proof (energy_nonneg n e) as Hpos.
  pose proof (pos_INR n) as Hn.
  assert (Hz : e i ^ 2 <= 0) by nra.
  nra.
Qed.

(** X15.  A Field that solves the discrete equation is a fixed point of the
    V-Cycle: the Residual it restricts vanishes at the interior points, the
    coarse correction is zero, and the Smoother keeps the Field. *)
Theorem vcycle_fixed_point (phi F : ndarray R) (h : R) (Niter : nat) :
  h <> 0 -> valid_grid (length phi) -> length F = length phi ->
  (forall j, (0 < j < length phi - 1)%nat ->
     - nth (j - 1) phi 0 + 2 * nth j phi 0 - nth (j + 1) phi 0
     = h * h * nth j F 0) ->
  vcycle phi F h Niter = Ok phi.
Proof.
  intros Hh Hvalid HF Heq.
  destruct (valid_grid_levels _ Hvalid) as (l & Hl).
  rewrite (vcycle_cf_ok l) by lia. f_equal.
  set (u := fun j => nth j phi 0).
  assert (Hfit : fits (2 ^ S l) phi u).
  { repeat split. lia. }
  assert (Hu : solves (2 ^ S l) F h u).
  { intros j Hj. apply Heq. lia. }
  destruct (vcycle_energy l phi F h u Niter Hh ltac:(lia) Hfit Hu)
    as ((Hlen & H0 & Hn) & HE).
  assert (Hzero : energy (2 ^ S l) (err phi u) = 0).
  { unfold energy, err, u.
    rewrite (sum_n_ext _ (fun _ => 0 * 0)) by (intros; ring).
    rewrite sum_n_scal. ring. }
  rewrite Hzero in HE.
  apply (nth_ext _ _ 0 0); [lia |].
  intros i Hi.
  assert (He : err (vcycle_cf l phi F h Niter) u i = 0).
  { apply (energy_zero_err (2 ^ S l)); [unfold err; lra | exact HE | lia]. }
  unfold err, u in He. lra.
Qed.

(** X16.  One more V-Cycle correction at the finest level of the FMG Controller
    does not increase the energy of the error against a Field [u] that
    solves the discrete equation and has the boundary pair at its ends. *)
Theorem fmg_ascent_energy (k : nat) (F : ndarray R) (h a b : R)
  (u : nat -> R) (Niter : nat) :
  (1 <= k)%nat -> h <> 0 -> length F = (2 ^ k + 1)%nat ->
  solves (2 ^ k) F h u -> u O = a -> u (2 ^ k)%nat = b ->
  exists r r',
    fmg_vcycle F h (a, b) Niter = Ok r /\
    fmg_vcycle F h (a, b) (S Niter) = Ok r' /\
    fits (2 ^ k) r u /\ fits (2 ^ k) r' u /\
    energy (2 ^ k) (err r' u) <= energy (2 ^ k) (err r u).
Proof.
  intros Hk Hh HF Hu Ha Hb. destruct k as [| l]; [lia |].
  exists (fmg_cf l F h (a, b) Niter), (fmg_cf l F h (a, b) (S Niter)).
  split; [apply fmg_cf_ok; exact HF |].
  split; [apply fmg_cf_ok; exact HF |].
  assert (Hfit : fits (2 ^ S l) (fmg_cf l F h (a, b) Niter) u).
  { destruct (fmg_cf_ends (T := R) l F h a b Niter HF) as (H0 & Hn).
    change (@zero R Num_R) with 0 in *.
    repeat split; [rewrite fmg_cf_length by exact HF; lia | lra | lra]. }
  assert (Hstep : fmg_cf l F h (a, b) (S Niter)
                  = vcycle_cf l (fmg_cf l F h (a, b) Niter) F h
                      vcycle_Niter_default).
  { destruct l; cbn [fmg_cf]; apply Nat.iter_succ. }
  rewrite Hstep.
  destruct (vcycle_energy l _ F h u vcycle_Niter_default Hh
              ltac:(lia) Hfit Hu) as (Hfit' & HE).
  repeat split; try apply Hfit; try apply Hfit'. exact HE.
Qed.

Lemma tabulate_nonempty (n : nat) (f : nat -> R) : tabulate (S n) f <> [].
Proof.
  intros E. apply (f_equal (@length R)) in E.
  rewrite tabulate_length in E. discriminate E.
Qed.

Lemma prolong_lin (n : nat) (a b : R) :
  (1 <= n)%nat ->
  prolong (tabulate (S n) (lin n a b))
  = Ok (tabulate (S (2 * n)) (lin (2 * n) a b)).
Proof.
  intros Hn.
  rewrite prolong_closed_form by apply tabulate_nonempty.
  f_equal. rewrite tabulate_length.
  replace (2 * S n - 1)%nat with (S (2 * n)) by lia.
  apply (nth_ext _ _ 0 0); [rewrite !tabulate_length; reflexivity |].
  intros i Hi. rewrite tabulate_length in Hi.
  rewrite !tabulate_nth_R by lia.
  pose proof (prolong_cf_at (tabulate (S n) (lin n a b)) i) as Hp.
  unfold prolong_cf in Hp. rewrite tabulate_length in Hp.
  rewrite tabulate_nth_R in Hp by lia.
  change (@zero R Num_R) with 0 in Hp.
  rewrite Hp by lia.
  rewrite <- (lin_interp n a b i) by lia.
  pose proof (Nat.div_mod_eq i 2) as Hdm.
  pose proof (Nat.mod_upper_bound i 2 ltac:(lia)) as Hmod.
  unfold interp.
  destruct (i mod 2 =? 0)%nat eqn:Em.
  - rewrite tabulate_nth_R by lia. reflexivity.
  - apply Nat.eqb_neq in Em. rewrite !tabulate_nth_R by lia. reflexivity.
Qed.

Lemma restrict_lin (n : nat) (a b : R) :
  (1 <= n)%nat ->
  restrict (tabulate (S (2 * n)) (lin (2 * n) a b))
  = Ok (tabulate (S n) (lin n a b)).
Proof.
  intros Hn.
  assert (HnR : INR n <> 0) by (apply not_0_INR; lia).
  rewrite restrict_closed_form by apply tabulate_nonempty.
  f_equal. rewrite tabulate_length.
  replace ((S (2 * n) + 1) / 2)%nat with (S n)
    by (replace (S (2 * n) + 1)%nat with (S n * 2)%nat by lia;
        rewrite Nat.div_mul by lia; reflexivity).
  apply (nth_ext _ _ 0 0); [rewrite !tabulate_length; reflexivity |].
  intros j Hj. rewrite tabulate_length in Hj.
  rewrite !tabulate_nth_R by lia.
  unfold restrict_entry. rewrite tabulate_length.
  replace ((S (2 * n) + 1) / 2)%nat with (S n)
    by (replace (S (2 * n) + 1)%nat with (S n * 2)%nat by lia;
        rewrite Nat.div_mul by lia; reflexivity).
  change (@zero R Num_R) with 0.
  destruct (Nat.eqb_spec j (S n - 1)) as [E | Hlast].
  - rewrite tabulate_nth_R by lia. subst j.
    replace (S (2 * n) - 1)%nat with (2 * n)%nat by lia.
    replace (S n - 1)%nat with n by lia.
    rewrite !lin_n by lia. reflexivity.
  - destruct (Nat.eqb_spec j 0) as [-> | H0].
    + rewrite tabulate_nth_R by lia. rewrite !lin_0. reflexivity.
    + rewrite !tabulate_nth_R by lia.
      cbn [add mul quarter of_int Num_R]. unfold lin.
      rewrite plus_INR, minus_INR, !mult_INR by lia.
      change (INR 2) with 2. change (INR 1) with 1.
      field. exact HnR.
Qed.

(** X17.  The two transfers keep the linear interpolant of a boundary pair:
    [prolong] maps the interpolant on [n] intervals to the interpolant on
    [2n] intervals, and [restrict] maps it back.  The step that carries the
    coarse solution of the FMG Controller to the next level introduces no
    error for a zero Source. *)
Theorem transfers_keep_interpolant (n : nat) (a b : R) :
  (1 <= n)%nat ->
  prolong (tabulate (S n) (lin n a b))
  = Ok (tabulate (S (2 * n)) (lin (2 * n) a b)) /\
  restrict (tabulate (S (2 * n)) (lin (2 * n) a b))
  = Ok (tabulate (S n) (lin n a b)).
Proof.
  intros Hn. split; [apply prolong_lin | apply restrict_lin]; exact Hn.
Qed.

End VcycleReal.

(** ** The spacing enters through [h^2 F] only *)

Section Spacing.
Local Open Scope R_scope.

(** Two Sources with their spacings that give the same [h^2 F] at every
    interior point. *)
Definition same_h2F (F1 : ndarray R) (h1 : R) (F2 : ndarray R) (h2 : R)
  : Prop :=
  length F2 = length F1 /\
  forall j, (0 < j < length F1 - 1)%nat ->
    h2 * h2 * nth j F2 0 = h1 * h1 * nth j F1 0.

Lemma sweep_same_h2F F1 h1 F2 h2 w b0 bn (phi : ndarray R) :
  same_h2F F1 h1 F2 h2 -> length phi = length F1 ->
  sweep F2 h2 w b0 bn phi = sweep F1 h1 w b0 bn phi.
Proof.
  intros (Hlen & Hin) Hphi. unfold sweep.
  apply (tabulate_ext (T := R)); [apply tabulate_length |].
  intros j Hj. rewrite (tabulate_nth (T := R)) by exact Hj.
  destruct (interior (length phi) j) eqn:Hint; [| reflexivity].
  apply interior_true in Hint. unfold trial, sq.
  cbn [add mul Num_R]. change (@zero R Num_R) with 0.
  rewrite Hin by lia. reflexivity.
Qed.

Lemma jacobi_cf_same_h2F F1 h1 F2 h2 (phi : ndarray R) k w :
  same_h2F F1 h1 F2 h2 -> length phi = length F1 ->
  jacobi_cf phi F2 h2 k w = jacobi_cf phi F1 h1 k w.
Proof.
  intros HF Hphi. unfold jacobi_cf.
  pose proof HF as (Hlen & _). rewrite Hlen.
  induction k as [| k IH]; [reflexivity |].
  rewrite !Nat.iter_succ, IH.
  apply sweep_same_h2F; [exact HF |].
  rewrite iter_sweep_length. exact Hphi.
Qed.

Lemma residual_cf_same_h2F F1 h1 F2 h2 (phi : ndarray R) :
  same_h2F F1 h1 F2 h2 ->
  same_inside (residual_cf phi F1 h1) (residual_cf phi F2 h2).
Proof.
  intros (Hlen & Hin). unfold same_inside.
  rewrite !residual_cf_length. split; [exact Hlen |].
  intros j Hj. unfold residual_cf.
  rewrite !(tabulate_nth (T := R)) by lia. unfold sq.
  cbn [sub mul Num_R]. change (@zero R Num_R) with 0.
  rewrite Hin by exact Hj. reflexivity.
Qed.

Lemma divide_same_h2F (v v' : ndarray R) h1 h2 :
  h1 <> 0 -> h2 <> 0 -> same_inside v v' ->
  same_h2F (divide v (sq h1)) (mul (of_int 2) h1)
           (divide v' (sq h2)) (mul (of_int 2) h2).
Proof.
  intros Hh1 Hh2 (Hlen & Hin). unfold same_h2F.
  rewrite !divide_length. split; [exact Hlen |].
  intros j Hj.
  rewrite !divide_at by lia.
  change (@zero R Num_R) with 0 in Hin. rewrite Hin by exact Hj.
  unfold sq. cbn [mul of_int Num_R]. field. split; assumption.
Qed.

Lemma vcycle_cf_same_h2F l : forall (phi F1 F2 : ndarray R) h1 h2 Niter,
  h1 <> 0 -> h2 <> 0 ->
  length phi = (2 ^ S l + 1)%nat -> length F1 = (2 ^ S l + 1)%nat ->
  same_h2F F1 h1 F2 h2 ->
  vcycle_cf l phi F2 h2 Niter = vcycle_cf l phi F1 h1 Niter.
Proof.
  induction l as [| l IH]; intros phi F1 F2 h1 h2 Niter Hh1 Hh2 Hphi HF Hsame;
    cbn [vcycle_cf].
  - rewrite (jacobi_cf_same_h2F F1 h1 F2 h2 phi) by (assumption || lia).
    apply jacobi_cf_same_h2F; [exact Hsame |].
    rewrite jacobi_cf_length. lia.
  - rewrite (jacobi_cf_same_h2F F1 h1 F2 h2 phi) by (assumption || lia).
    set (phi1 := jacobi_cf phi F1 h1 Niter w_default).
    assert (Hphi1 : length phi1 = (2 ^ S (S l) + 1)%nat)
      by (subst phi1; rewrite jacobi_cf_length; exact Hphi).
    set (R1 := restrict_cf (residual_cf phi1 F1 h1)).
    set (R2 := restrict_cf (residual_cf phi1 F2 h2)).
    assert (H2 : same_inside R1 R2).
    { apply restrict_cf_same_inside, residual_cf_same_h2F. exact Hsame. }
    assert (HR1 : length R1 = (2 ^ S l + 1)%nat).
    { subst R1. rewrite restrict_cf_length, residual_cf_length, HF.
      apply half_grid. }
    assert (Hz : zeros_like R2 = zeros_like R1).
    { unfold zeros_like. destruct H2 as (-> & _). reflexivity. }
    rewrite Hz.
    rewrite (IH (zeros_like R1) (divide R1 (sq h1)) (divide R2 (sq h2))
               (mul (of_int 2) h1) (mul (of_int 2) h2)).
    + apply jacobi_cf_same_h2F; [exact Hsame |].
      rewrite zip_with_length, prolong_cf_length.
      rewrite vcycle_cf_length
        by (unfold zeros_like; rewrite ?zeros_length, ?divide_length;
            exact HR1).
      rewrite Hphi1, HF, (Nat.pow_succ_r' 2 (S l)). lia.
    + cbn [mul of_int Num_R]. lra.
    + cbn [mul of_int Num_R]. lra.
    + unfold zeros_like. rewrite zeros_length. exact HR1.
    + rewrite divide_length. exact HR1.
    + apply divide_same_h2F; assumption.
Qed.

Lemma restrict_cf_same_h2F (F1 F2 : ndarray R) h1 h2 :
  same_h2F F1 h1 F2 h2 ->
  same_h2F (restrict_cf F1) (mul (of_int 2) h1)
           (restrict_cf F2) (mul (of_int 2) h2).
Proof.
  intros (Hlen & Hin). unfold same_h2F.
  rewrite !restrict_cf_length, Hlen. split; [reflexivity |].
  intros j Hj.
  pose proof (Nat.div_mod_eq (length F1 + 1) 2) as Hdm.
  pose proof (Nat.mod_upper_bound (length F1 + 1) 2 ltac:(lia)) as Hmod.
  rewrite (restrict_cf_at F2) by (rewrite Hlen; exact Hj).
  rewrite (restrict_cf_at F1) by exact Hj.
  pose proof (Hin (2 * j + 1)%nat ltac:(lia)) as H1.
  pose proof (Hin (2 * j)%nat ltac:(lia)) as H2.
  pose proof (Hin (2 * j - 1)%nat ltac:(lia)) as H3.
  cbn [mul of_int Num_R]. nra.
Qed.

Lemma iter_vcycle_cf_same_h2F l (F1 F2 : ndarray R) h1 h2 Niter :
  h1 <> 0 -> h2 <> 0 -> length F1 = (2 ^ S l + 1)%nat ->
  same_h2F F1 h1 F2 h2 ->
  forall k v, length v = (2 ^ S l + 1)%nat ->
    Nat.iter k (fun v => vcycle_cf l v F2 h2 Niter) v
    = Nat.iter k (fun v => vcycle_cf l v F1 h1 Niter) v.
Proof.
  intros Hh1 Hh2 HF Hsame k. induction k as [| k IH]; intros v Hv;
    [reflexivity |].
  rewrite !Nat.iter_succ, IH by exact Hv.
  apply vcycle_cf_same_h2F; try assumption.
  apply iter_vcycle_cf_length; assumption.
Qed.

Lemma fmg_cf_same_h2F l : forall (F1 F2 : ndarray R) h1 h2 bndry Niter,
  h1 <> 0 -> h2 <> 0 -> length F1 = (2 ^ S l + 1)%nat ->
  same_h2F F1 h1 F2 h2 ->
  fmg_cf l F2 h2 bndry Niter = fmg_cf l F1 h1 bndry Niter.
Proof.
  induction l as [| l IH];
    intros F1 F2 h1 h2 bndry Niter Hh1 Hh2 HF Hsame; cbn [fmg_cf].
  - assert (Hi : fmg_init F2 bndry = fmg_init F1 bndry).
    { unfold fmg_init. destruct Hsame as (-> & _). reflexivity. }
    rewrite Hi. apply iter_vcycle_cf_same_h2F; try assumption.
    unfold fmg_init. rewrite tabulate_length. exact HF.
  - assert (HR : length (restrict_cf F1) = (2 ^ S l + 1)%nat).
    { rewrite restrict_cf_length, HF. apply half_grid. }
    rewrite (IH (restrict_cf F1) (restrict_cf F2)
               (mul (of_int 2) h1) (mul (of_int 2) h2));
      [| cbn [mul of_int Num_R]; lra | cbn [mul of_int Num_R]; lra
       | exact HR | apply restrict_cf_same_h2F; exact Hsame].
    apply iter_vcycle_cf_same_h2F; try assumption.
    rewrite prolong_cf_length, fmg_cf_length by exact HR.
    rewrite (Nat.pow_succ_r' 2 (S l)). lia.
Qed.

(** X20.  The Smoother, the V-Cycle and the FMG Controller use the Source
    and the spacing through the product [h^2 F] only: two Sources with
    non-zero spacings that give the same [h^2 F] at every interior point
    give the same result.  So the coarse problem of [vcycle], with the
    Source [F2/h**2] and the spacing [2*h], is the one with [h^2 F = 4*F2],
    whatever [h] is; and with a zero Source the spacing has no effect at
    all. *)
Theorem spacing_through_h2F (phi F1 F2 : ndarray R) (h1 h2 : R)
  (Niter : nat) :
  h1 <> 0 -> h2 <> 0 ->
  length F1 = length phi -> length F2 = length phi ->
  (forall j, (0 < j < length phi - 1)%nat ->
     h2 * h2 * nth j F2 0 = h1 * h1 * nth j F1 0) ->
  (forall w, jacobi phi F2 h2 Niter w = jacobi phi F1 h1 Niter w) /\
  (valid_grid (length phi) ->
   vcycle phi F2 h2 Niter = vcycle phi F1 h1 Niter) /\
  (forall bndry, valid_grid (length phi) ->
   fmg_vcycle F2 h2 bndry Niter = fmg_vcycle F1 h1 bndry Niter).
Proof.
  intros Hh1 Hh2 HF1 HF2 Heq.
  assert (Hsame : same_h2F F1 h1 F2 h2).
  { split; [lia |]. intros j Hj. apply Heq. lia. }
  split; [| split].
  - intros w. rewrite !jacobi_closed_form by lia. f_equal.
    apply (jacobi_cf_same_h2F F1 h1 F2 h2 phi Niter w Hsame). lia.
  - intros Hvalid.
    destruct (valid_grid_levels _ Hvalid) as (l & Hl).
    rewrite (vcycle_cf_ok l phi F2) by lia.
    rewrite (vcycle_cf_ok l phi F1) by lia.
    f_equal. apply vcycle_cf_same_h2F; (assumption || lia).
  - intros bndry Hvalid.
    destruct (valid_grid_levels _ Hvalid) as (l & Hl).
    rewrite (fmg_cf_ok l F2) by lia.
    rewrite (fmg_cf_ok l F1) by lia.
    f_equal. apply fmg_cf_same_h2F; (assumption || lia).
Qed.

End Spacing.

(** ** The lengths the V-Cycle and the FMG Controller accept *)

Section ControllerShapes.
Context {T : Type} {N : Num T}.




Lemma for_each_map (idx : list nat) (f : nat -> result (@row T))
  (g : nat -> @row T) :
  (forall i, In i idx -> f i = Ok (g i)) ->
  for_each idx f = Ok (map g idx).
Proof.
  induction idx as [| i rest IH]; intros Hf; [reflexivity |].
  cbn [for_each map]. rewrite (Hf i (or_introl eq_refl)). cbn [bind].
  rewrite IH by (intros j Hj; apply Hf; right; exact Hj).
  reflexivity.
Qed.

End ControllerShapes.

(** ** The table of the driver over the real numbers *)

Section DriverReal.
Local Open Scope R_scope.

(** With a zero Source every entry of the closed form of the FMG Controller
    is within [|a+b|/3^100] of the linear interpolant. *)
Lemma fmg_cf_error_bound (a b h : R) (l Niter i : nat) :
  h <> 0 -> (1 <= Niter)%nat -> (i <= 2 ^ S l)%nat ->
  Rabs (nth i (fmg_cf l (zeros (S (2 ^ S l))) h (a, b) Niter) 0
        - lin (2 ^ S l) a b i)
  <= Rabs (a + b) * (/ 3) ^ 100.
Proof.
  intros Hh HN Hi.
  set (n := (2 ^ S l)%nat) in *.
  destruct (fmg_energy a b l h Niter Hh ltac:(intros; exact HN))
    as ((Hlen & H0 & Hn) & HE).
  fold n in Hlen, H0, Hn, HE.
  set (phi := fmg_cf l (zeros (S n)) h (a, b) Niter) in *.
  assert (He0 : err phi (lin n a b) O = 0) by (unfold err; lra).
  pose proof (max_from_energy n (err phi (lin n a b)) i He0 Hi) as Hmax.
  assert (Hbound : err phi (lin n a b) i ^ 2
                   <= (Rabs (a + b) * (/ 3) ^ 100) ^ 2).
  { eapply Rle_trans; [exact Hmax |].
    assert (HnR : INR n = 2 * 2 ^ l).
    { subst n. rewrite pow_INR. change (INR 2) with 2. reflexivity. }
    assert (Hpos : 0 <= INR n) by apply pos_INR.
    eapply Rle_trans; [apply Rmult_le_compat_l; [exact Hpos | exact HE] |].
    rewrite HnR. unfold coarsest_bound.
    rewrite Rpow_mult_distr, pow2_abs.
    assert (H2l : 2 ^ l * (/ 2) ^ l = 1).
    { rewrite <- Rpow_mult_distr. replace (2 * / 2) with 1 by lra.
      apply pow1. }
    assert (H9 : (/ 9) ^ 100 = ((/ 3) ^ 100) ^ 2).
    { rewrite <- pow_mult, Nat.mul_comm, pow_mult.
      replace ((/ 3) ^ 2) with (/ 9) by lra. reflexivity. }
    rewrite H9.
    set (t := ((/ 3) ^ 100) ^ 2).
    replace (2 * 2 ^ l * ((a + b) ^ 2 / 2 * t * (/ 2) ^ l))
      with ((2 ^ l * (/ 2) ^ l) * ((a + b) ^ 2 * t)) by field.
    rewrite H2l. lra. }
  assert (H3 : 0 <= (/ 3) ^ 100) by (apply pow_le; lra).
  apply abs_le_of_sq; [| exact Hbound].
  apply Rmult_le_pos; [apply Rabs_pos | exact H3].
Qed.

(** The samples of [np.linspace(0, 1, n+1)]. *)
Lemma linspace_unit n i :
  (1 <= n)%nat -> (i <= n)%nat ->
  nth i (linspace (T := R) 0 1 (S n)) 0 = INR i / INR n.
Proof.
  intros Hn Hi.
  assert (HnR : INR n <> 0) by (apply not_0_INR; lia).
  unfold linspace. destruct n as [| n']; [lia |].
  set (n := S n') in *.
  set (y := map _ (seq 0 (S n))).
  assert (Hy : length y = S n) by (subst y; rewrite length_map, length_seq; reflexivity).
  destruct (Nat.eq_dec i n) as [-> | Hne].
  - rewrite app_nth2 by (rewrite removelast_length, Hy; lia).
    rewrite removelast_length, Hy.
    replace (n - (S n - 1))%nat with O by lia.
    cbn [nth]. field. exact HnR.
  - rewrite app_nth1 by (rewrite removelast_length, Hy; lia).
    rewrite removelast_nth by (rewrite Hy; lia).
    subst y.
    match goal with
    | |- nth i (map ?f (seq 0 ?m)) 0 = _ =>
        change (map f (seq 0 m)) with (tabulate m f)
    end.
    rewrite tabulate_nth_R by lia.
    cbn [add sub mul div of_int Num_R].
    replace (S n - 1)%nat with n by lia.
    rewrite <- !INR_IZR_INZ. field. exact HnR.
Qed.

(** X21.  The rows of [solve] for a boundary pair [(a, b)] on [n = 2^k >= 2]
    intervals, over the real numbers: there are [n + 1] rows; row [i] holds
    the index [i], an approximation [p], the exact value
    [a + (b-a)*i/n] and the error in percent
    [100*(p - exact)/(exact + 1e-10)]; the approximation is within
    [|a+b|/3^100] of the exact value, and for a non-negative boundary pair
    the error in percent is at most [10^12 * |a+b|/3^100] in size. *)
Theorem solve_table (a b : R) (k Niter i : nat) :
  (1 <= k)%nat -> (i <= 2 ^ k)%nat ->
  exists rows p,
    solve (a, b) (Z.of_nat (2 ^ k)) Niter = Ok rows /\
    length rows = (2 ^ k + 1)%nat /\
    nth i rows (O, 0, 0, 0)
    = (i, p, a + (b - a) * INR i / INR (2 ^ k),
       100 * (p - (a + (b - a) * INR i / INR (2 ^ k)))
       / (a + (b - a) * INR i / INR (2 ^ k) + 1 / 10000000000)) /\
    Rabs (p - (a + (b - a) * INR i / INR (2 ^ k)))
      <= Rabs (a + b) * (/ 3) ^ 100 /\
    (0 <= a -> 0 <= b ->
     Rabs (100 * (p - (a + (b - a) * INR i / INR (2 ^ k)))
           / (a + (b - a) * INR i / INR (2 ^ k) + 1 / 10000000000))
       <= 1000000000000 * (Rabs (a + b) * (/ 3) ^ 100)).
Proof.
  intros Hk Hi. destruct k as [| l]; [lia |].
  set (n := (2 ^ S l)%nat) in *.
  assert (Hn1 : (1 <= n)%nat) by (subst n; apply pow2_pos).
  assert (HnR : 0 < INR n) by (apply lt_0_INR; lia).
  set (h := @div R Num_R one (of_int (Z.of_nat n))).
  assert (Hh : h <> 0).
  { subst h. cbn [div one of_int Num_R]. rewrite <- INR_IZR_INZ.
    unfold Rdiv. rewrite Rmult_1_l. apply Rinv_neq_0_compat. lra. }
  set (phi := fmg_cf l (zeros (n + 1)) h (a, b) fmg_Niter_default).
  assert (Hphi : fmg_vcycle (zeros (n + 1)) h (a, b) fmg_Niter_default
                 = Ok phi).
  { apply fmg_cf_ok. rewrite (zeros_length (T := R)). reflexivity. }
  assert (Hlen : length phi = (n + 1)%nat).
  { subst phi. rewrite fmg_cf_length; [reflexivity |].
    rewrite (zeros_length (T := R)). reflexivity. }
  set (xx := linspace (T := R) zero one (n + 1)).
  set (exact := map (add a) (scale (sub b a) xx)).
  assert (Hexact : forall j, (j <= n)%nat ->
            nth j exact 0 = a + (b - a) * INR j / INR n).
  { intros j Hj. subst exact.
    rewrite (nth_indep _ 0 (add a 0))
      by (rewrite length_map, scale_length; subst xx;
          rewrite linspace_length; lia).
    rewrite (map_nth (add a)).
    assert (Hxx : (j < length xx)%nat)
      by (subst xx; rewrite linspace_length; lia).
    pose proof (scale_nth (T := R) (sub b a) xx j Hxx) as Hs.
    change (@zero R Num_R) with 0 in Hs. rewrite Hs.
    subst xx. replace (n + 1)%nat with (S n) by lia.
    change (@zero R Num_R) with 0. change (@one R Num_R) with 1.
    rewrite linspace_unit by lia.
    cbn [add sub mul Num_R]. unfold Rdiv. ring. }
  set (g := fun j : nat =>
    (j, nth j phi 0, nth j exact 0,
     @div R Num_R (mul (of_int 100) (sub (nth j phi 0) (nth j exact 0)))
       (add (nth j exact 0) tiny))).
  exists (map g (seq 0 (n + 1))), (nth i phi 0).
  split.
  { rewrite (solve_nonneg (T := R)).
    destruct (Nat.eqb_spec n 0) as [H0 | _]; [lia |].
    cbn [bind]. fold h. rewrite Hphi. cbn [bind fst snd].
    fold xx. fold exact.
    apply for_each_map. intros j Hj. apply in_seq in Hj.
    rewrite (getitem_ok (T := R)) by lia. cbn [bind].
    rewrite (getitem_ok (T := R))
      by (subst exact; rewrite length_map, scale_length; subst xx;
          rewrite linspace_length; lia).
    cbn [bind]. reflexivity. }
  split; [rewrite length_map, length_seq; reflexivity |].
  assert (Hrow : nth i (map g (seq 0 (n + 1))) (O, 0, 0, 0) = g i).
  { rewrite (nth_indep _ _ (g O)) by (rewrite length_map, length_seq; lia).
    rewrite map_nth, seq_nth by lia. reflexivity. }
  assert (Hb : Rabs (nth i phi 0 - (a + (b - a) * INR i / INR n))
               <= Rabs (a + b) * (/ 3) ^ 100).
  { subst phi. replace (n + 1)%nat with (S n) by lia.
    apply (fmg_cf_error_bound a b h l fmg_Niter_default i Hh);
      [unfold fmg_Niter_default; lia | exact Hi]. }
  split; [| split; [exact Hb |]].
  - etransitivity; [exact Hrow |].
    subst g. cbv beta. rewrite Hexact by exact Hi.
    cbn [add sub mul div of_int tiny one Num_R]. reflexivity.
  - intros Ha Hb0.
    set (e := a + (b - a) * INR i / INR n) in *.
    set (d := nth i phi 0 - e) in *.
    assert (Ht : 0 <= INR i / INR n <= 1).
    { assert (HiR : INR i <= INR n) by (apply le_INR; exact Hi).
      pose proof (pos_INR i) as Hi0.
      split.
      - apply Rmult_le_pos; [exact Hi0 |].
        apply Rlt_le, Rinv_0_lt_compat. exact HnR.
      - apply Rmult_le_reg_r with (r := INR n); [exact HnR |].
        unfold Rdiv. rewrite Rmult_assoc, Rinv_l by lra. lra. }
    assert (He : 0 <= e).
    { subst e. set (t := INR i / INR n) in *.
      replace (a + (b - a) * INR i / INR n) with (a * (1 - t) + b * t)
        by (subst t; unfold Rdiv; ring).
      nra. }
    assert (Hden : 1 / 10000000000 <= e + 1 / 10000000000) by lra.
    set (q := e + 1 / 10000000000) in *.
    assert (Hq : 0 < q) by lra.
    unfold Rdiv at 1. rewrite Rabs_mult, Rabs_mult.
    rewrite (Rabs_right 100) by lra.
    rewrite (Rabs_right (/ q))
      by (apply Rle_ge, Rlt_le, Rinv_0_lt_compat; exact Hq).
    assert (Hinv : / q <= 10000000000).
    { apply Rmult_le_reg_r with (r := q); [exact Hq |].
      rewrite Rinv_l by lra. lra. }
    assert (Hiq : 0 < / q) by (apply Rinv_0_lt_compat; exact Hq).
    pose proof (Rabs_pos d) as Hd.
    assert (H3 : 0 <= Rabs (a + b) * (/ 3) ^ 100) by lra.
    nra.
Qed.

End DriverReal.

(** ** The further properties at concrete inputs *)

Lemma prolong_components_witness :
  let v := qarray [1; 3]%Z in
  v <> [] /\
  exists r, prolong v = Ok r /\
    length r = 2 * length v - 1 /\
    (forall j, j < length v -> nth (2 * j) r zero = nth j v zero) /\
    (forall j, j + 1 < length v ->
       nth (2 * j + 1) r zero =
       mul half (add (nth j v zero) (nth (j + 1) v zero))).
Proof.
  intros v.
  assert (Hne : v <> []) by discriminate.
  split; [exact Hne |].
  destruct (prolong_components (T := Qc)) as (_ & H).
  exact (H v Hne).
Defined.

Lemma restrict_components_witness :
  let v := qarray [1; 3; 5; 7; 9]%Z in
  v <> [] /\
  exists r, restrict v = Ok r /\
    length r = (length v + 1) / 2 /\
    nth (length r - 1) r zero = nth (length v - 1) v zero /\
    (length v <> 2 -> nth 0 r zero = nth 0 v zero) /\
    (forall j, 0 < j < length r - 1 ->
       2 * j + 1 < length v - 1 /\
       nth j r zero =
       mul quarter
         (add (add (nth (2 * j + 1) v zero)
                   (mul (of_int 2) (nth (2 * j) v zero)))
              (nth (2 * j - 1) v zero))).
Proof.
  intros v.
  assert (Hne : v <> []) by discriminate.
  split; [exact Hne |].
  destruct (restrict_components (T := Qc)) as (_ & H).
  exact (H v Hne).
Defined.

Lemma transfer_shapes_witness :
  let v := qarray [1; 3; 5; 7]%Z in
  v <> [] /\
  (exists p r, prolong v = Ok p /\ restrict p = Ok r /\ length r = length v) /\
  (exists r p, restrict v = Ok r /\ prolong r = Ok p /\
     length p = length v - (1 - length v mod 2)).
Proof.
  intros v.
  assert (Hne : v <> []) by discriminate.
  split; [exact Hne |].
  exact (transfer_shapes v Hne).
Defined.



Lemma jacobi_next_pass_witness :
  let phi : ndarray float := [a17; zero; zero; zero; zero] in
  let F : ndarray float := [zero; one; a17; one; zero] in
  let h : float := one in
  let w : float := w_default in
  (h = one /\ length phi = length F) /\
  exists r r',
    jacobi phi F h 2 w = Ok r /\
    jacobi phi F h 3 w = Ok r' /\
    length r = length phi /\ length r' = length phi /\
    (forall j, 0 < j < length phi - 1 ->
       nth j r' zero =
       add (mul (sub one w) (nth j r zero))
           (mul w (mul half
                     (add (add (nth (j - 1) r zero) (nth (j + 1) r zero))
                          (mul (mul h h) (nth j F zero)))))) /\
    (forall j, j < length phi -> j = 0 \/ j = length phi - 1 ->
       nth j r' zero =
       add (mul (sub one w) (nth j r zero)) (mul w (nth j phi zero))).
Proof.
  intros phi F h w.
  split; [split; reflexivity |].
  apply (jacobi_next_pass phi F h 2 w); [right |]; reflexivity.
Defined.

Lemma source_ends_unused_witness :
  let F := qarray [0; 1; 2; 3; 0]%Z in
  let F' := qarray [9; 1; 2; 3; 8]%Z in
  let phi := qarray [1; 0; 0; 0; 0]%Z in
  let h : Qc := of_int 1 in
  same_inside F F' /\
  jacobi phi F' h 3 w_default = jacobi phi F h 3 w_default /\
  vcycle phi F' h 3 = vcycle phi F h 3 /\
  fmg_vcycle F' h (of_int 1, of_int 0) 3
  = fmg_vcycle F h (of_int 1, of_int 0) 3.
Proof.
  intros F F' phi h.
  assert (Hsame : same_inside F F').
  { split; [reflexivity |]. intros j Hj. change (length F) with 5 in Hj.
    destruct j as [| [| [| [| j]]]]; try lia; reflexivity. }
  assert (Hvalid : valid_grid (length F))
    by (exists 2; split; [lia | reflexivity]).
  split; [exact Hsame |].
  destruct (source_ends_unused F F' h 3 Hsame) as (Hj & Hv & Hf).
  split; [apply Hj; reflexivity |].
  split; [apply Hv; [exact Hvalid | reflexivity] |].
  apply Hf. exact Hvalid.
Defined.



Lemma jacobi_compose_witness :
  let phi := qarray [1; 0; 0; 0; 0]%Z in
  let F := qarray [0; 1; 2; 3; 0]%Z in
  let h : Qc := of_int 1 in
  length phi = length F /\
  exists r1 r,
    jacobi phi F h 2 w_default = Ok r1 /\
    jacobi r1 F h 3 w_default = Ok r /\
    jacobi phi F h (2 + 3) w_default = Ok r.
Proof.
  intros phi F h. split; [reflexivity |].
  apply (jacobi_compose phi F h 2 3 w_default). reflexivity.
Defined.

Lemma zero_residual_fixed_point_witness :
  let phi := qarray [1; 2; 3]%Z in
  let F := qarray [5; 0; 7]%Z in
  let h : Qc := of_int 1 in
  let r := tabulate 3 (fun j => sub (mul (sq h) (nth j F zero)) (d2 phi j)) in
  (length phi = length F /\ residual phi F h = Ok r /\
   forall j, 0 < j < length phi - 1 -> nth j r zero = zero) /\
  jacobi phi F h 4 w_default = Ok phi.
Proof.
  intros phi F h r.
  assert (Hlen : length phi = length F) by reflexivity.
  assert (Hres : residual phi F h = Ok r)
    by (apply residual_closed_form; exact Hlen).
  assert (Hzero : forall j, 0 < j < length phi - 1 -> nth j r zero = zero).
  { intros j Hj. change (length phi) with 3 in Hj.
    assert (j = 1) by lia. subst j.
    apply Qc_is_canon. vm_compute. reflexivity. }
  split; [split; [exact Hlen | split; [exact Hres | exact Hzero]] |].
  exact (zero_residual_fixed_point phi F r h 4 w_default Hlen Hres Hzero).
Defined.

Section RealWitnesses.
Local Open Scope R_scope.

(** The solution of the three-point problem with the boundary pair
    [(1, 0)] and a zero Source. *)
Definition u3 : nat -> R :=
  fun j => match j with O => 1 | S O => 1 / 2 | _ => 0 end.

Lemma u3_solves : solves 2 [0; 0; 0] 1 u3.
Proof.
  intros j Hj. assert (j = 1%nat) by lia. subst j. cbn. lra.
Qed.

Lemma u3_fits : fits 2 [1; 0; 0] u3.
Proof. repeat split. Qed.

Lemma jacobi_max_error_witness :
  (0 <= 2 / 3 <= 1 /\ solves 2 [0; 0; 0] 1 u3 /\
   forall i, (i <= 2)%nat -> Rabs (nth i [1; 0; 0] 0 - u3 i) <= 1 / 2) /\
  exists r,
    jacobi [1; 0; 0] [0; 0; 0] 1 3 (2 / 3) = Ok r /\ length r = 3%nat /\
    forall i, (i <= 2)%nat -> Rabs (nth i r 0 - u3 i) <= 1 / 2.
Proof.
  assert (Hw : 0 <= 2 / 3 <= 1) by lra.
  assert (Hb : forall i, (i <= 2)%nat ->
            Rabs (nth i [1; 0; 0] 0 - u3 i) <= 1 / 2).
  { intros i Hi. apply Rabs_le.
    destruct i as [| [| [| i]]]; try lia; cbn; lra. }
  split; [split; [exact Hw | split; [exact u3_solves | exact Hb]] |].
  exact (jacobi_max_error 2 [1; 0; 0] [0; 0; 0] 1 (2 / 3) u3 3 (1 / 2)
           Hw eq_refl eq_refl u3_solves Hb).
Defined.

Lemma vcycle_energy_stable_witness :
  (1 <> 0 /\ fits 2 [1; 0; 0] u3 /\ solves 2 [0; 0; 0] 1 u3) /\
  exists r,
    vcycle [1; 0; 0] [0; 0; 0] 1 4 = Ok r /\
    fits (2 ^ 1) r u3 /\
    energy (2 ^ 1) (err r u3) <= energy (2 ^ 1) (err [1; 0; 0] u3).
Proof.
  assert (Hh : 1 <> 0) by lra.
  split; [split; [exact Hh | split; [exact u3_fits | exact u3_solves]] |].
  exact (vcycle_energy_stable 1 [1; 0; 0] [0; 0; 0] 1 u3 4
           (le_n 1) Hh eq_refl u3_fits u3_solves).
Defined.

Lemma vcycle_fixed_point_witness :
  (1 <> 0 /\ valid_grid (length [1; 1 / 2; 0]) /\
   forall j, (0 < j < length [1; 1 / 2; 0] - 1)%nat ->
     - nth (j - 1) [1; 1 / 2; 0] 0 + 2 * nth j [1; 1 / 2; 0] 0
     - nth (j + 1) [1; 1 / 2; 0] 0
     = 1 * 1 * nth j [0; 0; 0] 0) /\
  vcycle [1; 1 / 2; 0] [0; 0; 0] 1 4 = Ok [1; 1 / 2; 0].
Proof.
  assert (Hh : 1 <> 0) by lra.
  assert (Hvalid : valid_grid (length [1; 1 / 2; 0]))
    by (exists 1%nat; split; [lia | reflexivity]).
  assert (Heq : forall j, (0 < j < length [1; 1 / 2; 0] - 1)%nat ->
     - nth (j - 1) [1; 1 / 2; 0] 0 + 2 * nth j [1; 1 / 2; 0] 0
     - nth (j + 1) [1; 1 / 2; 0] 0
     = 1 * 1 * nth j [0; 0; 0] 0).
  { intros j Hj. cbn [length] in Hj. assert (j = 1%nat) by lia. subst j.
    cbn. lra. }
  split; [split; [exact Hh | split; [exact Hvalid | exact Heq]] |].
  exact (vcycle_fixed_point [1; 1 / 2; 0] [0; 0; 0] 1 4
           Hh Hvalid eq_refl Heq).
Defined.

Lemma fmg_ascent_energy_witness :
  (1 <> 0 /\ solves (2 ^ 1) [0; 0; 0] 1 u3) /\
  exists r r',
    fmg_vcycle [0; 0; 0] 1 (1, 0) 2 = Ok r /\
    fmg_vcycle [0; 0; 0] 1 (1, 0) 3 = Ok r' /\
    fits (2 ^ 1) r u3 /\ fits (2 ^ 1) r' u3 /\
    energy (2 ^ 1) (err r' u3) <= energy (2 ^ 1) (err r u3).
Proof.
  assert (Hh : 1 <> 0) by lra.
  split; [split; [exact Hh | exact u3_solves] |].
  exact (fmg_ascent_energy 1 [0; 0; 0] 1 1 0 u3 2
           (le_n 1) Hh eq_refl u3_solves eq_refl eq_refl).
Defined.

Lemma transfers_keep_interpolant_witness :
  (1 <= 2)%nat /\
  prolong (tabulate 3 (lin 2 1 0)) = Ok (tabulate 5 (lin 4 1 0)) /\
  restrict (tabulate 5 (lin 4 1 0)) = Ok (tabulate 3 (lin 2 1 0)).
Proof.
  split; [lia |].
  exact (transfers_keep_interpolant 2 1 0 (le_S 1 1 (le_n 1))).
Defined.

Lemma spacing_through_h2F_witness :
  (1 <> 0 /\ 2 <> 0 /\
   forall j, (0 < j < length [1; 0; 0] - 1)%nat ->
     2 * 2 * nth j [0; 1; 0] 0 = 1 * 1 * nth j [0; 4; 0] 0) /\
  (forall w, jacobi [1; 0; 0] [0; 1; 0] 2 3 w
             = jacobi [1; 0; 0] [0; 4; 0] 1 3 w) /\
  (valid_grid (length [1; 0; 0]) ->
   vcycle [1; 0; 0] [0; 1; 0] 2 3 = vcycle [1; 0; 0] [0; 4; 0] 1 3) /\
  (forall bndry, valid_grid (length [1; 0; 0]) ->
   fmg_vcycle [0; 1; 0] 2 bndry 3 = fmg_vcycle [0; 4; 0] 1 bndry 3).
Proof.
  assert (H1 : 1 <> 0) by lra.
  assert (H2 : 2 <> 0) by lra.
  assert (Heq : forall j, (0 < j < length [1; 0; 0] - 1)%nat ->
     2 * 2 * nth j [0; 1; 0] 0 = 1 * 1 * nth j [0; 4; 0] 0).
  { intros j Hj. cbn [length] in Hj. assert (j = 1%nat) by lia. subst j.
    cbn. lra. }
  split; [split; [exact H1 | split; [exact H2 | exact Heq]] |].
  exact (spacing_through_h2F [1; 0; 0] [0; 4; 0] [0; 1; 0] 1 2 3
           H1 H2 eq_refl eq_refl Heq).
Defined.

Lemma solve_table_witness :
  ((1 <= 2)%nat /\ (1 <= 2 ^ 2)%nat) /\
  exists rows p,
    solve (1, 0) (Z.of_nat (2 ^ 2)) 50 = Ok rows /\
    length rows = (2 ^ 2 + 1)%nat /\
    nth 1 rows (O, 0, 0, 0)
    = (1%nat, p, 1 + (0 - 1) * INR 1 / INR (2 ^ 2),
       100 * (p - (1 + (0 - 1) * INR 1 / INR (2 ^ 2)))
       / (1 + (0 - 1) * INR 1 / INR (2 ^ 2) + 1 / 10000000000)) /\
    Rabs (p - (1 + (0 - 1) * INR 1 / INR (2 ^ 2)))
      <= Rabs (1 + 0) * (/ 3) ^ 100 /\
    (0 <= 1 -> 0 <= 0 ->
     Rabs (100 * (p - (1 + (0 - 1) * INR 1 / INR (2 ^ 2)))
           / (1 + (0 - 1) * INR 1 / INR (2 ^ 2) + 1 / 10000000000))
       <= 1000000000000 * (Rabs (1 + 0) * (/ 3) ^ 100)).
Proof.
  assert (Hk : (1 <= 2)%nat) by lia.
  assert (Hi : (1 <= 2 ^ 2)%nat) by (simpl; lia).
  split; [split; [exact Hk | exact Hi] |].
  exact (solve_table 1 0 2 50 1 Hk Hi).
Defined.

End RealWitnesses.
